(** * SWRL_Viz: the SWRL-rule-to-DOT converter of [SWRL_Viz.py]

    A shallow embedding of class [SWRLToDOT] (rule splitter, atom
    classifier, graph builder and DOT emitter) together with the
    properties of its specification.

    Python strings are modelled as lists of 8-bit characters, read as the
    code points U+0000..U+00FF; on that block the character tables used
    by [str.strip], [\s], [\w] and [.] are those of CPython. *)

From Stdlib Require Import Ascii String.
From Stdlib Require Import List Bool Arith NArith Lia.
From Stdlib Require Import Permutation Sorted.
Import ListNotations.

Set Implicit Arguments.

(** ** Strings *)

Definition text := list ascii.

Definition lit (s : string) : text := list_ascii_of_string s.

Definition code (c : ascii) : N := N_of_ascii c.

Definition between (lo hi : N) (c : ascii) : bool :=
  (lo <=? code c)%N && (code c <=? hi)%N.

Definition is_code (n : N) (c : ascii) : bool := (code c =? n)%N.

(** [str.isspace] on one character: TAB..CR, FS..US, SPACE, NEL, NBSP. *)
Definition isspace (c : ascii) : bool :=
  between 9 13 c || between 28 32 c || is_code 133 c || is_code 160 c.

(** [str.isalnum] on one character. *)
Definition isalnum (c : ascii) : bool :=
  between 48 57 c || between 65 90 c || between 97 122 c
  || is_code 170 c || between 178 179 c || is_code 181 c
  || between 185 186 c || between 188 190 c
  || between 192 214 c || between 216 246 c || between 248 255 c.

Fixpoint lstrip (s : text) : text :=
  match s with
  | c :: t => if isspace c then lstrip t else s
  | [] => []
  end.

Definition rstrip (s : text) : text := rev (lstrip (rev s)).

(** [s.strip()] *)
Definition strip (s : text) : text := rstrip (lstrip s).

(** [s.startswith(p)] *)
Fixpoint startswith (s p : text) {struct p} : bool :=
  match p, s with
  | [], _ => true
  | x :: p', c :: s' => Ascii.eqb c x && startswith s' p'
  | _ :: _, [] => false
  end.

(** [s.split(sep)] for a non-empty [sep]: the pieces between the
    occurrences of [sep], scanned from the left, occurrences not
    overlapping.  [skip] counts the characters of an occurrence still to
    be passed, [cur] is the current piece in reverse. *)
Fixpoint split_from (sep s : text) (skip : nat) (cur : text) : list text :=
  match s with
  | [] => [rev cur]
  | c :: t =>
      match skip with
      | S n => split_from sep t n cur
      | O =>
          if startswith s sep
          then rev cur :: split_from sep t (length sep - 1) []
          else split_from sep t 0 (c :: cur)
      end
  end.

Definition split (s sep : text) : list text := split_from sep s 0 [].

(** ['\n'.join(lines)] *)
Fixpoint join (sep : text) (lines : list text) : text :=
  match lines with
  | [] => []
  | [l] => l
  | l :: rest => l ++ sep ++ join sep rest
  end.

(** ** Regular expressions

    The fragment of the [re] syntax that the source uses: literal
    characters, the sets [\w], [\s] and [.] under a quantifier ([*], [+],
    [+?]), concatenation and capture groups.  Matching is the
    backtracking search of [re], written with a continuation for the rest
    of the pattern: the first success in priority order is the match. *)

Inductive cset : Type :=
| Word      (* \w *)
| Space     (* \s *)
| AnyChar.  (* .  *)

Definition in_cset (cs : cset) (c : ascii) : bool :=
  match cs with
  | Word => isalnum c || is_code 95 c
  | Space => isspace c
  | AnyChar => negb (is_code 10 c)
  end.

Inductive regex : Type :=
| Chr (c : ascii)
| Rep (cs : cset) (min : nat) (eager : bool)
| Seq (a b : regex)
| Group (a : regex).

Definition Star (cs : cset) : regex := Rep cs 0 true.
Definition Plus (cs : cset) : regex := Rep cs 1 true.
Definition LazyPlus (cs : cset) : regex := Rep cs 1 false.

Declare Scope regex_scope.
Delimit Scope regex_scope with re.
Bind Scope regex_scope with regex.
Infix "&" := Seq (at level 60, right associativity) : regex_scope.

Section Matcher.
Variable R : Type.

(** A greedy quantifier takes the longest run first and gives
    characters back one at a time. *)
Fixpoint greedy (p : ascii -> bool) (min : nat) (s : text)
         (k : text -> option R) : option R :=
  let stop := match min with O => k s | S _ => None end in
  match s with
  | c :: t =>
      if p c then
        match greedy p (pred min) t k with
        | Some r => Some r
        | None => stop
        end
      else stop
  | [] => stop
  end.

(** A lazy quantifier tries the rest of the pattern first and takes one
    more character each time that fails. *)
Fixpoint lazy (p : ascii -> bool) (min : nat) (s : text)
         (k : text -> option R) : option R :=
  let more :=
    match s with
    | c :: t => if p c then lazy p (pred min) t k else None
    | [] => None
    end in
  match min with
  | S _ => more
  | O => match k s with
         | Some r => Some r
         | None => more
         end
  end.

Fixpoint run (r : regex) (s : text) (g : list text)
         (k : text -> list text -> option R) : option R :=
  match r with
  | Chr c =>
      match s with
      | x :: t => if Ascii.eqb x c then k t g else None
      | [] => None
      end
  | Rep cs min true => greedy (in_cset cs) min s (fun s' => k s' g)
  | Rep cs min false => lazy (in_cset cs) min s (fun s' => k s' g)
  | Seq a b => run a s g (fun s' g' => run b s' g' k)
  | Group a =>
      run a s g
          (fun s' g' => k s' (g' ++ [firstn (length s - length s') s]))
  end.
End Matcher.

(** [re.match(r, s)]: the groups of the match and the text after it. *)
Definition re_match (r : regex) (s : text) : option (list text * text) :=
  run r s [] (fun s' g => Some (g, s')).

(** [re.split(r, s)] for a pattern that matches no empty string: the
    pieces between the leftmost matches.  [skip] and [cur] as in
    [split_from]. *)
Fixpoint re_split_from (r : regex) (s : text) (skip : nat) (cur : text)
  : list text :=
  match s with
  | [] => [rev cur]
  | c :: t =>
      match skip with
      | S n => re_split_from r t n cur
      | O =>
          match re_match r s with
          | Some (_, rest) =>
              match length s - length rest with
              | S n => rev cur :: re_split_from r t n []
              | O => re_split_from r t 0 (c :: cur)
              end
          | None => re_split_from r t 0 (c :: cur)
          end
      end
  end.

Definition re_split (r : regex) (s : text) : list text :=
  re_split_from r s 0 [].

(** ** The rule splitter and the atom classifier *)

Inductive exn : Type :=
| ValueError (msg : text)
| OSError.

Inductive result (A : Type) : Type :=
| Ok (a : A)
| Raise (e : exn).
Arguments Ok {A} a.
Arguments Raise {A} e.

Definition bind {A B : Type} (m : result A) (f : A -> result B) : result B :=
  match m with
  | Ok a => f a
  | Raise e => Raise e
  end.

Notation "x <- m ;; f" := (bind m (fun x => f))
  (at level 61, m at next level, right associativity).

(** The two failures of the specification are both [ValueError] in the
    source, told apart by their message. *)
Definition MalformedRuleError : exn :=
  ValueError (lit "Invalid SWRL rule: missing '->' separator").

Definition UnparsableAtomError (atom : text) : exn :=
  ValueError (lit "Cannot parse atom: " ++ atom).

(** r'\s*\^\s*' *)
Definition caret_pattern : regex := (Star Space & Chr "^" & Star Space)%re.

Definition parse_swrl_rule (rule : text) : result (list text * list text) :=
  let parts := split rule (lit "->") in
  match parts with
  | [p0; p1] =>
      let antecedent := strip p0 in
      let consequent := strip p1 in
      let antecedent_atoms := map strip (re_split caret_pattern antecedent) in
      let consequent_atoms := map strip (re_split caret_pattern consequent) in
      Ok (antecedent_atoms, consequent_atoms)
  | _ => Raise MalformedRuleError
  end.

(** r'(\w+):(\w+)\((\?\w+)\)' *)
Definition class_pattern : regex :=
  (Group (Plus Word) & Chr ":" & Group (Plus Word) & Chr "("
   & Group (Chr "?" & Plus Word) & Chr ")")%re.

(** r'(\w+):(\w+)\((\?\w+),\s*(.+?)\)' *)
Definition property_pattern : regex :=
  (Group (Plus Word) & Chr ":" & Group (Plus Word) & Chr "("
   & Group (Chr "?" & Plus Word) & Chr "," & Star Space
   & Group (LazyPlus AnyChar) & Chr ")")%re.

(** The dictionary that [parse_atom] returns, by its ['type']. *)
Inductive atom : Type :=
| ClassAtom (prefix class variable : text)
| PropertyAtom (prefix property subject object : text).

(** What unpacking [groups()] into the wrong number of names raises;
    both patterns have as many groups as there are names, so that no call
    comes to it. *)
Definition unpack_error : exn := ValueError (lit "unpack").

Definition parse_atom (a : text) : result atom :=
  match re_match class_pattern a with
  | Some (groups, _) =>
      match groups with
      | [prefix; class_name; variable] =>
          Ok (ClassAtom prefix class_name variable)
      | _ => Raise unpack_error
      end
  | None =>
      match re_match property_pattern a with
      | Some (groups, _) =>
          match groups with
          | [prefix; property_name; subject; obj] =>
              Ok (PropertyAtom prefix property_name subject (strip obj))
          | _ => Raise unpack_error
          end
      | None => Raise (UnparsableAtomError a)
      end
  end.

(** ** The converter's state

    [variables] is a Python set, kept as a duplicate-free list that is
    only ever read through [sorted]; [classes] is a Python dict, kept in
    insertion order as an association list. *)

Inductive part : Type := antecedent | consequent.

Record cls_info : Type := { cls_class : text; cls_part : part }.

Record prop_info : Type :=
  { prop_subject : text; prop_predicate : text;
    prop_object : text; prop_part : part }.

Record SWRLToDOT : Type :=
  { variables : list text;
    classes : list (text * list cls_info);
    properties : list prop_info;
    atoms : list atom }.

Definition text_eq_dec : forall a b : text, {a = b} + {a <> b} :=
  list_eq_dec ascii_dec.

Definition text_eqb (a b : text) : bool :=
  if text_eq_dec a b then true else false.

(** [s.add(x)] *)
Definition set_add (x : text) (s : list text) : list text :=
  if in_dec text_eq_dec x s then s else s ++ [x].

(** [d[key]], when [key in d] *)
Fixpoint dict_get (A : Type) (d : list (text * A)) (key : text) : option A :=
  match d with
  | [] => None
  | (k, v) :: d' => if text_eqb k key then Some v else dict_get d' key
  end.

(** [if key not in d: d[key] = []] followed by [d[key].append(x)] *)
Fixpoint dict_append (A : Type) (d : list (text * list A)) (key : text) (x : A)
  : list (text * list A) :=
  match d with
  | [] => [(key, [x])]
  | (k, v) :: d' =>
      if text_eqb k key then (k, v ++ [x]) :: d'
      else (k, v) :: dict_append d' key x
  end.

(** The order of [str]: lexicographic on code points. *)
Fixpoint text_leb (a b : text) : bool :=
  match a, b with
  | [], _ => true
  | _ :: _, [] => false
  | x :: a', y :: b' =>
      if (code x <? code y)%N then true
      else if (code x =? code y)%N then text_leb a' b'
      else false
  end.

Fixpoint insert_sorted (x : text) (l : list text) : list text :=
  match l with
  | [] => [x]
  | y :: l' => if text_leb x y then x :: l else y :: insert_sorted x l'
  end.

(** [sorted(s)] *)
Definition sorted (s : list text) : list text :=
  fold_right insert_sorted [] s.

(** ** The DOT emitter *)

Definition dq : ascii := "034"%char.
Definition nl : ascii := "010"%char.

Definition quoted (x : text) : text := dq :: x ++ [dq].

Definition class_node (cls : text) : text :=
  lit "    " ++ quoted cls
  ++ lit " [shape=ellipse, fillcolor=lightgreen, style=filled];".

Definition variable_node (var : text) : text :=
  lit "    " ++ quoted var ++ lit " [label=" ++ quoted var
  ++ lit ", fillcolor=lightblue, style=" ++ quoted (lit "rounded,filled")
  ++ lit "];".

Definition literal_node (literal : text) : text :=
  lit "    " ++ quoted literal
  ++ lit " [shape=box, style=filled, fillcolor=lightyellow];".

Definition type_edge (var : text) (ci : cls_info) : text :=
  let cls := cls_class ci in
  match cls_part ci with
  | consequent =>
      lit "    " ++ quoted cls ++ lit " -> " ++ quoted var ++ lit " [label="
      ++ quoted (lit "rdf:type")
      ++ lit ", color=blue, penwidth=2, style=dashed];"
  | antecedent =>
      lit "    " ++ quoted cls ++ lit " -> " ++ quoted var ++ lit " [label="
      ++ quoted (lit "rdf:type") ++ lit ", style=dashed];"
  end.

Definition property_edge (prop : prop_info) : text :=
  let subject := prop_subject prop in
  let predicate := prop_predicate prop in
  let obj := prop_object prop in
  match prop_part prop with
  | consequent =>
      lit "    " ++ quoted subject ++ lit " -> " ++ quoted obj
      ++ lit " [label=" ++ quoted predicate ++ lit ", color=blue, penwidth=2];"
  | antecedent =>
      lit "    " ++ quoted subject ++ lit " -> " ++ quoted obj
      ++ lit " [label=" ++ quoted predicate ++ lit "];"
  end.

(** The set [all_classes]: every class of every list of the dict. *)
Definition all_classes (self : SWRLToDOT) : list text :=
  fold_left
    (fun acc item =>
       fold_left (fun acc' ci => set_add (cls_class ci) acc') (snd item) acc)
    (classes self) [].

(** The set [literals]: the objects that do not start with a question
    mark. *)
Definition literals (self : SWRLToDOT) : list text :=
  fold_left
    (fun acc prop =>
       let obj := prop_object prop in
       if negb (startswith obj (lit "?")) then set_add obj acc else acc)
    (properties self) [].

Definition header_lines : list text :=
  [lit "digraph SWRL_Rule {"; lit "    rankdir=LR;";
   lit "    node [shape=box, style=rounded];"; []].

Definition class_lines (self : SWRLToDOT) : list text :=
  map class_node (sorted (all_classes self)).

Definition variable_lines (self : SWRLToDOT) : list text :=
  map variable_node (sorted (variables self)).

Definition literal_lines (self : SWRLToDOT) : list text :=
  map literal_node (sorted (literals self)).

Definition type_edge_lines (self : SWRLToDOT) : list text :=
  flat_map
    (fun var =>
       match dict_get (classes self) var with
       | Some class_list => map (type_edge var) class_list
       | None => []
       end)
    (sorted (variables self)).

Definition property_edge_lines (self : SWRLToDOT) : list text :=
  map property_edge (properties self).

Definition dot_lines (self : SWRLToDOT) : list text :=
  header_lines
  ++ [lit "    // Classes"] ++ class_lines self ++ [[]]
  ++ [lit "    // Variables (Instances)"] ++ variable_lines self ++ [[]]
  ++ [lit "    // Literals"] ++ literal_lines self ++ [[]]
  ++ [lit "    // Class Assertions (rdf:type)"] ++ type_edge_lines self ++ [[]]
  ++ [lit "    // Properties"] ++ property_edge_lines self
  ++ [lit "}"].

Definition _create_dot_graph (self : SWRLToDOT) : text :=
  join [nl] (dot_lines self).

(** ** The graph builder and [generate_dot] *)

(** One of the two loops over atom strings: parse each atom and tag it;
    the first atom that does not parse ends the call. *)
Fixpoint parse_atoms (p : part) (l : list text) : result (list (atom * part)) :=
  match l with
  | [] => Ok []
  | a :: l' =>
      parsed <- parse_atom a ;;
      rest <- parse_atoms p l' ;;
      Ok ((parsed, p) :: rest)
  end.

(** The body of the loop over [all_atoms]. *)
Definition extract (self : SWRLToDOT) (a : atom * part) : SWRLToDOT :=
  match a with
  | (ClassAtom prefix class var, p) =>
      {| variables := set_add var (variables self);
         classes :=
           dict_append (classes self) var
             {| cls_class := prefix ++ lit ":" ++ class; cls_part := p |};
         properties := properties self;
         atoms := atoms self |}
  | (PropertyAtom prefix property subject obj, p) =>
      let vars := set_add subject (variables self) in
      {| variables :=
           if startswith obj (lit "?") then set_add obj vars else vars;
         classes := classes self;
         properties :=
           properties self
           ++ [{| prop_subject := subject;
                  prop_predicate := prefix ++ lit ":" ++ property;
                  prop_object := obj; prop_part := p |}];
         atoms := atoms self |}
  end.

(** The first three statements of [generate_dot]. *)
Definition reset (self : SWRLToDOT) : SWRLToDOT :=
  {| variables := []; classes := []; properties := []; atoms := atoms self |}.

(** The list [all_atoms] of a rule. *)
Definition rule_atoms (rule : text) : result (list (atom * part)) :=
  sides <- parse_swrl_rule rule ;;
  ante <- parse_atoms antecedent (fst sides) ;;
  cons <- parse_atoms consequent (snd sides) ;;
  Ok (ante ++ cons).

Definition build (self : SWRLToDOT) (all_atoms : list (atom * part))
  : SWRLToDOT :=
  fold_left extract all_atoms self.

(** What the call does to the outside: the file it opens, writes and
    closes, and the line it prints.  Whether the file system lets a file
    be opened and written is the [world]'s answer. *)
Inductive event : Type :=
| Open (path : text)
| Write (path data : text)
| Close (path : text)
| Print (line : text).

Record world : Type :=
  { open_ok : text -> bool; write_ok : text -> text -> bool }.

(** [if output_file:] holds for a string that is not empty. *)
Definition truthy (output_file : option text) : option text :=
  match output_file with
  | Some (c :: p) => Some (c :: p)
  | _ => None
  end.

Definition save (w : world) (output_file : option text) (dot : text)
  : result text * list event :=
  match truthy output_file with
  | Some path =>
      if open_ok w path then
        if write_ok w path dot then
          (Ok dot,
           [Open path; Write path dot; Close path;
            Print (lit "DOT file saved to: " ++ path)])
        else (Raise OSError, [Open path; Close path])
      else (Raise OSError, [])
  | None => (Ok dot, [])
  end.

Definition generate_dot (w : world) (self : SWRLToDOT) (rule : text)
           (output_file : option text)
  : result text * SWRLToDOT * list event :=
  let self := reset self in
  match rule_atoms rule with
  | Raise e => (Raise e, self, [])
  | Ok all_atoms =>
      let self := build self all_atoms in
      let dot := _create_dot_graph self in
      let (r, tr) := save w output_file dot in
      (r, self, tr)
  end.

Definition new_converter : SWRLToDOT :=
  {| variables := []; classes := []; properties := []; atoms := [] |}.

Definition quiet : world :=
  {| open_ok := fun _ => true; write_ok := fun _ _ => true |}.

(** ** Vocabulary of the properties *)

(** [stops p s]: a run of characters of [p] cannot go on into [s]. *)
Definition stops (p : ascii -> bool) (s : text) : Prop :=
  match s with
  | c :: _ => p c = false
  | [] => True
  end.

(** Names, blanks and object tokens, as the two patterns see them. *)
Definition wordb (w : text) : bool :=
  match w with
  | [] => false
  | _ :: _ => forallb (in_cset Word) w
  end.

Definition blankb (ws : text) : bool := forallb isspace ws.

Definition inner_char (c : ascii) : bool :=
  in_cset AnyChar c && negb (Ascii.eqb c ")").

Definition objectb (o : text) : bool :=
  match o with
  | [] => false
  | c :: _ => negb (isspace c) && forallb inner_char o
  end.

(** The two surface forms of the atom grammar, followed by any text. *)
Definition class_form (p n v tail : text) : text :=
  p ++ ":"%char :: n ++ "("%char :: "?"%char :: v ++ ")"%char :: tail.

Definition property_form (p n v ws o tail : text) : text :=
  p ++ ":"%char :: n ++ "("%char :: "?"%char :: v ++ ","%char
    :: ws ++ o ++ ")"%char :: tail.

(** The words a pattern matches and the groups it then yields, without
    the order in which the search tries them. *)
Inductive denotes : regex -> text -> list text -> Prop :=
| D_chr c : denotes (Chr c) [c] []
| D_rep cs min e w :
    forallb (in_cset cs) w = true -> min <= length w ->
    denotes (Rep cs min e) w []
| D_seq a b w1 w2 g1 g2 :
    denotes a w1 g1 -> denotes b w2 g2 ->
    denotes (Seq a b) (w1 ++ w2) (g1 ++ g2)
| D_group a w g :
    denotes a w g -> denotes (Group a) w (g ++ [w]).

(** The number of places of [s] at which [sep] occurs. *)
Fixpoint count_sub (sep s : text) : nat :=
  match s with
  | [] => 0
  | _ :: t => (if startswith s sep then 1 else 0) + count_sub sep t
  end.

(** The class assertions, property relations, variables, class names
    and literals that a list of tagged atoms mentions, in atom order. *)
Definition assertion_of (a : atom * part) : list (text * cls_info) :=
  match a with
  | (ClassAtom prefix class var, p) =>
      [(var, {| cls_class := prefix ++ lit ":" ++ class; cls_part := p |})]
  | _ => []
  end.

Definition relation_of (a : atom * part) : list prop_info :=
  match a with
  | (PropertyAtom prefix property subject obj, p) =>
      [{| prop_subject := subject;
          prop_predicate := prefix ++ lit ":" ++ property;
          prop_object := obj; prop_part := p |}]
  | _ => []
  end.

Definition variables_of (a : atom * part) : list text :=
  match a with
  | (ClassAtom _ _ var, _) => [var]
  | (PropertyAtom _ _ subject obj, _) =>
      subject :: (if startswith obj (lit "?") then [obj] else [])
  end.

Definition literals_of (a : atom * part) : list text :=
  match a with
  | (PropertyAtom _ _ _ obj, _) =>
      if startswith obj (lit "?") then [] else [obj]
  | _ => []
  end.

Definition assertions (l : list (atom * part)) : list (text * cls_info) :=
  flat_map assertion_of l.

Definition relations (l : list (atom * part)) : list prop_info :=
  flat_map relation_of l.

Definition mentioned_variables (l : list (atom * part)) : list text :=
  flat_map variables_of l.

Definition mentioned_classes (l : list (atom * part)) : list text :=
  map (fun va => cls_class (snd va)) (assertions l).

Definition mentioned_literals (l : list (atom * part)) : list text :=
  flat_map literals_of l.

(** The assertions about one variable, in atom order. *)
Definition assertions_about (l : list (atom * part)) (var : text)
  : list cls_info :=
  map snd (filter (fun va => text_eqb (fst va) var) (assertions l)).

(** The strict order of [str]. *)
Definition text_lt (a b : text) : Prop :=
  text_leb a b = true /\ a <> b.

(** The text that a rule converts to, as a function of the rule alone. *)
Definition dot_text (rule : text) : result text :=
  all_atoms <- rule_atoms rule ;;
  Ok (_create_dot_graph (build new_converter all_atoms)).

(** The three components of what [generate_dot] does. *)
Definition outcome (x : result text * SWRLToDOT * list event) : result text :=
  fst (fst x).

Definition final (x : result text * SWRLToDOT * list event) : SWRLToDOT :=
  snd (fst x).

Definition trace (x : result text * SWRLToDOT * list event) : list event :=
  snd x.

(** Two converters that hold the same graph. *)
Definition same_graph (a b : SWRLToDOT) : Prop :=
  variables a = variables b /\ classes a = classes b
  /\ properties a = properties b.

(** The arguments of an atom: what stands between its first opening and
    its last closing parenthesis, split on commas. *)
Fixpoint after (d : ascii) (s : text) : text :=
  match s with
  | [] => []
  | c :: t => if Ascii.eqb c d then t else after d t
  end.

Definition arguments (a : text) : list text :=
  split (rev (after ")" (rev (after "(" a)))) (lit ",").

(** A side of a rule that ends in a caret, blanks apart. *)
Definition trailing_caretb (side : text) : bool :=
  match lstrip (rev side) with
  | c :: _ => Ascii.eqb c "^"
  | [] => false
  end.

(** A side of a rule with an empty last atom. *)
Definition empty_side (side : text) : bool :=
  blankb side || trailing_caretb side.

(** The node and edge statements of a DOT text: its lines that open
    with the indentation and a quoted name. *)
Definition statements (dot : text) : list text :=
  filter (fun l => startswith l (lit "    " ++ [dq])) (split dot [nl]).

(** The two scenarios of the specification. *)
Definition scenario_value : text := lit "A:Foo(?x) -> A:hasVal(?x, 5)".

Definition scenario_value_statements : list text :=
  [ lit "    " ++ quoted (lit "A:Foo")
    ++ lit " [shape=ellipse, fillcolor=lightgreen, style=filled];";
    lit "    " ++ quoted (lit "?x") ++ lit " [label=" ++ quoted (lit "?x")
    ++ lit ", fillcolor=lightblue, style=" ++ quoted (lit "rounded,filled")
    ++ lit "];";
    lit "    " ++ quoted (lit "5")
    ++ lit " [shape=box, style=filled, fillcolor=lightyellow];";
    lit "    " ++ quoted (lit "A:Foo") ++ lit " -> " ++ quoted (lit "?x")
    ++ lit " [label=" ++ quoted (lit "rdf:type") ++ lit ", style=dashed];";
    lit "    " ++ quoted (lit "?x") ++ lit " -> " ++ quoted (lit "5")
    ++ lit " [label=" ++ quoted (lit "A:hasVal")
    ++ lit ", color=blue, penwidth=2];" ].

Definition scenario_twice : text := lit "A:B(?x) ^ A:B(?x) -> A:C(?x)".

Definition scenario_twice_statements : list text :=
  [ lit "    " ++ quoted (lit "A:B")
    ++ lit " [shape=ellipse, fillcolor=lightgreen, style=filled];";
    lit "    " ++ quoted (lit "A:C")
    ++ lit " [shape=ellipse, fillcolor=lightgreen, style=filled];";
    lit "    " ++ quoted (lit "?x") ++ lit " [label=" ++ quoted (lit "?x")
    ++ lit ", fillcolor=lightblue, style=" ++ quoted (lit "rounded,filled")
    ++ lit "];";
    lit "    " ++ quoted (lit "A:B") ++ lit " -> " ++ quoted (lit "?x")
    ++ lit " [label=" ++ quoted (lit "rdf:type") ++ lit ", style=dashed];";
    lit "    " ++ quoted (lit "A:B") ++ lit " -> " ++ quoted (lit "?x")
    ++ lit " [label=" ++ quoted (lit "rdf:type") ++ lit ", style=dashed];";
    lit "    " ++ quoted (lit "A:C") ++ lit " -> " ++ quoted (lit "?x")
    ++ lit " [label=" ++ quoted (lit "rdf:type")
    ++ lit ", color=blue, penwidth=2, style=dashed];" ].

(** The list that a key of the dict holds, empty when the key is not
    in it, and all the values of the dict. *)
Definition lookup (d : list (text * list cls_info)) (key : text)
  : list cls_info :=
  match dict_get d key with
  | Some l => l
  | None => []
  end.

Definition dict_values (d : list (text * list cls_info)) : list cls_info :=
  flat_map snd d.

(** The edge of one class assertion. *)
Definition assertion_edge (va : text * cls_info) : text :=
  type_edge (fst va) (snd va).

(** The literal, if any, of one property relation. *)
Definition literal_of (prop : prop_info) : list text :=
  if startswith (prop_object prop) (lit "?") then [] else [prop_object prop].

(** The kinds of lines of a DOT text, told apart by how a line ends. *)
Inductive line_kind : Type :=
| KClass | KVariable | KLiteral | KTypeEdge | KPropertyEdge | KOther.

Definition ends_with (l suffix : text) : bool :=
  startswith (rev l) (rev suffix).

Definition kind (l : text) : line_kind :=
  if ends_with l (lit "=filled];") then KClass
  else if ends_with l (lit "lightyellow];") then KLiteral
  else if ends_with l (lit "dashed];") then KTypeEdge
  else if ends_with l (lit "penwidth=2];") then KPropertyEdge
  else if ends_with l (lit ",filled" ++ dq :: lit "];") then KVariable
  else if ends_with l (dq :: lit "];") then KPropertyEdge
  else KOther.

Definition is_kind (k : line_kind) (l : text) : bool :=
  match k, kind l with
  | KClass, KClass | KVariable, KVariable | KLiteral, KLiteral
  | KTypeEdge, KTypeEdge | KPropertyEdge, KPropertyEdge
  | KOther, KOther => true
  | _, _ => false
  end.

(** Qualified names are made of word characters and a colon. *)
Definition cleanb (name : text) : bool :=
  forallb (fun c => in_cset Word c || Ascii.eqb c ":") name.

(** What [parse_atom] returns: names of word characters, a variable,
    and an object without a line break. *)
Definition plainb (l : text) : bool := forallb (in_cset AnyChar) l.

Definition well_formed (a : atom * part) : Prop :=
  match fst a with
  | ClassAtom p n v => cleanb (p ++ lit ":" ++ n) = true /\ plainb v = true
  | PropertyAtom p n s o =>
      cleanb (p ++ lit ":" ++ n) = true
      /\ plainb s = true /\ plainb o = true
  end.

(** The tagged atoms of the two scenarios. *)
Definition scenario_value_atoms : list (atom * part) :=
  [ (ClassAtom (lit "A") (lit "Foo") (lit "?x"), antecedent);
    (PropertyAtom (lit "A") (lit "hasVal") (lit "?x") (lit "5"), consequent) ].

Definition scenario_twice_atoms : list (atom * part) :=
  [ (ClassAtom (lit "A") (lit "B") (lit "?x"), antecedent);
    (ClassAtom (lit "A") (lit "B") (lit "?x"), antecedent);
    (ClassAtom (lit "A") (lit "C") (lit "?x"), consequent) ].

(** ** The module's functions

    [swrl_to_dot] makes a converter of its own for every call and writes
    to [output.dot] unless told otherwise; an argument that the caller
    leaves out is [None] here, one that is given is [Some]. *)
Definition swrl_to_dot (w : world) (swrl_rule : text)
           (output_file : option (option text))
  : result text * list event :=
  let output_file :=
    match output_file with
    | Some given => given
    | None => Some (lit "output.dot")
    end in
  let converter := new_converter in
  let '(r, _, tr) := generate_dot w converter swrl_rule output_file in
  (r, tr).

(** [s.replace(old, new)] for a non-empty [old]: every occurrence of
    [old], scanned from the left, occurrences not overlapping. *)
Fixpoint replace_from (old new s : text) (skip : nat) : text :=
  match s with
  | [] => []
  | c :: t =>
      match skip with
      | S n => replace_from old new t n
      | O =>
          if startswith s old
          then new ++ replace_from old new t (length old - 1)
          else c :: replace_from old new t 0
      end
  end.

Definition replace (s old new : text) : text := replace_from old new s 0.

(** The name that [swrl_to_pdf] hands to the renderer, which adds the
    extension itself: [output_pdf.replace('.pdf', '')]. *)
Definition render_name (output_pdf : text) : text :=
  replace output_pdf (lit ".pdf") [].

(** An atom as the splitter returns it: stripped, without a caret and
    without an arrow. *)
Definition tidy (a : text) : Prop :=
  strip a = a /\ ~ In "^"%char a /\ count_sub (lit "->") a = 0.

(** The rule text that puts the atoms of the two sides back together. *)
Definition canonical (ante cons : list text) : text :=
  join (lit " ^ ") ante ++ lit " -> " ++ join (lit " ^ ") cons.

(** What a converter holds between calls. *)
Definition consistent (self : SWRLToDOT) : Prop :=
  NoDup (variables self)
  /\ NoDup (map fst (classes self))
  /\ (forall key l, In (key, l) (classes self) ->
                    l <> [] /\ In key (variables self))
  /\ (forall prop, In prop (properties self) ->
                   In (prop_subject prop) (variables self)
                   /\ (startswith (prop_object prop) (lit "?") = true ->
                       In (prop_object prop) (variables self))).

(** * Properties *)

Unset Implicit Arguments.

(** ** Facts about the matcher *)

Lemma greedy_cons (R : Type) p min c t (k : text -> option R) :
  greedy p min (c :: t) k =
  if p c then
    match greedy p (pred min) t k with
    | Some r => Some r
    | None => match min with O => k (c :: t) | S _ => None end
    end
  else match min with O => k (c :: t) | S _ => None end.
Proof. reflexivity. Qed.

Lemma greedy_stop (R : Type) p s (k : text -> option R) :
  stops p s -> greedy p 0 s k = k s.
Proof.
  destruct s as [|c t]; simpl; intros H; [reflexivity|].
  now rewrite H.
Qed.

(** On a run [w] of the set that ends where [rest] begins, a greedy
    quantifier whose continuation refuses every shorter run behaves as
    the continuation on [rest]. *)
Lemma greedy_eq (R : Type) p (k : text -> option R) rest :
  stops p rest ->
  forall w min,
    forallb p w = true -> min <= length w ->
    (forall w1 x w2, w = w1 ++ x :: w2 -> k (x :: w2 ++ rest) = None) ->
    greedy p min (w ++ rest) k = k rest.
Proof.
  intros Hstop w; induction w as [|c w IH]; intros min Hw Hmin Hk.
  - simpl in Hmin. replace min with 0 by lia. now apply greedy_stop.
  - simpl in Hw. apply andb_prop in Hw as [Hc Hw].
    change ((c :: w) ++ rest) with (c :: w ++ rest).
    rewrite greedy_cons, Hc, IH; trivial.
    + destruct (k rest); [reflexivity|].
      destruct min; [|reflexivity].
      apply (Hk [] c w); reflexivity.
    + simpl in Hmin; lia.
    + intros w1 x w2 ->. apply (Hk (c :: w1) x w2); reflexivity.
Qed.

Lemma greedy_ok (R : Type) p (k : text -> option R) rest r :
  stops p rest -> k rest = Some r ->
  forall w min,
    forallb p w = true -> min <= length w ->
    greedy p min (w ++ rest) k = Some r.
Proof.
  intros Hstop Hr w; induction w as [|c w IH]; intros min Hw Hmin.
  - simpl in Hmin. replace min with 0 by lia. now rewrite greedy_stop.
  - simpl in Hw. apply andb_prop in Hw as [Hc Hw].
    change ((c :: w) ++ rest) with (c :: w ++ rest).
    rewrite greedy_cons, Hc, IH; trivial. simpl in Hmin; lia.
Qed.

Lemma lazy_unfold (R : Type) p min s (k : text -> option R) :
  lazy p min s k =
  let more :=
    match s with
    | c :: t => if p c then lazy p (pred min) t k else None
    | [] => None
    end in
  match min with
  | S _ => more
  | O => match k s with Some r => Some r | None => more end
  end.
Proof. destruct s; reflexivity. Qed.

(** A lazy quantifier stops at the first place, after its minimum, where
    the continuation succeeds. *)
Lemma lazy_ok (R : Type) p (k : text -> option R) rest r :
  k rest = Some r ->
  forall o min,
    forallb p o = true -> min <= length o ->
    (forall o1 x o2,
        o = o1 ++ x :: o2 -> min <= length o1 -> k (x :: o2 ++ rest) = None) ->
    lazy p min (o ++ rest) k = Some r.
Proof.
  intros Hr o; induction o as [|c o IH]; intros min Ho Hmin Hk.
  - simpl in Hmin. replace min with 0 by lia.
    rewrite lazy_unfold. simpl. now rewrite Hr.
  - simpl in Ho. apply andb_prop in Ho as [Hc Ho].
    change ((c :: o) ++ rest) with (c :: o ++ rest).
    rewrite lazy_unfold. cbv zeta. rewrite Hc.
    assert (Hrec : lazy p (pred min) (o ++ rest) k = Some r).
    { apply IH; trivial.
      - simpl in Hmin; lia.
      - intros o1 x o2 -> Hlen. apply (Hk (c :: o1) x o2); [reflexivity|].
        simpl; lia. }
    destruct min; [|exact Hrec].
    rewrite (Hk [] c o eq_refl (Nat.le_refl 0)). exact Hrec.
Qed.

Lemma firstn_consumed (w s : text) :
  firstn (length (w ++ s) - length s) (w ++ s) = w.
Proof.
  rewrite length_app, Nat.add_sub.
  rewrite firstn_app, Nat.sub_diag, firstn_all. simpl. apply app_nil_r.
Qed.

Lemma wordb_forallb w : wordb w = true -> forallb (in_cset Word) w = true.
Proof. destruct w; [discriminate|trivial]. Qed.

Lemma wordb_length w : wordb w = true -> 1 <= length w.
Proof. destruct w; [discriminate|simpl; lia]. Qed.

Lemma forallb_split (p : ascii -> bool) w w1 x w2 :
  forallb p w = true -> w = w1 ++ x :: w2 -> p x = true.
Proof.
  intros H ->. rewrite forallb_app in H. apply andb_prop in H as [_ H].
  simpl in H. now apply andb_prop in H as [H _].
Qed.

Lemma eqb_word_other x c :
  in_cset Word x = true -> in_cset Word c = false -> Ascii.eqb x c = false.
Proof.
  intros Hx Hc. destruct (Ascii.eqb_spec x c) as [->|]; congruence.
Qed.

(** A name in a group followed by a delimiter that is no word character:
    the group takes the whole name. *)
Lemma run_name (R : Type) w c r rest g (k : text -> list text -> option R) :
  wordb w = true -> in_cset Word c = false ->
  run (Group (Plus Word) & Chr c & r) (w ++ c :: rest) g k
  = run r rest (g ++ [w]) k.
Proof.
  intros Hw Hc. unfold Plus. cbn [run].
  rewrite greedy_eq.
  - rewrite firstn_consumed, Ascii.eqb_refl. reflexivity.
  - exact Hc.
  - now apply wordb_forallb.
  - now apply wordb_length.
  - intros w1 x w2 E.
    rewrite (eqb_word_other x c); trivial.
    eapply forallb_split; [apply wordb_forallb, Hw|exact E].
Qed.

(** The same for a variable: a question mark and a name. *)
Lemma run_variable (R : Type) v c r rest g
      (k : text -> list text -> option R) :
  wordb v = true -> in_cset Word c = false ->
  run (Group (Chr "?" & Plus Word) & Chr c & r)
      ("?"%char :: v ++ c :: rest) g k
  = run r rest (g ++ ["?"%char :: v]) k.
Proof.
  intros Hv Hc. unfold Plus. cbn [run]. rewrite Ascii.eqb_refl.
  rewrite greedy_eq.
  - change ("?"%char :: v ++ c :: rest) with (("?"%char :: v) ++ c :: rest).
    rewrite firstn_consumed, Ascii.eqb_refl. reflexivity.
  - exact Hc.
  - now apply wordb_forallb.
  - now apply wordb_length.
  - intros w1 x w2 E.
    rewrite (eqb_word_other x c); trivial.
    eapply forallb_split; [apply wordb_forallb, Hv|exact E].
Qed.

Lemma run_chr_other (R : Type) c x r rest g
      (k : text -> list text -> option R) :
  Ascii.eqb x c = false -> run (Chr c & r) (x :: rest) g k = None.
Proof. intros E. cbn [run]. now rewrite E. Qed.

Lemma objectb_stops o rest : objectb o = true -> stops isspace (o ++ rest).
Proof.
  destruct o as [|c o]; [discriminate|]. simpl.
  intros H. apply andb_prop in H as [H _]. now apply negb_true_iff.
Qed.

(** The tail of the property pattern on blanks, an object token and a
    closing parenthesis: the group is the token. *)
Lemma run_object (R : Type) ws o tail g x
      (k : text -> list text -> option R) :
  blankb ws = true -> objectb o = true ->
  k tail (g ++ [o]) = Some x ->
  run (Star Space & Group (LazyPlus AnyChar) & Chr ")")
      (ws ++ o ++ ")"%char :: tail) g k = Some x.
Proof.
  intros Hws Ho Hk. unfold Star, LazyPlus. cbn [run].
  apply greedy_ok; trivial; [now apply objectb_stops| |lia].
  assert (Hp : forallb inner_char o = true).
  { destruct o; [discriminate|]. now apply andb_prop in Ho as [_ Ho]. }
  apply lazy_ok.
  - now rewrite firstn_consumed, Ascii.eqb_refl.
  - rewrite forallb_forall in Hp |- *. intros c Hin.
    now destruct (andb_prop _ _ (Hp c Hin)).
  - destruct o; [discriminate|simpl; lia].
  - intros o1 c o2 E _.
    pose proof (forallb_split inner_char o o1 c o2 Hp E) as Hc.
    apply andb_prop in Hc as [_ Hc]. apply negb_true_iff in Hc.
    now rewrite Hc.
Qed.

Lemma class_form_match p n v tail :
  wordb p = true -> wordb n = true -> wordb v = true ->
  re_match class_pattern (class_form p n v tail)
  = Some ([p; n; "?"%char :: v], tail).
Proof.
  intros Hp Hn Hv. unfold re_match, class_pattern, class_form.
  rewrite run_name, run_name; trivial.
  unfold Plus. cbn [run]. rewrite Ascii.eqb_refl.
  rewrite greedy_eq with (rest := ")"%char :: tail).
  - change ("?"%char :: v ++ ")"%char :: tail)
      with (("?"%char :: v) ++ ")"%char :: tail).
    now rewrite firstn_consumed.
  - reflexivity.
  - now apply wordb_forallb.
  - now apply wordb_length.
  - intros w1 x w2 E. rewrite (eqb_word_other x ")"); trivial.
    eapply forallb_split; [apply wordb_forallb, Hv|exact E].
Qed.

Lemma class_pattern_on_property p n v rest :
  wordb p = true -> wordb n = true -> wordb v = true ->
  re_match class_pattern
    (p ++ ":"%char :: n ++ "("%char :: "?"%char :: v ++ ","%char :: rest)
  = None.
Proof.
  intros Hp Hn Hv. unfold re_match, class_pattern.
  rewrite run_name, run_name; trivial.
  unfold Plus. cbn [run]. rewrite Ascii.eqb_refl.
  rewrite greedy_eq with (rest := ","%char :: rest).
  - reflexivity.
  - reflexivity.
  - now apply wordb_forallb.
  - now apply wordb_length.
  - intros w1 x w2 E. rewrite (eqb_word_other x ")"); trivial.
    eapply forallb_split; [apply wordb_forallb, Hv|exact E].
Qed.

Lemma property_form_match p n v ws o tail :
  wordb p = true -> wordb n = true -> wordb v = true ->
  blankb ws = true -> objectb o = true ->
  re_match property_pattern (property_form p n v ws o tail)
  = Some ([p; n; "?"%char :: v; o], tail).
Proof.
  intros Hp Hn Hv Hws Ho. unfold re_match, property_pattern, property_form.
  rewrite run_name, run_name, run_variable; trivial.
  now apply run_object.
Qed.

Lemma parse_class_form p n v tail :
  wordb p = true -> wordb n = true -> wordb v = true ->
  parse_atom (class_form p n v tail) = Ok (ClassAtom p n ("?"%char :: v)).
Proof.
  intros Hp Hn Hv. unfold parse_atom.
  now rewrite class_form_match.
Qed.

Lemma parse_property_form p n v ws o tail :
  wordb p = true -> wordb n = true -> wordb v = true ->
  blankb ws = true -> objectb o = true ->
  parse_atom (property_form p n v ws o tail)
  = Ok (PropertyAtom p n ("?"%char :: v) (strip o)).
Proof.
  intros Hp Hn Hv Hws Ho. unfold parse_atom.
  unfold property_form at 1.
  rewrite class_pattern_on_property; trivial.
  now rewrite property_form_match.
Qed.

(** *** Every match is a word of the pattern *)

Lemma greedy_sound (R : Type) p (k : text -> option R) x :
  forall s min,
    greedy p min s k = Some x ->
    exists w s',
      s = w ++ s' /\ forallb p w = true /\ min <= length w /\ k s' = Some x.
Proof.
  induction s as [|c t IH]; intros min H.
  - destruct min; simpl in H; [|discriminate].
    exists [], []. auto.
  - rewrite greedy_cons in H.
    assert (Hstop :
              match min with O => k (c :: t) | S _ => None end = Some x ->
              exists w s',
                c :: t = w ++ s' /\ forallb p w = true
                /\ min <= length w /\ k s' = Some x).
    { destruct min; [|discriminate]. intros Hk. exists [], (c :: t). auto. }
    destruct (p c) eqn:Hc; [|auto].
    destruct (greedy p (pred min) t k) eqn:Hg; [|auto].
    injection H as ->.
    destruct (IH _ Hg) as (w & s' & -> & Hw & Hmin & Hk).
    exists (c :: w), s'. simpl. rewrite Hc, Hw. repeat split; trivial. lia.
Qed.

Lemma lazy_sound (R : Type) p (k : text -> option R) x :
  forall s min,
    lazy p min s k = Some x ->
    exists w s',
      s = w ++ s' /\ forallb p w = true /\ min <= length w /\ k s' = Some x.
Proof.
  induction s as [|c t IH]; intros min H; rewrite lazy_unfold in H;
    cbv zeta in H.
  - destruct min; [|discriminate].
    destruct (k []) eqn:Hk; [|discriminate].
    injection H as ->. exists [], []. auto.
  - assert (Hmore :
              (if p c then lazy p (pred min) t k else None) = Some x ->
              exists w s',
                c :: t = w ++ s' /\ forallb p w = true
                /\ min <= length w /\ k s' = Some x).
    { destruct (p c) eqn:Hc; [|discriminate]. intros Hl.
      destruct (IH _ Hl) as (w & s' & -> & Hw & Hmin & Hk).
      exists (c :: w), s'. simpl. rewrite Hc, Hw. repeat split; trivial. lia. }
    destruct min; [|auto].
    destruct (k (c :: t)) eqn:Hk; [|auto].
    injection H as ->. exists [], (c :: t). auto.
Qed.

Lemma run_sound (R : Type) r :
  forall s g (k : text -> list text -> option R) x,
    run r s g k = Some x ->
    exists w s' g',
      s = w ++ s' /\ denotes r w g' /\ k s' (g ++ g') = Some x.
Proof.
  induction r as [c|cs min e|a IHa b IHb|a IHa]; intros s g k x H.
  - cbn [run] in H. destruct s as [|y t]; [discriminate|].
    destruct (Ascii.eqb_spec y c) as [->|]; [|discriminate].
    exists [c], t, []. rewrite app_nil_r. repeat split; trivial. constructor.
  - assert (Hs : exists w s',
               s = w ++ s' /\ forallb (in_cset cs) w = true
               /\ min <= length w /\ k s' g = Some x).
    { destruct e; cbn [run] in H.
      - now apply greedy_sound in H.
      - now apply lazy_sound in H. }
    destruct Hs as (w & s' & -> & Hw & Hmin & Hk).
    exists w, s', []. rewrite app_nil_r. repeat split; trivial.
    now constructor.
  - cbn [run] in H.
    destruct (IHa _ _ _ _ H) as (w1 & s1 & g1 & -> & Da & H1).
    destruct (IHb _ _ _ _ H1) as (w2 & s2 & g2 & -> & Db & H2).
    exists (w1 ++ w2), s2, (g1 ++ g2).
    rewrite <- !app_assoc. rewrite <- app_assoc in H2.
    repeat split; trivial. now constructor.
  - cbn [run] in H.
    destruct (IHa _ _ _ _ H) as (w & s' & g' & -> & Da & H1).
    rewrite firstn_consumed in H1.
    exists w, s', (g' ++ [w]). rewrite app_assoc.
    repeat split; trivial. now constructor.
Qed.

Lemma re_match_sound r s g rest :
  re_match r s = Some (g, rest) ->
  exists w, s = w ++ rest /\ denotes r w g.
Proof.
  unfold re_match. intros H.
  apply run_sound in H as (w & s' & g' & -> & D & E).
  simpl in E. injection E as <- <-. now exists w.
Qed.

Ltac invert_denotes :=
  repeat match goal with
         | H : denotes (Seq _ _) _ _ |- _ => inversion H; subst; clear H
         | H : denotes (Group _) _ _ |- _ => inversion H; subst; clear H
         | H : denotes (Chr _) _ _ |- _ => inversion H; subst; clear H
         | H : denotes (Rep _ _ _) _ _ |- _ => inversion H; subst; clear H
         | H : denotes (Plus _) _ _ |- _ => unfold Plus in H
         | H : denotes (Star _) _ _ |- _ => unfold Star in H
         | H : denotes (LazyPlus _) _ _ |- _ => unfold LazyPlus in H
         end.

Lemma wordb_intro w :
  forallb (in_cset Word) w = true -> 1 <= length w -> wordb w = true.
Proof. destruct w; simpl; [lia|trivial]. Qed.

(** What a match of the class pattern looks like. *)
Lemma class_match_inv a g rest :
  re_match class_pattern a = Some (g, rest) ->
  exists p n v,
    wordb p = true /\ wordb n = true /\ wordb v = true
    /\ g = [p; n; "?"%char :: v] /\ a = class_form p n v rest.
Proof.
  intros H. apply re_match_sound in H as (w & -> & D).
  unfold class_pattern in D. invert_denotes.
  match goal with
  | H1 : forallb _ ?p = true, H2 : forallb _ ?n = true,
    H3 : forallb _ ?v = true |- _ => exists p, n, v
  end.
  repeat split; try (apply wordb_intro; assumption).
  unfold class_form. repeat (rewrite <- app_assoc; simpl). reflexivity.
Qed.

(** What a match of the property pattern looks like. *)
Lemma property_match_inv a g rest :
  re_match property_pattern a = Some (g, rest) ->
  exists p n v ws o,
    wordb p = true /\ wordb n = true /\ wordb v = true
    /\ blankb ws = true /\ forallb (in_cset AnyChar) o = true
    /\ 1 <= length o
    /\ g = [p; n; "?"%char :: v; o]
    /\ a = property_form p n v ws o rest.
Proof.
  intros H. apply re_match_sound in H as (w & -> & D).
  unfold property_pattern in D. invert_denotes.
  match goal with
  | H1 : forallb _ ?p = true, H2 : forallb _ ?n = true,
    H3 : forallb _ ?v = true, H4 : forallb _ ?ws = true,
    H5 : forallb _ ?o = true |- _ => exists p, n, v, ws, o
  end.
  repeat split; trivial; try (apply wordb_intro; assumption).
  unfold property_form. repeat (rewrite <- app_assoc; simpl). reflexivity.
Qed.

(** [parse_atom] either classifies the atom or raises the error that
    names it. *)
Lemma parse_atom_cases a :
  (exists p n v,
      wordb p = true /\ wordb n = true /\ wordb v = true
      /\ parse_atom a = Ok (ClassAtom p n ("?"%char :: v)))
  \/ (exists p n v o,
         wordb p = true /\ wordb n = true /\ wordb v = true
         /\ forallb (in_cset AnyChar) o = true
         /\ parse_atom a = Ok (PropertyAtom p n ("?"%char :: v) (strip o)))
  \/ parse_atom a = Raise (UnparsableAtomError a).
Proof.
  unfold parse_atom.
  destruct (re_match class_pattern a) as [[g rest]|] eqn:Hc.
  - left. apply class_match_inv in Hc as (p & n & v & Hp & Hn & Hv & -> & _).
    now exists p, n, v.
  - destruct (re_match property_pattern a) as [[g rest]|] eqn:Hp.
    + right; left.
      apply property_match_inv in Hp
        as (p & n & v & ws & o & Hp & Hn & Hv & _ & Ho & _ & -> & _).
      now exists p, n, v, o.
    + now right; right.
Qed.

(** ** Facts about [strip] and [split] *)

Lemma lstrip_blank v x : blankb v = true -> lstrip (v ++ x) = lstrip x.
Proof.
  induction v as [|c v IH]; simpl; intros H; [reflexivity|].
  apply andb_prop in H as [Hc Hv]. rewrite Hc. auto.
Qed.

Lemma lstrip_split s : exists v, blankb v = true /\ s = v ++ lstrip s.
Proof.
  induction s as [|c s (v & Hv & E)]; simpl.
  - now exists [].
  - destruct (isspace c) eqn:Hc.
    + exists (c :: v). simpl. rewrite Hc, Hv. split; [reflexivity|].
      now rewrite <- E.
    + now exists [].
Qed.

Lemma blankb_rev u : blankb (rev u) = blankb u.
Proof.
  unfold blankb. induction u as [|c u IH]; simpl; [reflexivity|].
  rewrite forallb_app, IH. simpl. rewrite andb_true_r. apply andb_comm.
Qed.


Lemma rstrip_blank x u : blankb u = true -> rstrip (x ++ u) = rstrip x.
Proof.
  intros H. unfold rstrip. rewrite rev_app_distr, lstrip_blank; trivial.
  now rewrite blankb_rev.
Qed.

Lemma rstrip_split s : exists u, blankb u = true /\ s = rstrip s ++ u.
Proof.
  destruct (lstrip_split (rev s)) as (v & Hv & E).
  exists (rev v). rewrite blankb_rev. split; [trivial|].
  unfold rstrip. rewrite <- rev_app_distr, <- E. symmetry. apply rev_involutive.
Qed.

Lemma strip_blank_l v x : blankb v = true -> strip (v ++ x) = strip x.
Proof. intros H. unfold strip. now rewrite lstrip_blank. Qed.

Lemma strip_blank_r x u : blankb u = true -> strip (x ++ u) = strip x.
Proof.
  intros H. unfold strip. induction x as [|c x IH]; simpl.
  - rewrite <- (app_nil_r u), lstrip_blank; trivial.
  - destruct (isspace c); [exact IH|].
    change (c :: x ++ u) with ((c :: x) ++ u). now apply rstrip_blank.
Qed.

Lemma strip_blank u : blankb u = true -> strip u = [].
Proof. intros H. now rewrite <- (app_nil_l u), strip_blank_r. Qed.

Lemma strip_split s :
  exists v u, blankb v = true /\ blankb u = true /\ s = v ++ strip s ++ u.
Proof.
  destruct (lstrip_split s) as (v & Hv & E).
  destruct (rstrip_split (lstrip s)) as (u & Hu & E').
  exists v, u. unfold strip. now rewrite <- E', <- E.
Qed.

Lemma caret_not_blank c : isspace c = true -> Ascii.eqb c "^" = false.
Proof.
  intros H. destruct (Ascii.eqb_spec c "^") as [->|]; [discriminate|trivial].
Qed.

(** *** Splitting on the caret *)

Lemma split_caret_cons c t cur :
  split_from (lit "^") (c :: t) 0 cur =
  if Ascii.eqb c "^" then rev cur :: split_from (lit "^") t 0 []
  else split_from (lit "^") t 0 (c :: cur).
Proof. simpl. now rewrite andb_true_r. Qed.

Lemma split_caret_blank u s cur :
  blankb u = true ->
  split_from (lit "^") (u ++ s) 0 cur = split_from (lit "^") s 0 (rev u ++ cur).
Proof.
  revert cur. induction u as [|c u IH]; intros cur H; [reflexivity|].
  simpl in H. apply andb_prop in H as [Hc Hu].
  change ((c :: u) ++ s) with (c :: u ++ s).
  rewrite split_caret_cons, caret_not_blank, IH; trivial.
  simpl. now rewrite <- app_assoc.
Qed.

Lemma split_caret_all_blank u cur :
  blankb u = true -> split_from (lit "^") u 0 cur = [rev cur ++ u].
Proof.
  intros H. rewrite <- (app_nil_r u) at 1. rewrite split_caret_blank; trivial.
  simpl. now rewrite rev_app_distr, rev_involutive.
Qed.

(** Blanks around a piece do not show once the pieces are stripped. *)
Lemma split_caret_padding u :
  blankb u = true ->
  forall m cur cur' v,
    blankb v = true -> rev cur' = v ++ rev cur ->
    map strip (split_from (lit "^") (m ++ u) 0 cur')
    = map strip (split_from (lit "^") m 0 cur).
Proof.
  intros Hu. induction m as [|c m IH]; intros cur cur' v Hv E.
  - rewrite <- (app_nil_r ([] ++ u)), split_caret_blank; trivial.
    simpl. rewrite rev_app_distr, rev_involutive, E, <- app_assoc.
    now rewrite strip_blank_l, strip_blank_r.
  - change ((c :: m) ++ u) with (c :: m ++ u).
    rewrite !split_caret_cons. destruct (Ascii.eqb c "^").
    + simpl. rewrite E, strip_blank_l; trivial. f_equal.
      now apply (IH [] [] []).
    + apply (IH _ _ v); trivial. simpl. now rewrite E, app_assoc.
Qed.

Lemma split_caret_strip a :
  map strip (split (strip a) (lit "^")) = map strip (split a (lit "^")).
Proof.
  destruct (strip_split a) as (v & u & Hv & Hu & E).
  unfold split. rewrite E at 2.
  rewrite split_caret_blank; trivial. symmetry.
  apply split_caret_padding with (v := v); trivial.
  simpl. now rewrite !app_nil_r, rev_involutive.
Qed.

(** *** The caret pattern *)

Lemma greedy_space (R : Type) (k : text -> option R) :
  (forall x t, isspace x = true -> k (x :: t) = None) ->
  forall s, greedy isspace 0 s k = k (lstrip s).
Proof.
  intros Hk. induction s as [|c s IH]; [reflexivity|].
  rewrite greedy_cons. simpl. destruct (isspace c) eqn:Hc; [|reflexivity].
  rewrite IH. destruct (k (lstrip s)); [reflexivity|]. now apply Hk.
Qed.

Lemma greedy_space_total (R : Type) (f : text -> R) s :
  greedy isspace 0 s (fun s' => Some (f s')) = Some (f (lstrip s)).
Proof.
  induction s as [|c s IH]; [reflexivity|].
  rewrite greedy_cons. simpl. destruct (isspace c); [|reflexivity].
  now rewrite IH.
Qed.

Lemma caret_match s :
  re_match caret_pattern s =
  match lstrip s with
  | c :: t => if Ascii.eqb c "^" then Some ([], lstrip t) else None
  | [] => None
  end.
Proof.
  unfold re_match, caret_pattern, Star. cbn [run in_cset].
  rewrite greedy_space.
  - destruct (lstrip s) as [|c t]; [reflexivity|].
    destruct (Ascii.eqb c "^"); [|reflexivity].
    apply (greedy_space_total _ (fun s' => ([], s'))).
  - intros x t Hx. now rewrite caret_not_blank.
Qed.

(** A match of the caret pattern is never empty, which is what
    [re_split_from] relies on. *)
Lemma caret_match_consumes s g rest :
  re_match caret_pattern s = Some (g, rest) -> length rest < length s.
Proof.
  rewrite caret_match. destruct (lstrip_split s) as (u & _ & Es).
  destruct (lstrip s) as [|c t]; [discriminate|].
  destruct (Ascii.eqb c "^"); [|discriminate].
  intros H. injection H as _ <-.
  destruct (lstrip_split t) as (v & _ & Et).
  rewrite Es, length_app. simpl. rewrite Et at 2. rewrite length_app. lia.
Qed.

Lemma re_split_skip r :
  forall s n cur,
    n <= length s ->
    re_split_from r s n cur = re_split_from r (skipn n s) 0 cur.
Proof.
  induction s as [|c s IH]; intros n cur Hn.
  - simpl in Hn. now replace n with 0 by lia.
  - destruct n; [reflexivity|]. simpl in Hn. simpl. apply IH. lia.
Qed.

Lemma re_split_cons r c t cur :
  re_split_from r (c :: t) 0 cur =
  match re_match r (c :: t) with
  | Some (_, rest) =>
      match length (c :: t) - length rest with
      | S n => rev cur :: re_split_from r t n []
      | O => re_split_from r t 0 (c :: cur)
      end
  | None => re_split_from r t 0 (c :: cur)
  end.
Proof. reflexivity. Qed.

(** Where the caret pattern matches, the split goes on after the blanks
    that follow the caret. *)
Lemma re_split_caret_hit u t cur :
  blankb u = true ->
  u ++ "^"%char :: t <> [] ->
  re_split_from caret_pattern (u ++ "^"%char :: t) 0 cur
  = rev cur :: re_split_from caret_pattern (lstrip t) 0 [].
Proof.
  intros Hu Hne.
  destruct (lstrip_split t) as (v & Hv & Et).
  remember (u ++ "^"%char :: t) as s eqn:Es.
  destruct s as [|c s]; [congruence|].
  rewrite re_split_cons, caret_match, Es, lstrip_blank; trivial.
  change (lstrip ("^"%char :: t)) with ("^"%char :: t).
  cbv beta iota. rewrite Ascii.eqb_refl.
  assert (Elen : length (u ++ "^"%char :: t) - length (lstrip t)
                 = S (length u + length v)).
  { rewrite Et at 1. rewrite length_app. simpl. rewrite length_app. lia. }
  rewrite Elen. f_equal.
  rewrite re_split_skip.
  - f_equal.
    assert (E2 : skipn (S (length u + length v)) (c :: s) = lstrip t).
    { rewrite Es. rewrite Et at 1.
      replace (u ++ "^"%char :: v ++ lstrip t)
        with ((u ++ "^"%char :: v) ++ lstrip t)
        by (now rewrite <- app_assoc).
      replace (S (length u + length v)) with (length (u ++ "^"%char :: v))
        by (rewrite length_app; simpl; lia).
      now rewrite skipn_app, skipn_all, Nat.sub_diag. }
    exact E2.
  - assert (El : length (c :: s) = length u + S (length t))
      by (rewrite Es, length_app; reflexivity).
    simpl in El. rewrite Et in El at 1. rewrite length_app in El. lia.
Qed.

Lemma re_split_caret_miss c t cur :
  (forall t', lstrip (c :: t) <> "^"%char :: t') ->
  re_split_from caret_pattern (c :: t) 0 cur
  = re_split_from caret_pattern t 0 (c :: cur).
Proof.
  intros H. rewrite re_split_cons, caret_match.
  destruct (lstrip (c :: t)) as [|x t'] eqn:E; [reflexivity|].
  destruct (Ascii.eqb_spec x "^") as [->|]; [|reflexivity].
  now destruct (H t').
Qed.

(** [re.split] on the caret pattern and [str.split] on the caret give the
    same atoms once each is stripped. *)
Lemma re_split_caret_pieces :
  forall n s,
    length s <= n ->
    forall cur cur' v,
      blankb v = true -> rev cur' = v ++ rev cur ->
      map strip (re_split_from caret_pattern s 0 cur)
      = map strip (split_from (lit "^") s 0 cur').
Proof.
  induction n as [|n IH]; intros s Hlen cur cur' v Hv E.
  - destruct s; [|simpl in Hlen; lia].
    simpl. now rewrite E, strip_blank_l.
  - destruct s as [|c t].
    + simpl. now rewrite E, strip_blank_l.
    + destruct (lstrip_split (c :: t)) as (u & Hu & Es).
      destruct (lstrip (c :: t)) as [|x t'] eqn:El.
      * rewrite re_split_caret_miss by (intros t'; rewrite El; discriminate).
        rewrite split_caret_cons.
        assert (Hc : Ascii.eqb c "^" = false).
        { destruct (Ascii.eqb_spec c "^") as [->|]; [discriminate|trivial]. }
        rewrite Hc. apply (IH t) with (v := v); trivial.
        -- simpl in Hlen; lia.
        -- simpl. now rewrite E, app_assoc.
      * destruct (Ascii.eqb_spec x "^") as [->|Hx].
        -- rewrite Es, re_split_caret_hit; trivial;
             [|destruct u; discriminate].
           rewrite split_caret_blank, split_caret_cons; trivial.
           simpl. rewrite rev_app_distr, rev_involutive, E, <- app_assoc.
           rewrite strip_blank_l, strip_blank_r; trivial. f_equal.
           destruct (lstrip_split t') as (v' & Hv' & Et').
           rewrite Et' at 2. rewrite split_caret_blank; trivial.
           apply (IH (lstrip t')) with (v := v').
           ++ assert (length (c :: t) = length u + S (length t'))
                by (rewrite Es at 1; rewrite length_app; reflexivity).
              assert (length t' = length v' + length (lstrip t'))
                by (rewrite Et' at 1; apply length_app).
              lia.
           ++ exact Hv'.
           ++ simpl. now rewrite !app_nil_r, rev_involutive.
        -- rewrite re_split_caret_miss
             by (intros t''; rewrite El; congruence).
           rewrite split_caret_cons.
           assert (Hc : Ascii.eqb c "^" = false).
           { destruct (Ascii.eqb_spec c "^") as [->|]; [|trivial].
             simpl in El. congruence. }
           rewrite Hc. apply (IH t) with (v := v); trivial.
           ++ simpl in Hlen; lia.
           ++ simpl. now rewrite E, app_assoc.
Qed.

Lemma caret_atoms a :
  map strip (re_split caret_pattern (strip a))
  = map strip (split a (lit "^")).
Proof.
  rewrite <- split_caret_strip. unfold re_split, split.
  now apply (re_split_caret_pieces _ _ (le_n _)) with (v := []).
Qed.

(** *** Splitting on the arrow *)

Lemma split_arrow_cons c t cur :
  split_from (lit "->") (c :: t) 0 cur =
  if startswith (c :: t) (lit "->")
  then rev cur :: split_from (lit "->") t 1 []
  else split_from (lit "->") t 0 (c :: cur).
Proof. reflexivity. Qed.

Lemma startswith_arrow s :
  startswith s (lit "->") = true ->
  exists t, s = "-"%char :: ">"%char :: t.
Proof.
  destruct s as [|a [|b t]]; simpl; try discriminate.
  - now rewrite andb_false_r.
  - rewrite andb_true_r. intros H. apply andb_prop in H as [Ha Hb].
    apply Ascii.eqb_eq in Ha, Hb. subst. now exists t.
Qed.

Lemma split_from_length sep :
  forall s skip cur cur',
    length (split_from sep s skip cur) = length (split_from sep s skip cur').
Proof.
  induction s as [|c s IH]; intros skip cur cur'; [reflexivity|].
  simpl. destruct skip; [|apply IH].
  destruct (startswith (c :: s) sep); simpl; auto.
Qed.

(** [split] returns one piece more than there are arrows. *)
Lemma split_arrow_length :
  forall n s cur,
    length s <= n ->
    length (split_from (lit "->") s 0 cur) = S (count_sub (lit "->") s).
Proof.
  induction n as [|n IH]; intros s cur Hlen.
  - destruct s; [reflexivity|simpl in Hlen; lia].
  - destruct s as [|c t]; [reflexivity|].
    rewrite split_arrow_cons. cbn [count_sub].
    destruct (startswith (c :: t) (lit "->")) eqn:E.
    + apply startswith_arrow in E as (t' & E). injection E as -> ->.
      change (split_from (lit "->") (">"%char :: t') 1 [])
        with (split_from (lit "->") t' 0 []).
      change (count_sub (lit "->") (">"%char :: t'))
        with (count_sub (lit "->") t').
      simpl length. rewrite (IH t'); [reflexivity|]. simpl in Hlen. lia.
    + rewrite (IH t); [reflexivity|]. simpl in Hlen. lia.
Qed.

Lemma split_arrow_none :
  forall s cur,
    count_sub (lit "->") s = 0 ->
    split_from (lit "->") s 0 cur = [rev cur ++ s].
Proof.
  induction s as [|c t IH]; intros cur H.
  - simpl. now rewrite app_nil_r.
  - rewrite split_arrow_cons. cbn [count_sub] in H.
    destruct (startswith (c :: t) (lit "->")); [discriminate|].
    rewrite IH by exact H. simpl. now rewrite <- app_assoc.
Qed.

(** With one arrow the two pieces are the text before and after it. *)
Lemma split_arrow_one :
  forall s cur,
    count_sub (lit "->") s = 1 ->
    exists a c,
      s = a ++ lit "->" ++ c
      /\ split_from (lit "->") s 0 cur = [rev cur ++ a; c].
Proof.
  induction s as [|x t IH]; intros cur H; [discriminate|].
  rewrite split_arrow_cons. cbn [count_sub] in H.
  destruct (startswith (x :: t) (lit "->")) eqn:E.
  - apply startswith_arrow in E as (t' & E). injection E as -> ->.
    change (count_sub (lit "->") (">"%char :: t'))
      with (count_sub (lit "->") t') in H.
    exists [], t'. split; [reflexivity|].
    change (split_from (lit "->") (">"%char :: t') 1 [])
      with (split_from (lit "->") t' 0 []).
    assert (H0 : count_sub (lit "->") t' = 0) by lia.
    rewrite (split_arrow_none _ _ H0). now rewrite app_nil_r.
  - destruct (IH (x :: cur) H) as (a & c & -> & Hs).
    exists (x :: a), c. split; [reflexivity|].
    rewrite Hs. simpl. now rewrite <- app_assoc.
Qed.

Lemma parse_swrl_rule_arity rule :
  length (split rule (lit "->")) <> 2 ->
  parse_swrl_rule rule = Raise MalformedRuleError.
Proof.
  unfold parse_swrl_rule.
  destruct (split rule (lit "->")) as [|a [|b [|c l]]]; simpl; trivial.
  congruence.
Qed.

Lemma parse_swrl_rule_sides rule a c :
  split rule (lit "->") = [a; c] ->
  parse_swrl_rule rule
  = Ok (map strip (split a (lit "^")), map strip (split c (lit "^"))).
Proof.
  unfold parse_swrl_rule. intros ->. now rewrite !caret_atoms.
Qed.

(** ** Facts about [generate_dot] *)

(** The text that a rule converts to, as a function of the rule alone. *)
Lemma generate_dot_raise w self rule out e :
  rule_atoms rule = Raise e ->
  generate_dot w self rule out = (Raise e, reset self, []).
Proof. unfold generate_dot. now intros ->. Qed.

Lemma rule_atoms_malformed rule :
  parse_swrl_rule rule = Raise MalformedRuleError ->
  rule_atoms rule = Raise MalformedRuleError.
Proof. unfold rule_atoms. now intros ->. Qed.

Lemma parse_atoms_cases p l :
  (exists atoms, parse_atoms p l = Ok atoms)
  \/ (exists a, In a l /\ parse_atoms p l = Raise (UnparsableAtomError a)).
Proof.
  induction l as [|a l IH]; [left; now exists []|].
  simpl.
  destruct (parse_atom_cases a)
    as [(q & n & v & _ & _ & _ & ->)
       |[(q & n & v & o & _ & _ & _ & _ & ->)| ->]]; simpl.
  - destruct IH as [(atoms & ->)|(b & Hb & ->)]; simpl.
    + left. eauto.
    + right. eauto.
  - destruct IH as [(atoms & ->)|(b & Hb & ->)]; simpl.
    + left. eauto.
    + right. eauto.
  - right. eauto.
Qed.

Lemma parse_atom_unpacks a : parse_atom a <> Raise unpack_error.
Proof.
  destruct (parse_atom_cases a)
    as [(p & n & v & _ & _ & _ & ->)
       |[(p & n & v & o & _ & _ & _ & _ & ->)| ->]]; discriminate.
Qed.

Lemma parse_atom_empty : parse_atom [] = Raise (UnparsableAtomError []).
Proof. reflexivity. Qed.

Lemma parse_atoms_empty p l :
  In [] l -> exists a, parse_atoms p l = Raise (UnparsableAtomError a).
Proof.
  induction l as [|x l IH]; intros Hin; [destruct Hin|].
  destruct Hin as [->|Hin].
  - exists []. reflexivity.
  - simpl.
    destruct (parse_atom_cases x)
      as [(q & n & v & _ & _ & _ & ->)
         |[(q & n & v & o & _ & _ & _ & _ & ->)| ->]]; simpl; eauto;
      destruct (IH Hin) as (a & ->); simpl; eauto.
Qed.

Lemma same_graph_extract a b x :
  same_graph a b -> same_graph (extract a x) (extract b x).
Proof.
  intros (Hv & Hc & Hp). destruct x as [[q c v|q n sb o] pt];
    unfold same_graph; simpl; rewrite Hv, Hc, Hp; auto.
Qed.

Lemma same_graph_build l :
  forall a b, same_graph a b -> same_graph (build a l) (build b l).
Proof.
  unfold build. induction l as [|x l IH]; intros a b H; [exact H|].
  simpl. apply IH. now apply same_graph_extract.
Qed.

Lemma same_graph_dot a b :
  same_graph a b -> _create_dot_graph a = _create_dot_graph b.
Proof.
  intros (Hv & Hc & Hp).
  unfold _create_dot_graph, dot_lines, class_lines, variable_lines,
    literal_lines, type_edge_lines, property_edge_lines, all_classes,
    literals.
  now rewrite Hv, Hc, Hp.
Qed.

Lemma same_graph_reset self : same_graph (reset self) new_converter.
Proof. repeat split. Qed.

(** [generate_dot] in terms of [dot_text]: the state it is called in
    plays no part in the outcome. *)
Lemma generate_dot_outcome w self rule out :
  outcome (generate_dot w self rule out)
  = match dot_text rule with
    | Ok dot => fst (save w out dot)
    | Raise e => Raise e
    end
  /\ trace (generate_dot w self rule out)
     = match dot_text rule with
       | Ok dot => snd (save w out dot)
       | Raise e => []
       end.
Proof.
  unfold generate_dot, dot_text. destruct (rule_atoms rule) as [atoms|e].
  - simpl bind. cbv beta iota.
    rewrite (same_graph_dot _ _
               (same_graph_build atoms _ _ (same_graph_reset self))).
    now destruct (save w out _).
  - split; reflexivity.
Qed.

Lemma save_none w dot : save w None dot = (Ok dot, []).
Proof. reflexivity. Qed.

Lemma save_cases w out dot :
  (fst (save w out dot) = Ok dot \/ fst (save w out dot) = Raise OSError)
  /\ (forall path data,
         In (Write path data) (snd (save w out dot)) ->
         data = dot /\ out = Some path).
Proof.
  unfold save. destruct out as [[|c p]|]; simpl.
  - split; [now left|]. intros ? ? [].
  - destruct (open_ok w (c :: p)); [destruct (write_ok w (c :: p) dot)|];
      simpl; (split; [auto|]); intros path data H;
      repeat (destruct H as [H|H]; try discriminate);
      try contradiction.
    injection H as <- <-. auto.
  - split; [now left|]. intros ? ? [].
Qed.

(** ** The order of strings and [sorted] *)

Lemma code_inj x y : code x = code y -> x = y.
Proof.
  unfold code. intros H.
  rewrite <- (ascii_N_embedding x), <- (ascii_N_embedding y).
  now rewrite H.
Qed.

Lemma text_leb_refl a : text_leb a a = true.
Proof.
  induction a as [|x a IH]; [reflexivity|]. simpl.
  now rewrite N.ltb_irrefl, N.eqb_refl.
Qed.

Lemma text_leb_total a : forall b, text_leb a b = true \/ text_leb b a = true.
Proof.
  induction a as [|x a IH]; intros [|y b]; simpl; auto.
  destruct (N.ltb_spec (code x) (code y)); [now left|].
  destruct (N.ltb_spec (code y) (code x)); [now right|].
  assert (E : code x = code y) by lia.
  rewrite E, N.eqb_refl. apply IH.
Qed.

Lemma text_leb_antisym a :
  forall b, text_leb a b = true -> text_leb b a = true -> a = b.
Proof.
  induction a as [|x a IH]; intros [|y b]; simpl; try discriminate; trivial.
  destruct (N.ltb_spec (code x) (code y)) as [Hxy|Hxy];
    destruct (N.ltb_spec (code y) (code x)) as [Hyx|Hyx]; try lia.
  - replace (code y =? code x)%N with false
      by (symmetry; apply N.eqb_neq; lia).
    discriminate.
  - replace (code x =? code y)%N with false
      by (symmetry; apply N.eqb_neq; lia).
    discriminate.
  - assert (E : code x = code y) by lia.
    rewrite E, N.eqb_refl. intros H1 H2.
    f_equal; [now apply code_inj|now apply IH].
Qed.

Lemma text_leb_trans a :
  forall b c, text_leb a b = true -> text_leb b c = true ->
              text_leb a c = true.
Proof.
  induction a as [|x a IH]; intros [|y b] [|z c]; simpl;
    try discriminate; trivial.
  destruct (N.ltb_spec (code x) (code y)) as [Hxy|Hxy];
    destruct (N.ltb_spec (code y) (code z)) as [Hyz|Hyz];
    destruct (N.ltb_spec (code x) (code z)) as [Hxz|Hxz];
    trivial; try lia.
  - destruct (N.eqb_spec (code y) (code z)); [lia|discriminate].
  - destruct (N.eqb_spec (code x) (code y)); [lia|discriminate].
  - destruct (N.eqb_spec (code x) (code y)) as [Exy|]; [|discriminate].
    destruct (N.eqb_spec (code y) (code z)) as [Eyz|]; [|discriminate].
    rewrite Exy, Eyz, N.eqb_refl. apply IH.
Qed.

Lemma text_lt_trans a b c : text_lt a b -> text_lt b c -> text_lt a c.
Proof.
  intros [Hab Nab] [Hbc Nbc]. split; [now apply text_leb_trans with b|].
  intros ->. apply Nab. now apply text_leb_antisym.
Qed.

Lemma text_lt_irrefl a : ~ text_lt a a.
Proof. now intros [_ H]. Qed.

Lemma insert_sorted_perm x l : Permutation (insert_sorted x l) (x :: l).
Proof.
  induction l as [|y l IH]; simpl; [apply Permutation_refl|].
  destruct (text_leb x y); [apply Permutation_refl|].
  apply perm_trans with (y :: x :: l); [now apply perm_skip|apply perm_swap].
Qed.

Lemma sorted_perm l : Permutation (sorted l) l.
Proof.
  induction l as [|x l IH]; simpl; [apply perm_nil|].
  apply perm_trans with (x :: sorted l);
    [apply insert_sorted_perm|now apply perm_skip].
Qed.

Lemma sorted_in l x : In x (sorted l) <-> In x l.
Proof.
  split; apply Permutation_in;
    [apply sorted_perm|apply Permutation_sym, sorted_perm].
Qed.

Lemma insert_sorted_strict x l :
  ~ In x l -> StronglySorted text_lt l ->
  StronglySorted text_lt (insert_sorted x l).
Proof.
  intros Hx Hs. induction Hs as [|y l Hs IH Hy]; simpl.
  - repeat constructor.
  - destruct (text_leb x y) eqn:E.
    + assert (Hxy : text_lt x y).
      { split; [exact E|]. intros ->. apply Hx. now left. }
      constructor; [now constructor|].
      constructor; [exact Hxy|].
      eapply Forall_impl; [|exact Hy].
      intros z Hz. now apply text_lt_trans with y.
    + assert (Hyx : text_lt y x).
      { split.
        - destruct (text_leb_total x y); congruence.
        - intros ->. apply Hx. now left. }
      constructor; [apply IH; intros H; apply Hx; now right|].
      apply Forall_forall. intros z Hz.
      apply (Permutation_in _ (insert_sorted_perm x l)) in Hz.
      destruct Hz as [<-|Hz]; [exact Hyx|].
      rewrite Forall_forall in Hy. now apply Hy.
Qed.

(** On a set the result of [sorted] is strictly increasing. *)
Lemma sorted_strict l : NoDup l -> StronglySorted text_lt (sorted l).
Proof.
  induction 1 as [|x l Hx Hl IH]; simpl; [constructor|].
  apply insert_sorted_strict; [|exact IH].
  now rewrite sorted_in.
Qed.

(** A strictly increasing list is determined by its elements: the
    order in which a set is listed does not show in [sorted]. *)
Lemma strict_unique l1 :
  forall l2,
    StronglySorted text_lt l1 -> StronglySorted text_lt l2 ->
    (forall x, In x l1 <-> In x l2) -> l1 = l2.
Proof.
  induction l1 as [|a l1 IH]; intros [|b l2] H1 H2 Hin.
  - reflexivity.
  - destruct (proj2 (Hin b)); now left.
  - destruct (proj1 (Hin a)); now left.
  - inversion H1 as [|? ? S1 F1]; inversion H2 as [|? ? S2 F2]; subst.
    rewrite Forall_forall in F1, F2.
    assert (E : a = b).
    { destruct (proj1 (Hin a) (or_introl eq_refl)) as [E|Ha]; [now symmetry|].
      destruct (proj2 (Hin b) (or_introl eq_refl)) as [E|Hb]; [exact E|].
      destruct (text_lt_irrefl a).
      apply text_lt_trans with b; [now apply F1|now apply F2]. }
    subst b. f_equal. apply IH; trivial.
    intros x. split; intros Hx.
    + destruct (proj1 (Hin x) (or_intror Hx)) as [<-|]; [|trivial].
      destruct (text_lt_irrefl a). now apply F1.
    + destruct (proj2 (Hin x) (or_intror Hx)) as [<-|]; [|trivial].
      destruct (text_lt_irrefl a). now apply F2.
Qed.

Lemma strict_nodup l : StronglySorted text_lt l -> NoDup l.
Proof.
  induction 1 as [|x l Hs IH Hx]; constructor; [|exact IH].
  intros Hin. rewrite Forall_forall in Hx.
  now destruct (text_lt_irrefl x); apply Hx.
Qed.

(** ** The graph that [build] collects *)

Lemma set_add_in x s y : In y (set_add x s) <-> y = x \/ In y s.
Proof.
  unfold set_add. destruct (in_dec text_eq_dec x s) as [Hx|Hx].
  - split; [now right|]. now intros [->|].
  - rewrite in_app_iff. simpl. split.
    + intros [H|[H|[]]]; auto.
    + intros [->|H]; auto.
Qed.

Lemma set_add_nodup x s : NoDup s -> NoDup (set_add x s).
Proof.
  intros Hs. unfold set_add. destruct (in_dec text_eq_dec x s) as [Hx|Hx].
  - exact Hs.
  - apply NoDup_rev in Hs. rewrite <- (rev_involutive (s ++ [x])).
    apply NoDup_rev. rewrite rev_app_distr. simpl. constructor; [|exact Hs].
    now rewrite <- in_rev.
Qed.

(** Adding the elements of a list to a set, one after the other. *)
Lemma add_all_in (A : Type) (f : A -> text) l :
  forall s y,
    In y (fold_left (fun acc a => set_add (f a) acc) l s)
    <-> In y (map f l) \/ In y s.
Proof.
  induction l as [|a l IH]; intros s y; simpl; [tauto|].
  rewrite IH, set_add_in. intuition congruence.
Qed.

Lemma add_all_nodup (A : Type) (f : A -> text) l :
  forall s, NoDup s -> NoDup (fold_left (fun acc a => set_add (f a) acc) l s).
Proof.
  induction l as [|a l IH]; intros s Hs; simpl; [exact Hs|].
  apply IH. now apply set_add_nodup.
Qed.

Arguments startswith : simpl never.

Lemma text_eqb_spec a b : reflect (a = b) (text_eqb a b).
Proof.
  unfold text_eqb. destruct (text_eq_dec a b); now constructor.
Qed.

Lemma build_cons st a l : build st (a :: l) = build (extract st a) l.
Proof. reflexivity. Qed.

Lemma build_variables l :
  forall st,
    variables (build st l)
    = fold_left (fun acc x => set_add x acc) (mentioned_variables l)
                (variables st).
Proof.
  induction l as [|[a pt] l IH]; intros st; [reflexivity|].
  rewrite build_cons, IH. unfold mentioned_variables. cbn [flat_map].
  rewrite fold_left_app. f_equal.
  destruct a as [q c v|q n sb o]; simpl; [reflexivity|].
  now destruct (startswith o _).
Qed.

Lemma build_classes l :
  forall st,
    classes (build st l)
    = fold_left (fun d va => dict_append d (fst va) (snd va)) (assertions l)
                (classes st).
Proof.
  induction l as [|[a pt] l IH]; intros st; [reflexivity|].
  rewrite build_cons, IH. unfold assertions. cbn [flat_map].
  rewrite fold_left_app. f_equal. now destruct a.
Qed.

Lemma build_properties l :
  forall st, properties (build st l) = properties st ++ relations l.
Proof.
  induction l as [|[a pt] l IH]; intros st.
  - simpl. now rewrite app_nil_r.
  - rewrite build_cons, IH. unfold relations. cbn [flat_map].
    destruct a; simpl; [reflexivity|]. now rewrite <- app_assoc.
Qed.

Lemma lookup_append d key x k :
  lookup (dict_append d key x) k
  = if text_eqb key k then lookup d k ++ [x] else lookup d k.
Proof.
  unfold lookup. induction d as [|[k0 v] d IH]; simpl.
  - now destruct (text_eqb key k).
  - destruct (text_eqb_spec k0 key) as [->|Hk]; simpl.
    + now destruct (text_eqb key k).
    + destruct (text_eqb_spec k0 k) as [->|Hk0]; [|exact IH].
      destruct (text_eqb_spec key k) as [->|]; [congruence|reflexivity].
Qed.

Lemma lookup_fold A :
  forall d k,
    lookup (fold_left (fun d va => dict_append d (fst va) (snd va)) A d) k
    = lookup d k ++ map snd (filter (fun va => text_eqb (fst va) k) A).
Proof.
  induction A as [|[v ci] A IH]; intros d k; simpl.
  - now rewrite app_nil_r.
  - rewrite IH, lookup_append.
    destruct (text_eqb v k); simpl; [now rewrite <- app_assoc|reflexivity].
Qed.

Lemma dict_values_append d key x ci :
  In ci (dict_values (dict_append d key x)) <-> ci = x \/ In ci (dict_values d).
Proof.
  unfold dict_values. induction d as [|[k0 v] d IH]; simpl.
  - intuition.
  - destruct (text_eqb k0 key); simpl; rewrite !in_app_iff.
    + simpl. intuition.
    + rewrite IH. intuition.
Qed.

Lemma dict_values_fold A :
  forall d ci,
    In ci (dict_values
             (fold_left (fun d va => dict_append d (fst va) (snd va)) A d))
    <-> In ci (map snd A) \/ In ci (dict_values d).
Proof.
  induction A as [|[v x] A IH]; intros d ci; simpl; [tauto|].
  rewrite IH, dict_values_append. intuition.
Qed.

Lemma all_classes_values self :
  all_classes self
  = fold_left (fun acc ci => set_add (cls_class ci) acc)
              (dict_values (classes self)) [].
Proof.
  unfold all_classes, dict_values. generalize (@nil text).
  induction (classes self) as [|[k v] d IH]; intros acc; [reflexivity|].
  simpl. now rewrite fold_left_app, IH.
Qed.

Lemma literals_values self :
  literals self
  = fold_left (fun acc x => set_add x acc)
              (flat_map literal_of (properties self)) [].
Proof.
  unfold literals. generalize (@nil text).
  induction (properties self) as [|pr l IH]; intros acc; [reflexivity|].
  simpl. rewrite fold_left_app, IH. f_equal. unfold literal_of.
  now destruct (startswith (prop_object pr) _).
Qed.

Lemma relations_literals l :
  flat_map literal_of (relations l) = mentioned_literals l.
Proof.
  unfold relations, mentioned_literals.
  induction l as [|[a pt] l IH]; [reflexivity|].
  simpl. rewrite flat_map_app, IH. f_equal.
  destruct a; simpl; [reflexivity|]. unfold literal_of. simpl.
  now rewrite app_nil_r.
Qed.

(** The graph that a list of atoms builds from nothing. *)
Lemma built_variables l x :
  In x (variables (build new_converter l)) <-> In x (mentioned_variables l).
Proof.
  rewrite build_variables.
  rewrite (add_all_in text (fun x => x)), map_id. simpl. tauto.
Qed.

Lemma built_variables_nodup l : NoDup (variables (build new_converter l)).
Proof.
  rewrite build_variables.
  apply (add_all_nodup text (fun x => x)). constructor.
Qed.

Lemma built_classes l c :
  In c (all_classes (build new_converter l)) <-> In c (mentioned_classes l).
Proof.
  rewrite all_classes_values, add_all_in, build_classes.
  unfold mentioned_classes. rewrite !in_map_iff. simpl. split.
  - intros [(ci & E & H)|[]].
    apply dict_values_fold in H as [H|[]]. apply in_map_iff in H.
    destruct H as (va & <- & H). exists va. auto.
  - intros (va & E & H). left. exists (snd va). split; [exact E|].
    apply dict_values_fold. left. now apply in_map.
Qed.

Lemma built_classes_nodup l : NoDup (all_classes (build new_converter l)).
Proof. rewrite all_classes_values. apply add_all_nodup. constructor. Qed.

Lemma built_literals l x :
  In x (literals (build new_converter l)) <-> In x (mentioned_literals l).
Proof.
  rewrite literals_values, (add_all_in text (fun x => x)), map_id.
  rewrite build_properties. simpl. rewrite relations_literals. tauto.
Qed.

Lemma built_literals_nodup l : NoDup (literals (build new_converter l)).
Proof.
  rewrite literals_values. apply (add_all_nodup text (fun x => x)).
  constructor.
Qed.

Lemma built_type_edges l :
  type_edge_lines (build new_converter l)
  = flat_map (fun var => map (type_edge var) (assertions_about l var))
             (sorted (variables (build new_converter l))).
Proof.
  unfold type_edge_lines. apply flat_map_ext. intros var.
  pose proof (lookup_fold (assertions l) (classes new_converter) var) as H.
  rewrite <- build_classes in H. unfold assertions_about.
  change (lookup (classes new_converter) var) with (@nil cls_info) in H.
  simpl in H. rewrite <- H. unfold lookup.
  now destruct (dict_get _ var).
Qed.

Lemma built_property_edges l :
  property_edge_lines (build new_converter l)
  = map property_edge (relations l).
Proof. unfold property_edge_lines. now rewrite build_properties. Qed.

Lemma parse_atoms_inv p l :
  forall atoms,
    parse_atoms p l = Ok atoms ->
    Forall2 (fun s a => parse_atom s = Ok (fst a) /\ snd a = p) l atoms.
Proof.
  induction l as [|s l IH]; intros atoms H; simpl in H.
  - injection H as <-. constructor.
  - destruct (parse_atom s) as [a|e] eqn:Ea; [|discriminate]. simpl in H.
    destruct (parse_atoms p l) as [rest|e]; [|discriminate]. simpl in H.
    injection H as <-. constructor; [now split|now apply IH].
Qed.

Lemma rule_atoms_inv rule atoms :
  rule_atoms rule = Ok atoms ->
  exists sa sc ante cons,
    parse_swrl_rule rule = Ok (sa, sc)
    /\ Forall2 (fun s a => parse_atom s = Ok (fst a) /\ snd a = antecedent)
               sa ante
    /\ Forall2 (fun s a => parse_atom s = Ok (fst a) /\ snd a = consequent)
               sc cons
    /\ atoms = ante ++ cons.
Proof.
  unfold rule_atoms. intros H.
  destruct (parse_swrl_rule rule) as [[sa sc]|e]; [|discriminate].
  simpl in H.
  destruct (parse_atoms antecedent sa) as [ante|e] eqn:Ea; [|discriminate].
  destruct (parse_atoms consequent sc) as [cons|e] eqn:Ec; [|discriminate].
  simpl in H. injection H as <-.
  exists sa, sc, ante, cons. repeat split; trivial; now apply parse_atoms_inv.
Qed.

Lemma dot_text_built rule atoms :
  rule_atoms rule = Ok atoms ->
  dot_text rule = Ok (join [nl] (dot_lines (build new_converter atoms))).
Proof. unfold dot_text. now intros ->. Qed.

Lemma mentioned_perm l l' :
  Permutation l l' ->
  (forall x, In x (mentioned_classes l) <-> In x (mentioned_classes l'))
  /\ (forall x, In x (mentioned_variables l) <-> In x (mentioned_variables l'))
  /\ (forall x, In x (mentioned_literals l) <-> In x (mentioned_literals l')).
Proof.
  intros P.
  assert (Hf : forall (B : Type) (f : atom * part -> list B) x,
             In x (flat_map f l) <-> In x (flat_map f l')).
  { intros B f x. rewrite !in_flat_map. split; intros (a & Ha & Hx);
      exists a; split; trivial.
    - now apply (Permutation_in _ P).
    - now apply (Permutation_in _ (Permutation_sym P)). }
  repeat split; try apply Hf; unfold mentioned_classes, assertions;
    rewrite !in_map_iff; intros (va & E & H); exists va; split; trivial;
    now apply Hf.
Qed.

(** ** Telling the lines of a DOT text apart *)

Ltac reassoc :=
  repeat first [rewrite <- app_assoc | progress simpl]; reflexivity.

Lemma startswith_nil s : startswith s [] = true.
Proof. reflexivity. Qed.

Lemma startswith_cons c s x p :
  startswith (c :: s) (x :: p) = Ascii.eqb c x && startswith s p.
Proof. reflexivity. Qed.

Lemma startswith_app p :
  forall a b, length p <= length a -> startswith (a ++ b) p = startswith a p.
Proof.
  induction p as [|x p IH]; intros a b H; [reflexivity|].
  destruct a as [|c a]; [simpl in H; lia|].
  change ((c :: a) ++ b) with (c :: a ++ b).
  rewrite !startswith_cons, IH; [reflexivity|]. simpl in H. lia.
Qed.

Lemma ends_with_app x t suffix :
  length suffix <= length t -> ends_with (x ++ t) suffix = ends_with t suffix.
Proof.
  intros H. unfold ends_with. rewrite rev_app_distr.
  apply startswith_app. now rewrite !length_rev.
Qed.

(** A line with a long enough fixed ending has the kind of that ending. *)
Lemma kind_app x t : 13 <= length t -> kind (x ++ t) = kind t.
Proof.
  intros H. unfold kind.
  rewrite !ends_with_app; trivial;
    (eapply Nat.le_trans; [|exact H]); vm_compute; lia.
Qed.

Lemma kind_class_node c : kind (class_node c) = KClass.
Proof.
  unfold class_node, quoted.
  replace (lit "    " ++ (dq :: c ++ [dq])
           ++ lit " [shape=ellipse, fillcolor=lightgreen, style=filled];")
    with ((lit "    " ++ dq :: c)
          ++ dq
          :: lit " [shape=ellipse, fillcolor=lightgreen, style=filled];")
    by reassoc.
  rewrite kind_app; [reflexivity|vm_compute; lia].
Qed.

Lemma kind_literal_node l : kind (literal_node l) = KLiteral.
Proof.
  unfold literal_node, quoted.
  replace (lit "    " ++ (dq :: l ++ [dq])
           ++ lit " [shape=box, style=filled, fillcolor=lightyellow];")
    with ((lit "    " ++ dq :: l)
          ++ dq
          :: lit " [shape=box, style=filled, fillcolor=lightyellow];")
    by reassoc.
  rewrite kind_app; [reflexivity|vm_compute; lia].
Qed.

Lemma kind_variable_node v : kind (variable_node v) = KVariable.
Proof.
  unfold variable_node, quoted.
  replace (lit "    " ++ (dq :: v ++ [dq]) ++ lit " [label="
           ++ (dq :: v ++ [dq]) ++ lit ", fillcolor=lightblue, style="
           ++ (dq :: lit "rounded,filled" ++ [dq]) ++ lit "];")
    with ((lit "    " ++ (dq :: v ++ [dq]) ++ lit " [label=" ++ dq :: v)
          ++ dq :: lit ", fillcolor=lightblue, style="
          ++ (dq :: lit "rounded,filled" ++ [dq]) ++ lit "];")
    by reassoc.
  rewrite kind_app; [reflexivity|vm_compute; lia].
Qed.

Lemma kind_type_edge v ci : kind (type_edge v ci) = KTypeEdge.
Proof.
  unfold type_edge, quoted. destruct (cls_part ci).
  - replace (lit "    " ++ (dq :: cls_class ci ++ [dq]) ++ lit " -> "
             ++ (dq :: v ++ [dq]) ++ lit " [label="
             ++ (dq :: lit "rdf:type" ++ [dq]) ++ lit ", style=dashed];")
      with ((lit "    " ++ (dq :: cls_class ci ++ [dq]) ++ lit " -> "
             ++ dq :: v)
            ++ dq :: lit " [label=" ++ (dq :: lit "rdf:type" ++ [dq])
            ++ lit ", style=dashed];")
      by reassoc.
    rewrite kind_app; [reflexivity|vm_compute; lia].
  - replace (lit "    " ++ (dq :: cls_class ci ++ [dq]) ++ lit " -> "
             ++ (dq :: v ++ [dq]) ++ lit " [label="
             ++ (dq :: lit "rdf:type" ++ [dq])
             ++ lit ", color=blue, penwidth=2, style=dashed];")
      with ((lit "    " ++ (dq :: cls_class ci ++ [dq]) ++ lit " -> "
             ++ dq :: v)
            ++ dq :: lit " [label=" ++ (dq :: lit "rdf:type" ++ [dq])
            ++ lit ", color=blue, penwidth=2, style=dashed];")
      by reassoc.
    rewrite kind_app; [reflexivity|vm_compute; lia].
Qed.

(** A text that begins with [q] either has all of [q] before its first
    [d], or has [d] in [q]. *)
Lemma startswith_through a d b :
  forall q,
    startswith (a ++ d :: b) q = true ->
    (forall x, In x q -> In x a) \/ In d q.
Proof.
  induction a as [|y a IH]; intros [|x q] H; try (left; now intros ? []).
  - simpl app in H. rewrite startswith_cons in H.
    apply andb_prop in H as [H _]. apply Ascii.eqb_eq in H. right. now left.
  - change ((y :: a) ++ d :: b) with (y :: a ++ d :: b) in H.
    rewrite startswith_cons in H. apply andb_prop in H as [Hy H].
    apply Ascii.eqb_eq in Hy. subst x.
    destruct (IH q H) as [Hq|Hd].
    + left. intros z [<-|Hz]; [now left|right; now apply Hq].
    + right. now right.
Qed.

Lemma cleanb_no c name :
  in_cset Word c = false -> Ascii.eqb c ":" = false ->
  cleanb name = true -> ~ In c name.
Proof.
  intros Hw Hc Hn Hin. unfold cleanb in Hn. rewrite forallb_forall in Hn.
  specialize (Hn c Hin). rewrite Hw, Hc in Hn. discriminate.
Qed.

Lemma kind_property_edge pr :
  cleanb (prop_predicate pr) = true -> kind (property_edge pr) = KPropertyEdge.
Proof.
  intros Hclean. unfold property_edge, quoted. destruct (prop_part pr).
  - set (x := lit "    " ++ (dq :: prop_subject pr ++ [dq]) ++ lit " -> "
              ++ (dq :: prop_object pr ++ [dq]) ++ lit " [label=").
    replace (lit "    " ++ (dq :: prop_subject pr ++ [dq]) ++ lit " -> "
             ++ (dq :: prop_object pr ++ [dq]) ++ lit " [label="
             ++ (dq :: prop_predicate pr ++ [dq]) ++ lit "];")
      with (x ++ dq :: prop_predicate pr ++ dq :: lit "];")
      by (unfold x; reassoc).
    clearbody x.
    assert (Er : rev (x ++ dq :: prop_predicate pr ++ dq :: lit "];")
                 = ";"%char :: "]"%char :: dq
                   :: rev (prop_predicate pr) ++ dq :: rev x).
    { rewrite rev_app_distr. simpl rev. rewrite rev_app_distr. simpl.
      now rewrite <- !app_assoc. }
    unfold kind, ends_with. rewrite Er.
    assert (Hv : startswith (rev (prop_predicate pr) ++ dq :: rev x)
                            (lit "dellif,") = false).
    { destruct (startswith _ (lit "dellif,")) eqn:E; [|reflexivity].
      apply startswith_through in E as [E|E].
      - exfalso. apply (cleanb_no "," (prop_predicate pr)); trivial.
        apply in_rev, E. vm_compute. tauto.
      - exfalso. vm_compute in E. intuition discriminate. }
    unfold lit in Hv. cbn -[startswith] in Hv.
    cbn -[startswith]. rewrite !startswith_cons. cbn -[startswith].
    rewrite Hv, startswith_nil. reflexivity.
  - replace (lit "    " ++ (dq :: prop_subject pr ++ [dq]) ++ lit " -> "
             ++ (dq :: prop_object pr ++ [dq]) ++ lit " [label="
             ++ (dq :: prop_predicate pr ++ [dq])
             ++ lit ", color=blue, penwidth=2];")
      with ((lit "    " ++ (dq :: prop_subject pr ++ [dq]) ++ lit " -> "
             ++ (dq :: prop_object pr ++ [dq]) ++ lit " [label="
             ++ dq :: prop_predicate pr)
            ++ dq :: lit ", color=blue, penwidth=2];")
      by reassoc.
    rewrite kind_app; [reflexivity|vm_compute; lia].
Qed.

(** ** What the atoms of a rule are made of *)

Lemma word_any c : in_cset Word c = true -> in_cset AnyChar c = true.
Proof.
  destruct c as [[] [] [] [] [] [] [] []]; intros H;
    first [reflexivity | discriminate H].
Qed.

Lemma clean_plain name : cleanb name = true -> plainb name = true.
Proof.
  unfold cleanb, plainb. rewrite !forallb_forall. intros H c Hc.
  specialize (H c Hc). apply orb_prop in H as [H|H].
  - now apply word_any.
  - apply Ascii.eqb_eq in H. now subst c.
Qed.

Lemma word_clean_one w : wordb w = true -> cleanb w = true.
Proof.
  intros H. apply wordb_forallb in H. unfold cleanb.
  rewrite forallb_forall in H |- *. intros c Hc. now rewrite (H c Hc).
Qed.

Lemma word_clean p n :
  wordb p = true -> wordb n = true -> cleanb (p ++ lit ":" ++ n) = true.
Proof.
  intros Hp Hn. apply word_clean_one in Hp, Hn.
  unfold cleanb in *. rewrite forallb_app. rewrite Hp.
  change (lit ":" ++ n) with (":"%char :: n).
  cbn [forallb]. rewrite Hn. now rewrite orb_true_r.
Qed.

Lemma plainb_app a b : plainb (a ++ b) = plainb a && plainb b.
Proof. apply forallb_app. Qed.

Lemma strip_plain o : plainb o = true -> plainb (strip o) = true.
Proof.
  intros H. destruct (strip_split o) as (v & u & _ & _ & E).
  rewrite E, !plainb_app in H.
  apply andb_prop in H as [_ H]. now apply andb_prop in H as [H _].
Qed.

Lemma word_plain v : wordb v = true -> plainb ("?"%char :: v) = true.
Proof.
  intros H. apply wordb_forallb in H. unfold plainb. simpl.
  rewrite forallb_forall in H |- *. intros c Hc. now apply word_any, H.
Qed.

Lemma parse_atom_wf s a pt : parse_atom s = Ok a -> well_formed (a, pt).
Proof.
  intros H. unfold well_formed. simpl.
  destruct (parse_atom_cases s)
    as [(p & n & v & Hp & Hn & Hv & E)
       |[(p & n & v & o & Hp & Hn & Hv & Ho & E)|E]];
    rewrite E in H; [| |discriminate]; injection H as <-.
  - split; [now apply word_clean|now apply word_plain].
  - repeat split; [now apply word_clean|now apply word_plain|].
    now apply strip_plain.
Qed.

Lemma parsed_wf p l atoms :
  Forall2 (fun s a => parse_atom s = Ok (fst a) /\ snd a = p) l atoms ->
  Forall well_formed atoms.
Proof.
  induction 1 as [|s [a pt] l atoms [Hs _] _ IH]; constructor; trivial.
  now apply parse_atom_wf with s.
Qed.

Lemma rule_atoms_wf rule atoms :
  rule_atoms rule = Ok atoms -> Forall well_formed atoms.
Proof.
  intros H.
  destruct (rule_atoms_inv _ _ H) as (sa & sc & ante & cons & _ & Ha & Hc & ->).
  apply Forall_app. split; eapply parsed_wf; eassumption.
Qed.

Lemma wf_relations atoms :
  Forall well_formed atoms ->
  forall pr,
    In pr (relations atoms) ->
    cleanb (prop_predicate pr) = true
    /\ plainb (prop_subject pr) = true /\ plainb (prop_object pr) = true.
Proof.
  intros Hwf pr Hin. unfold relations in Hin. apply in_flat_map in Hin.
  destruct Hin as ([a pt] & Ha & Hin).
  rewrite Forall_forall in Hwf. specialize (Hwf _ Ha).
  destruct a as [p n v|p n sb o]; [destruct Hin|].
  destruct Hin as [<-|[]]. exact Hwf.
Qed.

Lemma wf_assertions atoms :
  Forall well_formed atoms ->
  forall va,
    In va (assertions atoms) ->
    cleanb (cls_class (snd va)) = true /\ plainb (fst va) = true.
Proof.
  intros Hwf va Hin. unfold assertions in Hin. apply in_flat_map in Hin.
  destruct Hin as ([a pt] & Ha & Hin).
  rewrite Forall_forall in Hwf. specialize (Hwf _ Ha).
  destruct a as [p n v|p n sb o]; [|destruct Hin].
  destruct Hin as [<-|[]]. exact Hwf.
Qed.

Lemma wf_variables atoms :
  Forall well_formed atoms ->
  forall v, In v (mentioned_variables atoms) -> plainb v = true.
Proof.
  intros Hwf v Hin. unfold mentioned_variables in Hin.
  apply in_flat_map in Hin. destruct Hin as ([a pt] & Ha & Hin).
  rewrite Forall_forall in Hwf. specialize (Hwf _ Ha).
  unfold well_formed in Hwf. simpl in Hwf.
  destruct a as [p n x|p n sb o]; simpl in Hin.
  - destruct Hin as [<-|[]]. apply Hwf.
  - destruct Hwf as (_ & Hs & Ho). destruct Hin as [<-|Hin]; [exact Hs|].
    destruct (startswith o _); [|destruct Hin].
    now destruct Hin as [<-|[]].
Qed.

Lemma wf_literals atoms :
  Forall well_formed atoms ->
  forall l, In l (mentioned_literals atoms) -> plainb l = true.
Proof.
  intros Hwf l Hin. unfold mentioned_literals in Hin.
  apply in_flat_map in Hin. destruct Hin as ([a pt] & Ha & Hin).
  rewrite Forall_forall in Hwf. specialize (Hwf _ Ha).
  unfold well_formed in Hwf. simpl in Hwf.
  destruct a as [p n x|p n sb o]; simpl in Hin; [destruct Hin|].
  destruct Hwf as (_ & _ & Ho).
  destruct (startswith o _); [destruct Hin|].
  now destruct Hin as [<-|[]].
Qed.

(** ** The lines of the text, kind by kind *)

Lemma is_kind_spec k l : is_kind k l = true <-> kind l = k.
Proof.
  unfold is_kind. destruct k, (kind l); split; congruence.
Qed.

Lemma filter_kind_same k (l : list text) :
  (forall x, In x l -> kind x = k) -> filter (is_kind k) l = l.
Proof.
  induction l as [|x l IH]; intros H; [reflexivity|]. simpl.
  rewrite (proj2 (is_kind_spec k x)) by (apply H; now left).
  f_equal. apply IH. intros y Hy. apply H. now right.
Qed.

Lemma filter_kind_other k k' (l : list text) :
  k <> k' -> (forall x, In x l -> kind x = k') -> filter (is_kind k) l = [].
Proof.
  intros Hk. induction l as [|x l IH]; intros H; [reflexivity|]. simpl.
  destruct (is_kind k x) eqn:E.
  - apply is_kind_spec in E. rewrite (H x (or_introl eq_refl)) in E.
    congruence.
  - apply IH. intros y Hy. apply H. now right.
Qed.

Lemma kind_map (A : Type) (f : A -> text) k l :
  (forall a, kind (f a) = k) -> forall x, In x (map f l) -> kind x = k.
Proof. intros H x Hx. apply in_map_iff in Hx as (a & <- & _). apply H. Qed.

Lemma kind_type_edge_lines g x : In x (type_edge_lines g) -> kind x = KTypeEdge.
Proof.
  unfold type_edge_lines. intros H. apply in_flat_map in H as (v & _ & H).
  destruct (dict_get (classes g) v); [|destruct H].
  apply in_map_iff in H as (ci & <- & _). apply kind_type_edge.
Qed.

Lemma kind_property_edge_lines g x :
  (forall pr, In pr (properties g) -> cleanb (prop_predicate pr) = true) ->
  In x (property_edge_lines g) -> kind x = KPropertyEdge.
Proof.
  unfold property_edge_lines. intros Hc H.
  apply in_map_iff in H as (pr & <- & H). now apply kind_property_edge, Hc.
Qed.

Ltac by_kind Hc :=
  unfold dot_lines; rewrite !filter_app;
  repeat match goal with
    | |- context [filter (is_kind ?k) (class_lines ?g)] =>
        first
          [ rewrite (filter_kind_same k (class_lines g))
              by (apply kind_map, kind_class_node)
          | rewrite (filter_kind_other k KClass (class_lines g))
              by (try discriminate; apply kind_map, kind_class_node) ]
    | |- context [filter (is_kind ?k) (variable_lines ?g)] =>
        first
          [ rewrite (filter_kind_same k (variable_lines g))
              by (apply kind_map, kind_variable_node)
          | rewrite (filter_kind_other k KVariable (variable_lines g))
              by (try discriminate; apply kind_map, kind_variable_node) ]
    | |- context [filter (is_kind ?k) (literal_lines ?g)] =>
        first
          [ rewrite (filter_kind_same k (literal_lines g))
              by (apply kind_map, kind_literal_node)
          | rewrite (filter_kind_other k KLiteral (literal_lines g))
              by (try discriminate; apply kind_map, kind_literal_node) ]
    | |- context [filter (is_kind ?k) (type_edge_lines ?g)] =>
        first
          [ rewrite (filter_kind_same k (type_edge_lines g))
              by (apply kind_type_edge_lines)
          | rewrite (filter_kind_other k KTypeEdge (type_edge_lines g))
              by (try discriminate; apply kind_type_edge_lines) ]
    | |- context [filter (is_kind ?k) (property_edge_lines ?g)] =>
        first
          [ rewrite (filter_kind_same k (property_edge_lines g))
              by (intros ?; now apply kind_property_edge_lines)
          | rewrite (filter_kind_other k KPropertyEdge (property_edge_lines g))
              by (try discriminate;
                  intros ?; now apply kind_property_edge_lines) ]
    end;
  cbn; rewrite ?app_nil_r; reflexivity.

(** The lines of each kind are the lines of the block of that kind. *)
Lemma dot_lines_by_kind g :
  (forall pr, In pr (properties g) -> cleanb (prop_predicate pr) = true) ->
  filter (is_kind KClass) (dot_lines g) = class_lines g
  /\ filter (is_kind KVariable) (dot_lines g) = variable_lines g
  /\ filter (is_kind KLiteral) (dot_lines g) = literal_lines g
  /\ filter (is_kind KTypeEdge) (dot_lines g) = type_edge_lines g
  /\ filter (is_kind KPropertyEdge) (dot_lines g) = property_edge_lines g.
Proof.
  intros Hc. repeat split; by_kind Hc.
Qed.

(** ** The text and its lines *)

Lemma split_nl_cons c t cur :
  split_from [nl] (c :: t) 0 cur =
  if Ascii.eqb c nl then rev cur :: split_from [nl] t 0 []
  else split_from [nl] t 0 (c :: cur).
Proof.
  cbn [split_from]. rewrite startswith_cons, startswith_nil, andb_true_r.
  reflexivity.
Qed.

Lemma plain_not_nl c : in_cset AnyChar c = true -> Ascii.eqb c nl = false.
Proof.
  intros H. destruct (Ascii.eqb_spec c nl) as [->|]; [discriminate|trivial].
Qed.

Lemma split_nl_plain l :
  plainb l = true ->
  forall rest cur,
    split_from [nl] (l ++ rest) 0 cur = split_from [nl] rest 0 (rev l ++ cur).
Proof.
  induction l as [|c l IH]; intros H rest cur; [reflexivity|].
  simpl in H. apply andb_prop in H as [Hc Hl].
  change ((c :: l) ++ rest) with (c :: l ++ rest).
  rewrite split_nl_cons, plain_not_nl, IH; trivial.
  simpl. now rewrite <- app_assoc.
Qed.

(** Lines without a line break are what [split] gives back from their
    [join]. *)
Lemma split_join lines :
  lines <> [] -> Forall (fun l => plainb l = true) lines ->
  split (join [nl] lines) [nl] = lines.
Proof.
  unfold split. intros Hne H. induction H as [|l rest Hl Hrest IH].
  - congruence.
  - destruct rest as [|l2 rest].
    + simpl join. rewrite <- (app_nil_r l) at 1.
      rewrite split_nl_plain; trivial. simpl.
      now rewrite app_nil_r, rev_involutive.
    + change (join [nl] (l :: l2 :: rest))
        with (l ++ nl :: join [nl] (l2 :: rest)).
      rewrite split_nl_plain, split_nl_cons; trivial.
      rewrite Ascii.eqb_refl, app_nil_r, rev_involutive. f_equal.
      apply IH. discriminate.
Qed.

Lemma plain_quoted x : plainb x = true -> plainb (quoted x) = true.
Proof.
  intros H. unfold quoted.
  change (dq :: x ++ [dq]) with ([dq] ++ x ++ [dq]).
  now rewrite !plainb_app, H.
Qed.

Ltac plain_line :=
  repeat first
    [ rewrite plainb_app
    | rewrite plain_quoted by assumption
    | reflexivity
    | assumption
    | progress cbn [andb] ].

Lemma plain_class_node c : plainb c = true -> plainb (class_node c) = true.
Proof. intros H. unfold class_node. plain_line. Qed.

Lemma plain_variable_node v :
  plainb v = true -> plainb (variable_node v) = true.
Proof. intros H. unfold variable_node. plain_line. Qed.

Lemma plain_literal_node l :
  plainb l = true -> plainb (literal_node l) = true.
Proof. intros H. unfold literal_node. plain_line. Qed.

Lemma plain_type_edge v ci :
  plainb v = true -> plainb (cls_class ci) = true ->
  plainb (type_edge v ci) = true.
Proof. intros Hv Hc. unfold type_edge. destruct (cls_part ci); plain_line. Qed.

Lemma plain_property_edge pr :
  plainb (prop_subject pr) = true -> plainb (prop_object pr) = true ->
  plainb (prop_predicate pr) = true ->
  plainb (property_edge pr) = true.
Proof.
  intros Hs Ho Hp. unfold property_edge. destruct (prop_part pr); plain_line.
Qed.

Lemma in_assertions_about atoms v ci :
  In ci (assertions_about atoms v) <-> In (v, ci) (assertions atoms).
Proof.
  unfold assertions_about. rewrite in_map_iff. split.
  - intros ([v' ci'] & E & H). simpl in E. subst ci'.
    apply filter_In in H as [H Hv]. simpl in Hv.
    now destruct (text_eqb_spec v' v) as [->|]; [|discriminate].
  - intros H. exists (v, ci). split; [reflexivity|].
    apply filter_In. split; [exact H|]. simpl.
    now destruct (text_eqb_spec v v).
Qed.

Lemma built_lines_plain atoms :
  Forall well_formed atoms ->
  Forall (fun l => plainb l = true) (dot_lines (build new_converter atoms)).
Proof.
  intros Hwf. unfold dot_lines.
  repeat (apply Forall_app; split);
    try (repeat constructor; fail); apply Forall_forall; intros x Hx.
  - apply in_map_iff in Hx as (c & <- & Hc).
    apply sorted_in, built_classes in Hc. unfold mentioned_classes in Hc.
    apply in_map_iff in Hc as (va & <- & Hva).
    apply plain_class_node, clean_plain. now apply (wf_assertions atoms).
  - apply in_map_iff in Hx as (v & <- & Hv).
    apply sorted_in, built_variables in Hv.
    apply plain_variable_node. now apply (wf_variables atoms).
  - apply in_map_iff in Hx as (l & <- & Hl).
    apply sorted_in, built_literals in Hl.
    apply plain_literal_node. now apply (wf_literals atoms).
  - rewrite built_type_edges in Hx. apply in_flat_map in Hx as (v & _ & Hx).
    apply in_map_iff in Hx as (ci & <- & Hci).
    apply in_assertions_about in Hci.
    destruct (wf_assertions atoms Hwf _ Hci) as [Hc Hv].
    apply plain_type_edge; [exact Hv|now apply clean_plain].
  - rewrite built_property_edges in Hx.
    apply in_map_iff in Hx as (pr & <- & Hpr).
    destruct (wf_relations atoms Hwf _ Hpr) as (Hc & Hs & Ho).
    apply plain_property_edge; trivial. now apply clean_plain.
Qed.

(** ** Counting lines *)

Lemma count_occ_kind (l : list text) t :
  count_occ text_eq_dec l t
  = count_occ text_eq_dec (filter (is_kind (kind t)) l) t.
Proof.
  induction l as [|x l IH]; [reflexivity|]. simpl.
  destruct (text_eq_dec x t) as [->|Hx].
  - rewrite (proj2 (is_kind_spec (kind t) t) eq_refl). simpl.
    destruct (text_eq_dec t t); congruence.
  - destruct (is_kind (kind t) x); [|exact IH]. simpl.
    destruct (text_eq_dec x t); congruence.
Qed.

Lemma count_occ_map_once (f : text -> text) l x :
  (forall a b, f a = f b -> a = b) -> NoDup l -> In x l ->
  count_occ text_eq_dec (map f l) (f x) = 1.
Proof.
  intros Hf Hl Hx. induction Hl as [|y l Hy Hl IH]; [destruct Hx|].
  simpl. destruct (text_eq_dec (f y) (f x)) as [E|E].
  - apply Hf in E. subst y. f_equal.
    apply count_occ_not_In. intros H. apply in_map_iff in H as (z & E & Hz).
    apply Hf in E. now subst z.
  - destruct Hx as [->|Hx]; [congruence|now apply IH].
Qed.

Lemma class_node_inj a b : class_node a = class_node b -> a = b.
Proof.
  unfold class_node, quoted. intros H.
  apply app_inv_head in H. apply app_inv_tail in H.
  injection H as H. now apply app_inv_tail in H.
Qed.

Lemma literal_node_inj a b : literal_node a = literal_node b -> a = b.
Proof.
  unfold literal_node, quoted. intros H.
  apply app_inv_head in H. apply app_inv_tail in H.
  injection H as H. now apply app_inv_tail in H.
Qed.

Lemma app_inv_length (A : Type) (a b c d : list A) :
  a ++ c = b ++ d -> length a = length b -> a = b.
Proof.
  revert b. induction a as [|x a IH]; intros [|y b] H Hl;
    try discriminate; [reflexivity|].
  injection H as -> H. injection Hl as Hl. f_equal. now apply IH.
Qed.

Lemma variable_node_inj a b : variable_node a = variable_node b -> a = b.
Proof.
  unfold variable_node, quoted. intros H.
  apply app_inv_head in H. injection H as H.
  assert (Hl : length a = length b).
  { apply (f_equal (@length ascii)) in H.
    repeat (rewrite length_app in H; simpl in H). lia. }
  rewrite <- !app_assoc in H. now apply app_inv_length in H.
Qed.

(** Grouping a list of pairs by its keys, taken from a duplicate-free
    list that has them all, permutes it. *)
Lemma filter_split (A : Type) (f : A -> bool) l :
  Permutation l (filter f l ++ filter (fun x => negb (f x)) l).
Proof.
  induction l as [|x l IH]; [constructor|]. simpl.
  destruct (f x); simpl; [now constructor|].
  now apply Permutation_cons_app.
Qed.

Lemma flat_map_agree (A B : Type) (f g : A -> list B) l :
  (forall a, In a l -> f a = g a) -> flat_map f l = flat_map g l.
Proof.
  induction l as [|x l IH]; intros H; [reflexivity|]. simpl.
  rewrite (H x) by now left. f_equal. apply IH. intros a Ha. apply H.
  now right.
Qed.

Lemma grouped_perm (A : list (text * cls_info)) :
  forall vs,
    NoDup vs -> (forall va, In va A -> In (fst va) vs) ->
    Permutation
      (flat_map
         (fun v =>
            map (fun ci => (v, ci))
                (map snd (filter (fun va => text_eqb (fst va) v) A)))
         vs)
      A.
Proof.
  intros vs Hvs. revert A. induction Hvs as [|v vs Hv Hvs IH]; intros A HA.
  - destruct A as [|va A]; [constructor|]. destruct (HA va); now left.
  - simpl.
    set (rest := filter (fun va => negb (text_eqb (fst va) v)) A).
    apply perm_trans
      with (filter (fun va => text_eqb (fst va) v) A ++ rest);
      [|apply Permutation_sym, filter_split].
    apply Permutation_app.
    + rewrite map_map. rewrite <- (map_id (filter _ A)) at 2.
      apply Permutation_refl'. apply map_ext_in. intros [v' ci] H.
      apply filter_In in H as [_ H]. simpl in *.
      now destruct (text_eqb_spec v' v) as [->|].
    + apply perm_trans
        with (flat_map
                (fun v0 =>
                   map (fun ci => (v0, ci))
                       (map snd
                            (filter (fun va => text_eqb (fst va) v0) rest)))
                vs).
      * apply Permutation_refl'. apply flat_map_agree.
        intros v0 Hv0. do 2 f_equal. unfold rest.
        induction A as [|[v' ci] A IHA]; [reflexivity|]. simpl.
        destruct (text_eqb_spec v' v0) as [->|Hne]; simpl.
        -- destruct (text_eqb_spec v0 v) as [->|]; [contradiction|].
           simpl. destruct (text_eqb_spec v0 v0); [|congruence].
           f_equal. apply IHA. intros va Hva. apply HA. now right.
        -- destruct (text_eqb v' v); simpl.
           ++ apply IHA. intros va Hva. apply HA. now right.
           ++ destruct (text_eqb_spec v' v0); [congruence|].
              apply IHA. intros va Hva. apply HA. now right.
      * apply IH. intros va Hva. unfold rest in Hva.
        apply filter_In in Hva as [Hva Hne].
        destruct (HA va Hva) as [E|H]; [|exact H].
        rewrite <- E in Hne.
        destruct (text_eqb_spec v v); [discriminate|congruence].
Qed.

Lemma outcome_ok w self rule out dot :
  outcome (generate_dot w self rule out) = Ok dot ->
  exists atoms,
    rule_atoms rule = Ok atoms
    /\ dot = join [nl] (dot_lines (build new_converter atoms)).
Proof.
  rewrite (proj1 (generate_dot_outcome w self rule out)).
  unfold dot_text. destruct (rule_atoms rule) as [atoms|e]; [|discriminate].
  simpl bind. cbv beta iota. intros H. exists atoms. split; [reflexivity|].
  destruct (save_cases w out
              (_create_dot_graph (build new_converter atoms))) as [[E|E] _];
    rewrite E in H; [|discriminate].
  now injection H as <-.
Qed.

Lemma atoms_counted atoms :
  length (assertions atoms) + length (relations atoms) = length atoms.
Proof.
  unfold assertions, relations.
  induction atoms as [|[a pt] atoms IH]; [reflexivity|].
  cbn [flat_map]. rewrite !length_app. destruct a; simpl; lia.
Qed.

Lemma asserted_variable atoms va :
  In va (assertions atoms) -> In (fst va) (mentioned_variables atoms).
Proof.
  unfold assertions, mentioned_variables. rewrite !in_flat_map.
  intros ([a pt] & Ha & H). exists (a, pt). split; [exact Ha|].
  destruct a; [|destruct H]. destruct H as [<-|[]]. now left.
Qed.

Lemma map_flat_map (A B C : Type) (f : B -> C) (g : A -> list B) l :
  map f (flat_map g l) = flat_map (fun a => map f (g a)) l.
Proof.
  induction l as [|a l IH]; [reflexivity|]. simpl.
  now rewrite map_app, IH.
Qed.

(** The rdf:type edges are those of the class assertions, one each. *)
Lemma built_type_edges_perm atoms :
  Permutation (type_edge_lines (build new_converter atoms))
              (map assertion_edge (assertions atoms)).
Proof.
  rewrite built_type_edges.
  set (vs := sorted (variables (build new_converter atoms))).
  assert (E : flat_map
                (fun var => map (type_edge var) (assertions_about atoms var))
                vs
              = map assertion_edge
                    (flat_map
                       (fun v =>
                          map (fun ci => (v, ci)) (assertions_about atoms v))
                       vs)).
  { rewrite map_flat_map. apply flat_map_ext. intros v.
    now rewrite map_map. }
  rewrite E. clear E.
  apply Permutation_map. apply grouped_perm.
  - apply strict_nodup, sorted_strict, built_variables_nodup.
  - intros va Hva. apply sorted_in, built_variables.
    now apply asserted_variable.
Qed.

(** * The claims of the specification *)

(** ** The first scenario *)

(** C1.  The rule [A:Foo(?x) -> A:hasVal(?x, 5)] converts, whatever the
    state of the converter; the statements of its DOT text are exactly
    five: the class node [A:Foo], the variable node [?x], the literal
    node [5], the rdf:type edge from [A:Foo] to [?x] in the plain dashed
    style of the antecedent, and the edge from [?x] to [5] labelled
    [A:hasVal] in the coloured, heavy style of the consequent. *)
Theorem C1_scenario_value :
  forall w self,
  exists dot,
    outcome (generate_dot w self scenario_value None) = Ok dot
    /\ statements dot = scenario_value_statements
    /\ NoDup scenario_value_statements
    /\ length (split dot [nl]) = 19.
Proof.
  intros w self.
  destruct (generate_dot_outcome w self scenario_value None) as [E _].
  assert (Hd : exists dot, dot_text scenario_value = Ok dot
                           /\ statements dot = scenario_value_statements
                           /\ length (split dot [nl]) = 19).
  { eexists. split; [vm_compute; reflexivity|].
    split; vm_compute; reflexivity. }
  destruct Hd as (dot & Hd & Hs & Hl).
  exists dot. rewrite E, Hd. repeat split; trivial.
  repeat (constructor;
          [simpl; intros H;
           repeat (destruct H as [H|H]; [discriminate H|]); exact H|]).
  constructor.
Qed.

(** ** The rule splitter *)

(** C2.  A rule in which the arrow occurs no time or more than once is
    refused with [MalformedRuleError], by the splitter and so by the
    conversion; a rule in which it occurs once is cut there, and each
    side yields, in order, its pieces between carets, each stripped. *)
Theorem C2_rule_splitter :
  forall rule,
    (count_sub (lit "->") rule <> 1 ->
     parse_swrl_rule rule = Raise MalformedRuleError
     /\ forall w self out,
         generate_dot w self rule out
         = (Raise MalformedRuleError, reset self, []))
    /\ (count_sub (lit "->") rule = 1 ->
        exists a c,
          rule = a ++ lit "->" ++ c
          /\ parse_swrl_rule rule
             = Ok (map strip (split a (lit "^")),
                   map strip (split c (lit "^")))).
Proof.
  intros rule. split; intros H.
  - assert (E : parse_swrl_rule rule = Raise MalformedRuleError).
    { apply parse_swrl_rule_arity. unfold split.
      rewrite (split_arrow_length _ _ _ (le_n _)). lia. }
    split; [exact E|]. intros w self out.
    now apply generate_dot_raise, rule_atoms_malformed.
  - destruct (split_arrow_one rule [] H) as (a & c & E & Hs).
    exists a, c. split; [exact E|].
    now apply parse_swrl_rule_sides.
Qed.

Lemma C2_rule_splitter_witness :
  (parse_swrl_rule (lit "A:B(?x) -> A:C(?x) -> A:D(?x)")
   = Raise MalformedRuleError
   /\ forall w self out,
       generate_dot w self (lit "A:B(?x) -> A:C(?x) -> A:D(?x)") out
       = (Raise MalformedRuleError, reset self, []))
  /\ exists a c,
      lit "A:B(?x) ^ A:p(?x, 1) -> A:C(?x)" = a ++ lit "->" ++ c
      /\ parse_swrl_rule (lit "A:B(?x) ^ A:p(?x, 1) -> A:C(?x)")
         = Ok (map strip (split a (lit "^")), map strip (split c (lit "^"))).
Proof.
  split.
  - apply (proj1 (C2_rule_splitter (lit "A:B(?x) -> A:C(?x) -> A:D(?x)"))).
    vm_compute. lia.
  - apply (proj2 (C2_rule_splitter (lit "A:B(?x) ^ A:p(?x, 1) -> A:C(?x)"))).
    vm_compute. reflexivity.
Defined.

(** ** The atom classifier *)

Lemma parse_atom_no_variable p n rest :
  wordb p = true -> wordb n = true ->
  startswith rest (lit "?") = false ->
  parse_atom (p ++ ":"%char :: n ++ "("%char :: rest)
  = Raise (UnparsableAtomError (p ++ ":"%char :: n ++ "("%char :: rest)).
Proof.
  intros Hp Hn Hr.
  assert (Hq : match rest with
               | x :: _ => Ascii.eqb x "?" = false
               | [] => True
               end).
  { destruct rest as [|x t]; [exact I|].
    change (lit "?") with ["?"%char] in Hr.
    now rewrite startswith_cons, startswith_nil, andb_true_r in Hr. }
  unfold parse_atom, re_match, class_pattern, property_pattern.
  rewrite !run_name; trivial. cbn [run].
  destruct rest as [|x t]; [reflexivity|]. now rewrite Hq.
Qed.

(** C3, as the code has it.  The claim that every atom with three or
    more arguments is refused does not hold.  What holds: an atom
    [prefix:name(first, second, more] is refused when [first] does not
    open with a question mark; an atom [prefix:name(?var, second, more)]
    is taken as a property atom whose object is all that follows the
    first comma, [second, more], stripped, nothing being cut off. *)
Theorem C3_three_arguments :
  (forall p n v ws second more tail,
      wordb p = true -> wordb n = true -> wordb v = true ->
      blankb ws = true -> objectb (second ++ ","%char :: more) = true ->
      parse_atom
        (property_form p n v ws (second ++ ","%char :: more) tail)
      = Ok (PropertyAtom p n ("?"%char :: v)
              (strip (second ++ ","%char :: more))))
  /\ (forall p n first second more,
         wordb p = true -> wordb n = true ->
         startswith (first ++ ","%char :: second ++ ","%char :: more)
                    (lit "?") = false ->
         parse_atom
           (p ++ ":"%char :: n ++ "("%char
              :: first ++ ","%char :: second ++ ","%char :: more)
         = Raise (UnparsableAtomError
                    (p ++ ":"%char :: n ++ "("%char
                       :: first ++ ","%char :: second ++ ","%char :: more))).
Proof.
  split.
  - intros. now apply parse_property_form.
  - intros. now apply parse_atom_no_variable.
Qed.

Lemma C3_three_arguments_witness :
  length (arguments (lit "A:f(?x, ?y, ?z)")) = 3
  /\ parse_atom (lit "A:f(?x, ?y, ?z)")
     = Ok (PropertyAtom (lit "A") (lit "f") (lit "?x") (lit "?y, ?z"))
  /\ length (arguments (lit "swrlb:add(5, ?x, ?y)")) = 3
  /\ parse_atom (lit "swrlb:add(5, ?x, ?y)")
     = Raise (UnparsableAtomError (lit "swrlb:add(5, ?x, ?y)")).
Proof.
  split; [reflexivity|]. split; [|split; [reflexivity|]].
  - exact (proj1 C3_three_arguments (lit "A") (lit "f") (lit "x") (lit " ")
             (lit "?y") (lit " ?z") []
             eq_refl eq_refl eq_refl eq_refl eq_refl).
  - exact (proj2 C3_three_arguments (lit "swrlb") (lit "add")
             (lit "5") (lit " ?x") (lit " ?y)")
             eq_refl eq_refl eq_refl).
Defined.

(** The atom [A:f(?x, ?y, ?z)] is stripped, has three arguments, and is
    accepted. *)
Lemma C3_counterexample :
  ~ (forall a,
        strip a = a -> 3 <= length (arguments a) ->
        parse_atom a = Raise (UnparsableAtomError a)).
Proof.
  intros H.
  specialize (H (lit "A:f(?x, ?y, ?z)") eq_refl).
  assert (H3 : 3 <= length (arguments (lit "A:f(?x, ?y, ?z)")))
    by (vm_compute; lia).
  specialize (H H3). vm_compute in H. discriminate H.
Qed.

(** C4, as the code has it.  The object group is lazy, not greedy: it
    ends at the first closing parenthesis that follows the object token.
    An object that opens a parenthesis keeps it, but the group stops
    before the parenthesis that closes it, and what follows is left
    out. *)
Theorem C4_object_capture :
  forall p n v ws f inner tail,
    wordb p = true -> wordb n = true -> wordb v = true ->
    blankb ws = true -> objectb (f ++ "("%char :: inner) = true ->
    parse_atom (property_form p n v ws (f ++ "("%char :: inner) tail)
    = Ok (PropertyAtom p n ("?"%char :: v) (strip (f ++ "("%char :: inner))).
Proof. intros. now apply parse_property_form. Qed.

Lemma C4_object_capture_witness :
  parse_atom (lit "A:p(?x, foo(bar))")
  = Ok (PropertyAtom (lit "A") (lit "p") (lit "?x") (lit "foo(bar")).
Proof.
  exact (C4_object_capture (lit "A") (lit "p") (lit "x") (lit " ")
           (lit "foo") (lit "bar") (lit ")")
           eq_refl eq_refl eq_refl eq_refl eq_refl).
Defined.

(** The object of [A:p(?x, foo(bar))] is not [foo(bar)]. *)
Lemma C4_counterexample :
  parse_atom (lit "A:p(?x, foo(bar))")
  <> Ok (PropertyAtom (lit "A") (lit "p") (lit "?x") (lit "foo(bar)")).
Proof. vm_compute. discriminate. Qed.

(** ** The emitter *)

(** C5.  In the DOT text of a rule that converts, the class nodes are
    one for each class that the atoms mention, the variable nodes one for
    each variable and the literal nodes one for each literal: none is
    declared twice, however often it is mentioned.  The edges are not
    merged: the rdf:type edges are those of the class atoms, one for
    each, and the property edges those of the property atoms, one for
    each and in their order, so that a line occurs as often as there are
    atoms that give it. *)
Theorem C5_nodes_once_edges_all :
  forall w self rule out dot,
    outcome (generate_dot w self rule out) = Ok dot ->
    exists atoms cs vs ls,
      rule_atoms rule = Ok atoms
      /\ filter (is_kind KClass) (split dot [nl]) = map class_node cs
      /\ NoDup cs
      /\ (forall x, In x cs <-> In x (mentioned_classes atoms))
      /\ filter (is_kind KVariable) (split dot [nl]) = map variable_node vs
      /\ NoDup vs
      /\ (forall x, In x vs <-> In x (mentioned_variables atoms))
      /\ filter (is_kind KLiteral) (split dot [nl]) = map literal_node ls
      /\ NoDup ls
      /\ (forall x, In x ls <-> In x (mentioned_literals atoms))
      /\ Permutation (filter (is_kind KTypeEdge) (split dot [nl]))
                     (map assertion_edge (assertions atoms))
      /\ filter (is_kind KPropertyEdge) (split dot [nl])
         = map property_edge (relations atoms)
      /\ length (assertions atoms) + length (relations atoms) = length atoms
      /\ (forall c,
             In c (mentioned_classes atoms) ->
             count_occ text_eq_dec (split dot [nl]) (class_node c) = 1)
      /\ (forall v,
             In v (mentioned_variables atoms) ->
             count_occ text_eq_dec (split dot [nl]) (variable_node v) = 1)
      /\ (forall l,
             In l (mentioned_literals atoms) ->
             count_occ text_eq_dec (split dot [nl]) (literal_node l) = 1)
      /\ (forall va,
             In va (assertions atoms) ->
             count_occ text_eq_dec (split dot [nl]) (assertion_edge va)
             = count_occ text_eq_dec (map assertion_edge (assertions atoms))
                         (assertion_edge va))
      /\ (forall pr,
             In pr (relations atoms) ->
             count_occ text_eq_dec (split dot [nl]) (property_edge pr)
             = count_occ text_eq_dec (map property_edge (relations atoms))
                         (property_edge pr)).
Proof.
  intros w self rule out dot H.
  destruct (outcome_ok _ _ _ _ _ H) as (atoms & Hr & ->).
  pose proof (rule_atoms_wf _ _ Hr) as Hwf.
  set (g := build new_converter atoms).
  assert (Hlines : split (join [nl] (dot_lines g)) [nl] = dot_lines g).
  { apply split_join; [discriminate|now apply built_lines_plain]. }
  assert (Hclean : forall pr, In pr (properties g) ->
                              cleanb (prop_predicate pr) = true).
  { intros pr Hpr. unfold g in Hpr. rewrite build_properties in Hpr.
    now apply (wf_relations atoms Hwf). }
  destruct (dot_lines_by_kind g Hclean) as (Kc & Kv & Kl & Kt & Kp).
  rewrite Hlines.
  exists atoms, (sorted (all_classes g)), (sorted (variables g)),
    (sorted (literals g)).
  assert (Hc : forall x, In x (sorted (all_classes g))
                         <-> In x (mentioned_classes atoms))
    by (intros x; rewrite sorted_in; apply built_classes).
  assert (Hv : forall x, In x (sorted (variables g))
                         <-> In x (mentioned_variables atoms))
    by (intros x; rewrite sorted_in; apply built_variables).
  assert (Hl : forall x, In x (sorted (literals g))
                         <-> In x (mentioned_literals atoms))
    by (intros x; rewrite sorted_in; apply built_literals).
  assert (Nc : NoDup (sorted (all_classes g)))
    by apply strict_nodup, sorted_strict, built_classes_nodup.
  assert (Nv : NoDup (sorted (variables g)))
    by apply strict_nodup, sorted_strict, built_variables_nodup.
  assert (Nl : NoDup (sorted (literals g)))
    by apply strict_nodup, sorted_strict, built_literals_nodup.
  assert (Pt : Permutation (type_edge_lines g)
                           (map assertion_edge (assertions atoms)))
    by apply built_type_edges_perm.
  assert (Ep : property_edge_lines g = map property_edge (relations atoms))
    by apply built_property_edges.
  split; [exact Hr|]. split; [exact Kc|]. split; [exact Nc|].
  split; [exact Hc|]. split; [exact Kv|]. split; [exact Nv|].
  split; [exact Hv|]. split; [exact Kl|]. split; [exact Nl|].
  split; [exact Hl|]. split; [now rewrite Kt|].
  split; [now rewrite Kp|]. split; [apply atoms_counted|].
  split; [|split; [|split; [|split]]].
  - intros c Hin. rewrite count_occ_kind, kind_class_node, Kc.
    apply count_occ_map_once; [apply class_node_inj|exact Nc|now apply Hc].
  - intros v Hin. rewrite count_occ_kind, kind_variable_node, Kv.
    apply count_occ_map_once; [apply variable_node_inj|exact Nv|now apply Hv].
  - intros l Hin. rewrite count_occ_kind, kind_literal_node, Kl.
    apply count_occ_map_once; [apply literal_node_inj|exact Nl|now apply Hl].
  - intros va Hin. unfold assertion_edge at 1.
    rewrite count_occ_kind, kind_type_edge, Kt.
    now apply Permutation_count_occ.
  - intros pr Hin.
    rewrite count_occ_kind, kind_property_edge, Kp, Ep; [reflexivity|].
    now apply (wf_relations atoms Hwf).
Qed.

Lemma C5_nodes_once_edges_all_witness :
  exists dot,
    outcome (generate_dot quiet new_converter scenario_twice None) = Ok dot
    /\ statements dot = scenario_twice_statements
    /\ count_occ text_eq_dec (split dot [nl]) (class_node (lit "A:B")) = 1
    /\ count_occ text_eq_dec (split dot [nl]) (class_node (lit "A:C")) = 1
    /\ count_occ text_eq_dec (split dot [nl]) (variable_node (lit "?x")) = 1
    /\ count_occ text_eq_dec (split dot [nl])
         (assertion_edge
            (lit "?x", {| cls_class := lit "A:B"; cls_part := antecedent |}))
       = 2.
Proof.
  assert (H : exists dot,
             outcome (generate_dot quiet new_converter scenario_twice None)
             = Ok dot
             /\ statements dot = scenario_twice_statements).
  { eexists. split; vm_compute; reflexivity. }
  destruct H as (dot & H & Hs). exists dot.
  destruct (C5_nodes_once_edges_all quiet new_converter scenario_twice None
              dot H)
    as (atoms & cs & vs & ls & Hr & _ & _ & _ & _ & _ & _ & _ & _ & _ & _
        & _ & _ & Hc & Hv & _ & He & _).
  assert (Ea : atoms = scenario_twice_atoms)
    by (vm_compute in Hr; now injection Hr as <-).
  subst atoms.
  split; [exact H|]. split; [exact Hs|].
  split; [apply Hc; vm_compute; tauto|].
  split; [apply Hc; vm_compute; tauto|].
  split; [apply Hv; vm_compute; tauto|].
  rewrite He by (vm_compute; tauto). vm_compute. reflexivity.
Defined.

(** C6.  The DOT text of a rule that converts is, after the header, the
    class nodes, the variable nodes and the literal nodes, each group
    strictly increasing in the order of strings and holding what the
    atoms mention, whatever the order of the atoms; then the rdf:type
    edges, variable after variable in that same order and for each
    variable its assertions in atom order; then the property edges in
    atom order.  The atoms are those of the antecedent, left to right,
    followed by those of the consequent. *)
Theorem C6_emission_order :
  forall w self rule atoms,
    rule_atoms rule = Ok atoms ->
    exists cs vs ls,
      outcome (generate_dot w self rule None)
      = Ok (join [nl]
              (header_lines
               ++ [lit "    // Classes"] ++ map class_node cs ++ [[]]
               ++ [lit "    // Variables (Instances)"]
               ++ map variable_node vs ++ [[]]
               ++ [lit "    // Literals"] ++ map literal_node ls ++ [[]]
               ++ [lit "    // Class Assertions (rdf:type)"]
               ++ flat_map
                    (fun var =>
                       map (type_edge var) (assertions_about atoms var)) vs
               ++ [[]]
               ++ [lit "    // Properties"]
               ++ map property_edge (relations atoms)
               ++ [lit "}"]))
      /\ StronglySorted text_lt cs
      /\ (forall x, In x cs <-> In x (mentioned_classes atoms))
      /\ StronglySorted text_lt vs
      /\ (forall x, In x vs <-> In x (mentioned_variables atoms))
      /\ StronglySorted text_lt ls
      /\ (forall x, In x ls <-> In x (mentioned_literals atoms))
      /\ (forall atoms',
             Permutation atoms' atoms ->
             class_lines (build new_converter atoms') = map class_node cs
             /\ variable_lines (build new_converter atoms')
                = map variable_node vs
             /\ literal_lines (build new_converter atoms')
                = map literal_node ls)
      /\ (exists sa sc ante cons,
             parse_swrl_rule rule = Ok (sa, sc)
             /\ Forall2 (fun s a => parse_atom s = Ok (fst a)
                                    /\ snd a = antecedent) sa ante
             /\ Forall2 (fun s a => parse_atom s = Ok (fst a)
                                    /\ snd a = consequent) sc cons
             /\ atoms = ante ++ cons).
Proof.
  intros w self rule atoms H.
  set (g := build new_converter atoms).
  exists (sorted (all_classes g)), (sorted (variables g)),
    (sorted (literals g)).
  assert (Hc : forall x, In x (sorted (all_classes g))
                         <-> In x (mentioned_classes atoms))
    by (intros x; rewrite sorted_in; apply built_classes).
  assert (Hv : forall x, In x (sorted (variables g))
                         <-> In x (mentioned_variables atoms))
    by (intros x; rewrite sorted_in; apply built_variables).
  assert (Hl : forall x, In x (sorted (literals g))
                         <-> In x (mentioned_literals atoms))
    by (intros x; rewrite sorted_in; apply built_literals).
  assert (Hperm : forall atoms',
             Permutation atoms' atoms ->
             class_lines (build new_converter atoms')
             = map class_node (sorted (all_classes g))
             /\ variable_lines (build new_converter atoms')
                = map variable_node (sorted (variables g))
             /\ literal_lines (build new_converter atoms')
                = map literal_node (sorted (literals g))).
  { intros atoms' P.
    destruct (mentioned_perm _ _ P) as (Pc & Pv & Pl).
    unfold class_lines, variable_lines, literal_lines.
    repeat split; f_equal; apply strict_unique;
      try (apply sorted_strict;
           first [apply built_classes_nodup|apply built_variables_nodup
                 |apply built_literals_nodup]);
      intros x; rewrite sorted_in.
    - now rewrite built_classes, Pc, Hc.
    - now rewrite built_variables, Pv, Hv.
    - now rewrite built_literals, Pl, Hl. }
  split; [|repeat split; try apply Hc; try apply Hv; try apply Hl;
           try apply Hperm; trivial].
  - rewrite (proj1 (generate_dot_outcome w self rule None)).
    rewrite (dot_text_built _ _ H), save_none. cbn [fst]. unfold dot_lines.
    rewrite (built_type_edges atoms), (built_property_edges atoms).
    reflexivity.
  - apply sorted_strict, built_classes_nodup.
  - apply sorted_strict, built_variables_nodup.
  - apply sorted_strict, built_literals_nodup.
  - now apply rule_atoms_inv.
Qed.

Lemma C6_emission_order_witness :
  rule_atoms scenario_value = Ok scenario_value_atoms
  /\ exists cs vs ls,
      outcome (generate_dot quiet new_converter scenario_value None)
      = Ok (join [nl]
              (header_lines
               ++ [lit "    // Classes"] ++ map class_node cs ++ [[]]
               ++ [lit "    // Variables (Instances)"]
               ++ map variable_node vs ++ [[]]
               ++ [lit "    // Literals"] ++ map literal_node ls ++ [[]]
               ++ [lit "    // Class Assertions (rdf:type)"]
               ++ flat_map
                    (fun var =>
                       map (type_edge var)
                           (assertions_about scenario_value_atoms var)) vs
               ++ [[]]
               ++ [lit "    // Properties"]
               ++ map property_edge (relations scenario_value_atoms)
               ++ [lit "}"]))
      /\ StronglySorted text_lt cs
      /\ StronglySorted text_lt vs
      /\ StronglySorted text_lt ls.
Proof.
  assert (H : rule_atoms scenario_value = Ok scenario_value_atoms)
    by (vm_compute; reflexivity).
  split; [exact H|].
  destruct (C6_emission_order quiet new_converter scenario_value
              scenario_value_atoms H)
    as (cs & vs & ls & H1 & H2 & _ & H3 & _ & H4 & _).
  exists cs, vs, ls. auto.
Defined.

(** ** Calls and their effects *)

(** C7.  The outcome of a call is a function of the rule and of what the
    file system answers, not of the converter it is made on: it is the
    same on any two converters, so also on one converter twice in a row,
    and without an output path it is [dot_text] of the rule.  The graph
    that the converter holds after the call does not depend on what it
    held before either. *)
Theorem C7_calls_independent :
  forall w rule out self other,
    outcome (generate_dot w self rule out)
    = outcome (generate_dot w other rule out)
    /\ outcome (generate_dot w (final (generate_dot w self rule out)) rule out)
       = outcome (generate_dot w self rule out)
    /\ outcome (generate_dot w self rule None) = dot_text rule
    /\ same_graph (final (generate_dot w self rule out))
                  (final (generate_dot w other rule out)).
Proof.
  intros w rule out self other.
  pose proof (fun s o => proj1 (generate_dot_outcome w s rule o)) as E.
  split; [now rewrite !E|]. split; [now rewrite !E|]. split.
  - rewrite E. now destruct (dot_text rule).
  - unfold generate_dot, final.
    destruct (rule_atoms rule) as [atoms|e]; simpl.
    + destruct (save w out (_create_dot_graph (build (reset self) atoms))).
      destruct (save w out (_create_dot_graph (build (reset other) atoms))).
      simpl. apply same_graph_build. repeat split.
    + repeat split.
Qed.

(** C8.  Without an output path (none, or the empty string) a call
    touches no file and prints nothing.  A call that returns, returns the
    DOT text of the rule, whether or not a file was written.  Whatever a
    call writes is that complete text, to the path given; and a rule that
    does not convert fails before any file is opened. *)
Theorem C8_write_after_text :
  forall w self rule out,
    trace (generate_dot w self rule None) = []
    /\ trace (generate_dot w self rule (Some [])) = []
    /\ (forall d,
           outcome (generate_dot w self rule out) = Ok d ->
           dot_text rule = Ok d)
    /\ (forall path data,
           In (Write path data) (trace (generate_dot w self rule out)) ->
           dot_text rule = Ok data /\ out = Some path)
    /\ (forall e,
           dot_text rule = Raise e ->
           outcome (generate_dot w self rule out) = Raise e
           /\ trace (generate_dot w self rule out) = []).
Proof.
  intros w self rule out.
  pose proof (fun o => generate_dot_outcome w self rule o) as E.
  repeat split.
  - rewrite (proj2 (E None)). now destruct (dot_text rule).
  - rewrite (proj2 (E (Some []))). now destruct (dot_text rule).
  - intros d. rewrite (proj1 (E out)).
    destruct (dot_text rule) as [dot|e]; [|discriminate].
    destruct (save_cases w out dot) as [[H|H] _]; rewrite H; congruence.
  - rewrite (proj2 (E out)) in H.
    destruct (dot_text rule) as [dot|e]; [|destruct H].
    now destruct (proj2 (save_cases w out dot) _ _ H) as [-> _].
  - rewrite (proj2 (E out)) in H.
    destruct (dot_text rule) as [dot|e]; [|destruct H].
    now destruct (proj2 (save_cases w out dot) _ _ H) as [_ ->].
  - rewrite (proj1 (E out)). now rewrite H.
  - rewrite (proj2 (E out)). now rewrite H.
Qed.

Lemma C8_write_after_text_witness :
  trace (generate_dot quiet new_converter scenario_value None) = []
  /\ trace (generate_dot quiet new_converter scenario_value (Some [])) = []
  /\ (exists d, dot_text scenario_value = Ok d)
  /\ (exists data,
         dot_text scenario_value = Ok data
         /\ Some (lit "rule.dot") = Some (lit "rule.dot"))
  /\ (outcome (generate_dot quiet new_converter (lit "A:B(?x)")
                 (Some (lit "rule.dot")))
      = Raise MalformedRuleError
      /\ trace (generate_dot quiet new_converter (lit "A:B(?x)")
                  (Some (lit "rule.dot"))) = []).
Proof.
  pose proof (C8_write_after_text quiet new_converter scenario_value
                (Some (lit "rule.dot"))) as (H1 & H2 & H3 & H4 & _).
  pose proof (C8_write_after_text quiet new_converter (lit "A:B(?x)")
                (Some (lit "rule.dot"))) as (_ & _ & _ & _ & H5).
  split; [exact H1|]. split; [exact H2|]. split; [|split].
  - eexists. apply H3. vm_compute. reflexivity.
  - eexists. eapply H4. vm_compute. right. left. reflexivity.
  - apply H5. vm_compute. reflexivity.
Defined.

(** ** Empty sides and trailing text *)

Lemma split_caret_last u :
  blankb u = true ->
  forall y cur, In u (split_from (lit "^") (y ++ "^"%char :: u) 0 cur).
Proof.
  intros Hu. induction y as [|x y IH]; intros cur.
  - simpl app. rewrite split_caret_cons. simpl Ascii.eqb. cbv iota.
    right. rewrite split_caret_all_blank; trivial. now left.
  - change ((x :: y) ++ "^"%char :: u) with (x :: y ++ "^"%char :: u).
    rewrite split_caret_cons. destruct (Ascii.eqb x "^"); [right|]; apply IH.
Qed.

Lemma empty_side_atom side :
  empty_side side = true -> In [] (map strip (split side (lit "^"))).
Proof.
  unfold empty_side. intros H. apply orb_prop in H as [H|H].
  - unfold split. rewrite split_caret_all_blank; trivial.
    simpl. rewrite strip_blank; trivial. now left.
  - unfold trailing_caretb in H.
    destruct (lstrip_split (rev side)) as (u & Hu & E).
    destruct (lstrip (rev side)) as [|c z]; [discriminate|].
    apply Ascii.eqb_eq in H. subst c.
    apply (f_equal (@rev ascii)) in E.
    rewrite rev_involutive, rev_app_distr in E. simpl in E.
    rewrite <- app_assoc in E. simpl in E.
    rewrite <- (strip_blank (rev u)) by (now rewrite blankb_rev).
    apply in_map. rewrite E. apply split_caret_last.
    now rewrite blankb_rev.
Qed.

(** C9.  When a side of a rule with one arrow is blank, or ends in a
    caret, the splitter yields an empty atom for that side; the empty
    atom matches neither pattern, and the conversion raises
    [UnparsableAtomError]. *)
Theorem C9_empty_side :
  forall w self rule a c out,
    split rule (lit "->") = [a; c] ->
    empty_side a || empty_side c = true ->
    exists sides atom,
      parse_swrl_rule rule = Ok sides
      /\ (empty_side a = true -> In [] (fst sides))
      /\ (empty_side c = true -> In [] (snd sides))
      /\ parse_atom [] = Raise (UnparsableAtomError [])
      /\ generate_dot w self rule out
         = (Raise (UnparsableAtomError atom), reset self, []).
Proof.
  intros w self rule a c out Hs He.
  pose proof (parse_swrl_rule_sides rule a c Hs) as Hp.
  set (ante := map strip (split a (lit "^"))) in *.
  set (cons := map strip (split c (lit "^"))) in *.
  assert (Hr : exists atom, rule_atoms rule = Raise (UnparsableAtomError atom)).
  { unfold rule_atoms. rewrite Hp. simpl.
    destruct (parse_atoms_cases antecedent ante) as [(l & El)|(x & _ & El)].
    - destruct (empty_side a) eqn:Ea.
      + destruct (parse_atoms_empty antecedent ante (empty_side_atom a Ea))
          as (x & Ex).
        rewrite Ex. simpl. eauto.
      + simpl in He. rewrite El. simpl.
        destruct (parse_atoms_empty consequent cons (empty_side_atom c He))
          as (x & Ex).
        rewrite Ex. simpl. eauto.
    - rewrite El. simpl. eauto. }
  destruct Hr as (atom & Hr).
  exists (ante, cons), atom. repeat split.
  - exact Hp.
  - apply empty_side_atom.
  - apply empty_side_atom.
  - now apply generate_dot_raise.
Qed.

Lemma C9_empty_side_witness :
  exists sides atom,
    parse_swrl_rule (lit "-> A:C(?x)") = Ok sides
    /\ (empty_side [] = true -> In [] (fst sides))
    /\ (empty_side (lit " A:C(?x)") = true -> In [] (snd sides))
    /\ parse_atom [] = Raise (UnparsableAtomError [])
    /\ generate_dot quiet new_converter (lit "-> A:C(?x)") None
       = (Raise (UnparsableAtomError atom), reset new_converter, []).
Proof.
  apply (C9_empty_side quiet new_converter (lit "-> A:C(?x)")
           [] (lit " A:C(?x)") None).
  - vm_compute. reflexivity.
  - vm_compute. reflexivity.
Defined.

(** C10.  The patterns are tried at the start of the atom and need not
    reach its end: an atom that opens with the class-atom form is a class
    atom whatever follows its closing parenthesis, and an atom that opens
    with the property-atom form is a property atom whatever follows; the
    text that follows leaves the result as it is without it. *)
Theorem C10_unanchored_match :
  forall p n v ws o tail,
    wordb p = true -> wordb n = true -> wordb v = true ->
    blankb ws = true -> objectb o = true ->
    parse_atom (class_form p n v tail) = Ok (ClassAtom p n ("?"%char :: v))
    /\ parse_atom (class_form p n v tail) = parse_atom (class_form p n v [])
    /\ parse_atom (property_form p n v ws o tail)
       = Ok (PropertyAtom p n ("?"%char :: v) (strip o))
    /\ parse_atom (property_form p n v ws o tail)
       = parse_atom (property_form p n v ws o []).
Proof.
  intros p n v ws o tail Hp Hn Hv Hws Ho.
  rewrite !parse_class_form, !parse_property_form; auto.
Qed.

Lemma C10_unanchored_match_witness :
  parse_atom (lit "A:C(?x) trailing junk")
  = Ok (ClassAtom (lit "A") (lit "C") (lit "?x"))
  /\ parse_atom (lit "A:C(?x) trailing junk") = parse_atom (lit "A:C(?x)")
  /\ parse_atom (lit "A:C(?x, 5) trailing junk")
     = Ok (PropertyAtom (lit "A") (lit "C") (lit "?x") (lit "5"))
  /\ parse_atom (lit "A:C(?x, 5) trailing junk")
     = parse_atom (lit "A:C(?x, 5)").
Proof.
  exact (C10_unanchored_match (lit "A") (lit "C") (lit "x") (lit " ")
           (lit "5") (lit " trailing junk")
           eq_refl eq_refl eq_refl eq_refl eq_refl).
Defined.

(** * Further properties of the code *)

(** ** The atom classifier, from its results *)

Lemma parse_atom_form a x :
  parse_atom a = Ok x ->
  (exists p n v tail,
      wordb p = true /\ wordb n = true /\ wordb v = true
      /\ x = ClassAtom p n ("?"%char :: v)
      /\ a = class_form p n v tail)
  \/ (exists p n v ws o tail,
         wordb p = true /\ wordb n = true /\ wordb v = true
         /\ blankb ws = true /\ plainb o = true /\ 1 <= length o
         /\ x = PropertyAtom p n ("?"%char :: v) (strip o)
         /\ a = property_form p n v ws o tail
         /\ re_match class_pattern a = None).
Proof.
  unfold parse_atom.
  destruct (re_match class_pattern a) as [[g rest]|] eqn:Hc.
  - apply class_match_inv in Hc as (p & n & v & Hp & Hn & Hv & -> & E).
    intros H. injection H as <-. left. now exists p, n, v, rest.
  - destruct (re_match property_pattern a) as [[g rest]|] eqn:Hp;
      [|discriminate].
    apply property_match_inv in Hp
      as (p & n & v & ws & o & Hp & Hn & Hv & Hws & Ho & Hl & -> & E).
    intros H. injection H as <-. right.
    exists p, n, v, ws, o, rest. repeat split; trivial.
Qed.

(** X1.  An atom is classified as a class atom exactly when it opens
    with a name, a colon, a name and a variable in parentheses; the
    prefix, class and variable of the result are those of that
    opening. *)
Theorem X1_class_atoms :
  forall a p n var,
    parse_atom a = Ok (ClassAtom p n var)
    <-> exists v tail,
        var = "?"%char :: v
        /\ wordb p = true /\ wordb n = true /\ wordb v = true
        /\ a = class_form p n v tail.
Proof.
  intros a p n var. split.
  - intros H. apply parse_atom_form in H
      as [(p' & n' & v & tail & Hp & Hn & Hv & E & Ea)
         |(p' & n' & v & ws & o & tail & _ & _ & _ & _ & _ & _ & E & _)];
      [|discriminate].
    injection E as -> -> ->. now exists v, tail.
  - intros (v & tail & -> & Hp & Hn & Hv & ->). now apply parse_class_form.
Qed.

Lemma lstrip_stops s : stops isspace (lstrip s).
Proof.
  induction s as [|c s IH]; simpl; [exact I|].
  destruct (isspace c) eqn:E; [exact IH|exact E].
Qed.

Lemma lstrip_id s : stops isspace s -> lstrip s = s.
Proof. destruct s as [|c s]; simpl; [trivial|]. now intros ->. Qed.

Lemma rstrip_stops s : stops isspace s -> stops isspace (rstrip s).
Proof.
  intros H. destruct (rstrip_split s) as (u & _ & E).
  destruct (rstrip s) as [|c r]; [exact I|].
  rewrite E in H. exact H.
Qed.

Lemma strip_strip s : strip (strip s) = strip s.
Proof.
  unfold strip.
  rewrite (lstrip_id (rstrip (lstrip s)))
    by apply rstrip_stops, lstrip_stops.
  unfold rstrip. rewrite rev_involutive.
  now rewrite (lstrip_id (lstrip _)) by apply lstrip_stops.
Qed.

(** X2.  A property atom that [parse_atom] returns has a prefix and a
    property name of word characters and a subject that is a question
    mark and a name; its object is stripped and has no line break; and
    the atom did not match the class pattern. *)
Theorem X2_property_atoms :
  forall a p n s o,
    parse_atom a = Ok (PropertyAtom p n s o) ->
    wordb p = true /\ wordb n = true
    /\ (exists v, s = "?"%char :: v /\ wordb v = true)
    /\ strip o = o /\ plainb o = true
    /\ re_match class_pattern a = None
    /\ exists v ws o' tail,
        blankb ws = true /\ o = strip o'
        /\ a = property_form p n v ws o' tail.
Proof.
  intros a p n s o H. apply parse_atom_form in H
    as [(p' & n' & v & tail & _ & _ & _ & E & _)
       |(p' & n' & v & ws & o' & tail & Hp & Hn & Hv & Hws & Ho & _ & E
         & Ea & Hc)];
    [discriminate|].
  injection E as -> -> -> ->.
  repeat split; trivial.
  - now exists v.
  - apply strip_strip.
  - now apply strip_plain.
  - now exists v, ws, o', tail.
Qed.

Lemma X2_property_atoms_witness :
  wordb (lit "A") = true /\ wordb (lit "hasVal") = true
  /\ (exists v, lit "?x" = "?"%char :: v /\ wordb v = true)
  /\ strip (lit "5") = lit "5" /\ plainb (lit "5") = true
  /\ re_match class_pattern (lit "A:hasVal(?x,  5 )") = None
  /\ exists v ws o' tail,
      blankb ws = true /\ lit "5" = strip o'
      /\ lit "A:hasVal(?x,  5 )" = property_form (lit "A") (lit "hasVal") v
                                     ws o' tail.
Proof.
  apply (X2_property_atoms (lit "A:hasVal(?x,  5 )")).
  vm_compute. reflexivity.
Defined.

Ltac find_char :=
  repeat first
    [ apply in_elt | left; reflexivity | right | apply in_or_app; right ].

(** X3.  Whatever [parse_atom] accepts begins with a word character and
    has a colon, an opening parenthesis, a question mark and a closing
    parenthesis: an atom without one of them is refused. *)
Theorem X3_needed_characters :
  forall a x,
    parse_atom a = Ok x ->
    (exists c t, a = c :: t /\ in_cset Word c = true)
    /\ In ":"%char a /\ In "("%char a /\ In "?"%char a /\ In ")"%char a.
Proof.
  intros a x H.
  assert (Hw : forall p rest,
             wordb p = true ->
             exists c t, p ++ rest = c :: t /\ in_cset Word c = true).
  { intros [|c p] rest Hp; [discriminate|]. exists c, (p ++ rest).
    split; [reflexivity|]. simpl in Hp. now apply andb_prop in Hp as [Hc _]. }
  apply parse_atom_form in H
    as [(p & n & v & tail & Hp & _ & _ & _ & ->)
       |(p & n & v & ws & o & tail & Hp & _ & _ & _ & _ & _ & _ & -> & _)].
  - split; [now apply Hw|]. unfold class_form. repeat split; find_char.
  - split; [now apply Hw|]. unfold property_form. repeat split; find_char.
Qed.

Lemma X3_needed_characters_witness :
  (exists c t, lit "A:C(?x)" = c :: t /\ in_cset Word c = true)
  /\ In ":"%char (lit "A:C(?x)") /\ In "("%char (lit "A:C(?x)")
  /\ In "?"%char (lit "A:C(?x)") /\ In ")"%char (lit "A:C(?x)").
Proof.
  apply (X3_needed_characters (lit "A:C(?x)")
           (ClassAtom (lit "A") (lit "C") (lit "?x"))).
  vm_compute. reflexivity.
Defined.

Lemma X1_class_atoms_witness :
  parse_atom (lit "fisa:ExternalWall(?ew)")
  = Ok (ClassAtom (lit "fisa") (lit "ExternalWall") (lit "?ew")).
Proof.
  apply (proj2 (X1_class_atoms (lit "fisa:ExternalWall(?ew)") (lit "fisa")
                  (lit "ExternalWall") (lit "?ew"))).
  exists (lit "ew"), []. repeat split; reflexivity.
Defined.

(** ** A blank object *)





(** ** The errors of a call *)

Lemma parse_atoms_all p l :
  Forall (fun s => exists x, parse_atom s = Ok x) l ->
  exists atoms, parse_atoms p l = Ok atoms.
Proof.
  induction 1 as [|s l (x & Hx) _ (atoms & IH)]; [now exists []|].
  simpl. rewrite Hx, IH. simpl. eauto.
Qed.

Lemma parse_atoms_first p l1 a l2 :
  Forall (fun s => exists x, parse_atom s = Ok x) l1 ->
  (forall x, parse_atom a <> Ok x) ->
  parse_atoms p (l1 ++ a :: l2) = Raise (UnparsableAtomError a).
Proof.
  intros H1 Ha. induction H1 as [|s l (x & Hx) _ IH]; simpl.
  - destruct (parse_atom_cases a)
      as [(q & n & v & _ & _ & _ & E)
         |[(q & n & v & o & _ & _ & _ & _ & E)|E]];
      try (now destruct (Ha _ E)).
    now rewrite E.
  - now rewrite Hx, IH.
Qed.

Lemma rule_atoms_sides rule sa sc :
  parse_swrl_rule rule = Ok (sa, sc) ->
  rule_atoms rule
  = match parse_atoms antecedent sa with
    | Ok ante =>
        match parse_atoms consequent sc with
        | Ok rest => Ok (ante ++ rest)
        | Raise e => Raise e
        end
    | Raise e => Raise e
    end.
Proof.
  unfold rule_atoms. intros ->. cbn [bind fst snd].
  destruct (parse_atoms antecedent sa); [|reflexivity].
  now destruct (parse_atoms consequent sc).
Qed.

(** X5.  The error of a call names the first atom, antecedent before
    consequent and left to right, that is neither a class atom nor a
    property atom; the atoms after it are not looked at, and nothing is
    written. *)
Theorem X5_first_unparsable_atom :
  forall w self rule out sa sc before a after,
    parse_swrl_rule rule = Ok (sa, sc) ->
    sa ++ sc = before ++ a :: after ->
    Forall (fun s => exists x, parse_atom s = Ok x) before ->
    (forall x, parse_atom a <> Ok x) ->
    generate_dot w self rule out
    = (Raise (UnparsableAtomError a), reset self, []).
Proof.
  intros w self rule out sa sc before a after Hp E Hb Ha.
  apply generate_dot_raise. rewrite (rule_atoms_sides _ _ _ Hp).
  apply app_eq_app in E as (l & [[-> E]|[-> ->]]).
  - destruct l as [|x l].
    + simpl in E. subst sc.
      change (a :: after) with ([] ++ a :: after).
      rewrite (parse_atoms_first consequent [] a after (Forall_nil _) Ha).
      rewrite app_nil_r.
      now destruct (parse_atoms_all antecedent before Hb) as (atoms & ->).
    + injection E as <- ->.
      now rewrite (parse_atoms_first antecedent before a l Hb Ha).
  - apply Forall_app in Hb as [Hsa Hl].
    destruct (parse_atoms_all antecedent sa Hsa) as (atoms & ->).
    now rewrite (parse_atoms_first consequent l a after Hl Ha).
Qed.

Lemma X5_first_unparsable_atom_witness :
  generate_dot quiet new_converter (lit "A:B(?x) ^ oops -> nope ^ A:C(?x)")
               (Some (lit "rule.dot"))
  = (Raise (UnparsableAtomError (lit "oops")), reset new_converter, []).
Proof.
  apply (X5_first_unparsable_atom quiet new_converter
           (lit "A:B(?x) ^ oops -> nope ^ A:C(?x)") (Some (lit "rule.dot"))
           [lit "A:B(?x)"; lit "oops"] [lit "nope"; lit "A:C(?x)"]
           [lit "A:B(?x)"] (lit "oops") [lit "nope"; lit "A:C(?x)"]).
  - vm_compute. reflexivity.
  - reflexivity.
  - constructor; [|constructor]. eexists. vm_compute. reflexivity.
  - intros x. vm_compute. discriminate.
Defined.




(** ** The converter after a call *)





Lemma dict_append_keys (d : list (text * list cls_info)) key x k :
  In k (map fst (dict_append d key x)) <-> k = key \/ In k (map fst d).
Proof.
  induction d as [|[k0 v] d IH]; simpl.
  - intuition.
  - destruct (text_eqb_spec k0 key) as [->|Hne]; simpl.
    + intuition.
    + rewrite IH. intuition.
Qed.

Lemma dict_append_nodup (d : list (text * list cls_info)) key x :
  NoDup (map fst d) -> NoDup (map fst (dict_append d key x)).
Proof.
  induction d as [|[k0 v] d IH]; simpl; intros H.
  - repeat constructor. intros [].
  - destruct (text_eqb_spec k0 key) as [->|Hne]; simpl; [exact H|].
    inversion H as [|? ? Hk Hd]; subst. constructor; [|now apply IH].
    rewrite dict_append_keys. intros [E|Hin]; [congruence|contradiction].
Qed.

Lemma dict_append_items (d : list (text * list cls_info)) key x k l :
  In (k, l) (dict_append d key x) -> (k = key /\ l <> []) \/ In (k, l) d.
Proof.
  induction d as [|[k0 v] d IH]; simpl.
  - intros [E|[]]. injection E as <- <-. left. split; [reflexivity|discriminate].
  - destruct (text_eqb_spec k0 key) as [->|Hne]; simpl.
    + intros [E|H]; [|auto]. injection E as <- <-. left.
      split; [reflexivity|]. now destruct v.
    + intros [E|H]; [auto|]. destruct (IH H); auto.
Qed.

Lemma consistent_extract st a : consistent st -> consistent (extract st a).
Proof.
  intros (Hv & Hk & Hc & Hp).
  destruct a as [[q c v|q n sb o] pt]; unfold consistent; simpl.
  - repeat split.
    + now apply set_add_nodup.
    + now apply dict_append_nodup.
    + apply dict_append_items in H as [[_ H]|H]; [exact H|].
      now apply (Hc key l).
    + apply set_add_in. apply dict_append_items in H as [[-> _]|H];
        [now left|right; now apply (Hc key l)].
    + apply set_add_in. right. now apply Hp.
    + intros Ho. apply set_add_in. right. now apply Hp.
  - assert (Hin : forall x,
               In x (set_add sb (variables st)) ->
               In x (if startswith o (lit "?")
                     then set_add o (set_add sb (variables st))
                     else set_add sb (variables st))).
    { intros x Hx. destruct (startswith o _); [|exact Hx].
      apply set_add_in. now right. }
    repeat split.
    + destruct (startswith o _); repeat apply set_add_nodup; exact Hv.
    + exact Hk.
    + now apply (Hc key l).
    + apply Hin, set_add_in. right. now apply (Hc key l).
    + apply in_app_or in H as [H|[<-|[]]]; simpl.
      * apply Hin, set_add_in. right. now apply Hp.
      * apply Hin, set_add_in. now left.
    + apply in_app_or in H as [H|[<-|[]]]; simpl; intros Ho.
      * apply Hin, set_add_in. right. now apply Hp.
      * rewrite Ho. apply set_add_in. now left.
Qed.

Lemma consistent_build l : forall st, consistent st -> consistent (build st l).
Proof.
  induction l as [|a l IH]; intros st H; [exact H|].
  rewrite build_cons. now apply IH, consistent_extract.
Qed.

Lemma consistent_reset st : consistent (reset st).
Proof.
  unfold consistent. simpl. repeat split; try constructor; intros; contradiction.
Qed.

(** X8.  After any call, on any converter and however it ends, the
    variables the converter holds are a set, the keys of [classes] are
    distinct and each is a variable with at least one class, the subject
    of every property is a variable, and so is every object that opens
    with a question mark. *)
Theorem X8_consistent_converter :
  forall w self rule out,
    consistent (final (generate_dot w self rule out)).
Proof.
  intros w self rule out. unfold generate_dot, final.
  destruct (rule_atoms rule) as [l|e]; simpl.
  - destruct (save w out _). simpl.
    apply consistent_build, consistent_reset.
  - apply consistent_reset.
Qed.

(** ** The text of a rule that converts *)

Lemma converted w self rule out dot :
  outcome (generate_dot w self rule out) = Ok dot ->
  exists atoms,
    rule_atoms rule = Ok atoms
    /\ Forall well_formed atoms
    /\ split dot [nl] = dot_lines (build new_converter atoms).
Proof.
  intros H. destruct (outcome_ok _ _ _ _ _ H) as (atoms & Hr & ->).
  pose proof (rule_atoms_wf _ _ Hr) as Hwf.
  exists atoms. repeat split; trivial.
  apply split_join; [discriminate|now apply built_lines_plain].
Qed.

Lemma built_clean atoms :
  Forall well_formed atoms ->
  forall pr,
    In pr (properties (build new_converter atoms)) ->
    cleanb (prop_predicate pr) = true.
Proof.
  intros Hwf pr Hpr. rewrite build_properties in Hpr.
  now apply (wf_relations atoms Hwf).
Qed.

Lemma in_kind k (l : list text) e :
  In e l -> kind e = k -> In e (filter (is_kind k) l).
Proof. intros H E. apply filter_In. split; [exact H|now apply is_kind_spec]. Qed.

Ltac find_block :=
  repeat first
    [ apply in_or_app; left; apply in_map; apply sorted_in; assumption
    | apply in_or_app; right ].

Lemma class_line_in_text g c :
  In c (all_classes g) -> In (class_node c) (dot_lines g).
Proof.
  intros H. unfold dot_lines, class_lines. find_block.
Qed.

Lemma variable_line_in_text g v :
  In v (variables g) -> In (variable_node v) (dot_lines g).
Proof.
  intros H. unfold dot_lines, variable_lines. find_block.
Qed.

Lemma literal_line_in_text g l :
  In l (literals g) -> In (literal_node l) (dot_lines g).
Proof.
  intros H. unfold dot_lines, literal_lines. find_block.
Qed.

Lemma related_nodes atoms pr :
  In pr (relations atoms) ->
  In (prop_subject pr) (mentioned_variables atoms)
  /\ (if startswith (prop_object pr) (lit "?")
      then In (prop_object pr) (mentioned_variables atoms)
      else In (prop_object pr) (mentioned_literals atoms)).
Proof.
  unfold relations, mentioned_variables, mentioned_literals.
  rewrite !in_flat_map. intros ([a pt] & Ha & H).
  destruct a as [q c v|q n sb o]; [destruct H|]. destruct H as [<-|[]].
  simpl. split.
  - exists (PropertyAtom q n sb o, pt). split; [exact Ha|]. now left.
  - destruct (startswith o _) eqn:E; apply in_flat_map;
      exists (PropertyAtom q n sb o, pt); (split; [exact Ha|]); simpl;
      rewrite E; [right|]; now left.
Qed.

(** X9.  No edge of the text hangs loose.  Every rdf:type edge joins a
    class and a variable that the text declares as nodes; every property
    edge starts at a declared variable and ends at a declared variable,
    when its object opens with a question mark, and at a declared
    literal otherwise. *)
Theorem X9_edges_between_nodes :
  forall w self rule out dot,
    outcome (generate_dot w self rule out) = Ok dot ->
    forall e,
      In e (split dot [nl]) ->
      (kind e = KTypeEdge ->
       exists var ci,
         e = type_edge var ci
         /\ In (class_node (cls_class ci)) (split dot [nl])
         /\ In (variable_node var) (split dot [nl]))
      /\ (kind e = KPropertyEdge ->
          exists pr,
            e = property_edge pr
            /\ In (variable_node (prop_subject pr)) (split dot [nl])
            /\ (if startswith (prop_object pr) (lit "?")
                then In (variable_node (prop_object pr)) (split dot [nl])
                else In (literal_node (prop_object pr)) (split dot [nl]))).
Proof.
  intros w self rule out dot H e He.
  destruct (converted _ _ _ _ _ H) as (atoms & Hr & Hwf & Hl).
  rewrite Hl in *. set (g := build new_converter atoms) in *.
  destruct (dot_lines_by_kind g (built_clean atoms Hwf))
    as (_ & _ & _ & Kt & Kp).
  split; intros Hk; apply (in_kind _ _ _ He) in Hk.
  - rewrite Kt in Hk. unfold g in Hk. rewrite built_type_edges in Hk.
    apply in_flat_map in Hk as (var & Hv & Hk).
    apply in_map_iff in Hk as (ci & <- & Hci).
    apply in_assertions_about in Hci.
    exists var, ci. split; [reflexivity|]. split.
    + apply class_line_in_text, built_classes.
      unfold mentioned_classes. apply in_map_iff. now exists (var, ci).
    + apply variable_line_in_text. exact (proj1 (sorted_in _ _) Hv).
  - rewrite Kp in Hk. unfold g in Hk. rewrite built_property_edges in Hk.
    apply in_map_iff in Hk as (pr & <- & Hpr).
    exists pr. split; [reflexivity|].
    destruct (related_nodes atoms pr Hpr) as [Hs Ho]. split.
    + now apply variable_line_in_text, built_variables.
    + destruct (startswith (prop_object pr) (lit "?")).
      * now apply variable_line_in_text, built_variables.
      * now apply literal_line_in_text, built_literals.
Qed.

Lemma X9_edges_between_nodes_witness :
  exists dot pr,
    outcome (generate_dot quiet new_converter scenario_value None) = Ok dot
    /\ In (property_edge pr) (split dot [nl])
    /\ In (variable_node (prop_subject pr)) (split dot [nl])
    /\ In (literal_node (lit "5")) (split dot [nl]).
Proof.
  assert (H : exists dot,
             outcome (generate_dot quiet new_converter scenario_value None)
             = Ok dot).
  { eexists. vm_compute. reflexivity. }
  destruct H as (dot & H).
  set (pr := {| prop_subject := lit "?x"; prop_predicate := lit "A:hasVal";
                prop_object := lit "5"; prop_part := consequent |}).
  assert (He : In (property_edge pr) (split dot [nl])).
  { vm_compute in H. injection H as <-. vm_compute. tauto. }
  destruct (proj2 (X9_edges_between_nodes quiet new_converter scenario_value
                     None dot H (property_edge pr) He))
    as (pr' & E & Hs & Ho).
  { vm_compute. reflexivity. }
  assert (Hs' : In (variable_node (prop_subject pr)) (split dot [nl])).
  { vm_compute in H. injection H as <-. vm_compute. tauto. }
  assert (Hl : In (literal_node (lit "5")) (split dot [nl])).
  { vm_compute in H. injection H as <-. vm_compute. tauto. }
  exists dot, pr. auto.
Defined.

(** X10.  The text that [_create_dot_graph] gives does not depend on
    the order in which the set of variables is gone through: two
    converters that hold the same variables, listed in any two orders,
    and the same classes and properties give the same text. *)
Theorem X10_set_order :
  forall a b,
    NoDup (variables a) ->
    Permutation (variables a) (variables b) ->
    classes a = classes b -> properties a = properties b ->
    _create_dot_graph a = _create_dot_graph b.
Proof.
  intros a b Ha P Hc Hp.
  assert (Hb : NoDup (variables b)) by exact (Permutation_NoDup P Ha).
  assert (E : sorted (variables a) = sorted (variables b)).
  { apply strict_unique; try now apply sorted_strict.
    intros x. rewrite !sorted_in. split; apply Permutation_in;
      [exact P|now apply Permutation_sym]. }
  unfold _create_dot_graph, dot_lines, class_lines, variable_lines,
    literal_lines, type_edge_lines, property_edge_lines, all_classes,
    literals.
  now rewrite E, Hc, Hp.
Qed.

Lemma X10_set_order_witness :
  _create_dot_graph
    {| variables := [lit "?b"; lit "?a"]; classes := [];
       properties := []; atoms := [] |}
  = _create_dot_graph
      {| variables := [lit "?a"; lit "?b"]; classes := [];
         properties := []; atoms := [] |}.
Proof.
  apply X10_set_order; try reflexivity.
  - repeat constructor; simpl; intuition discriminate.
  - apply perm_swap.
Defined.

Lemma distinct_length (l m : list text) :
  NoDup l -> (forall x, In x l <-> In x m) ->
  length l = length (nodup text_eq_dec m).
Proof.
  intros Hl H. apply Permutation_length, NoDup_Permutation; trivial.
  - apply NoDup_nodup.
  - intros x. rewrite nodup_In. apply H.
Qed.

(** X11.  The text of a rule that converts opens with the line
    [digraph SWRL_Rule {] and closes with the line of the closing brace;
    between the fourteen lines that every text has it holds one line for
    each distinct class, variable and literal and one line for each atom
    of the rule. *)
Theorem X11_lines_of_text :
  forall w self rule out dot,
    outcome (generate_dot w self rule out) = Ok dot ->
    exists atoms,
      rule_atoms rule = Ok atoms
      /\ hd [] (split dot [nl]) = lit "digraph SWRL_Rule {"
      /\ last (split dot [nl]) [] = lit "}"
      /\ length (split dot [nl])
         = 14 + length (nodup text_eq_dec (mentioned_classes atoms))
           + length (nodup text_eq_dec (mentioned_variables atoms))
           + length (nodup text_eq_dec (mentioned_literals atoms))
           + length atoms.
Proof.
  intros w self rule out dot H.
  destruct (converted _ _ _ _ _ H) as (atoms & Hr & Hwf & ->).
  exists atoms. split; [exact Hr|]. split; [reflexivity|].
  set (g := build new_converter atoms).
  assert (Lc : length (class_lines g)
               = length (nodup text_eq_dec (mentioned_classes atoms))).
  { unfold class_lines. rewrite length_map. apply distinct_length.
    - apply strict_nodup, sorted_strict, built_classes_nodup.
    - intros x. rewrite sorted_in. apply built_classes. }
  assert (Lv : length (variable_lines g)
               = length (nodup text_eq_dec (mentioned_variables atoms))).
  { unfold variable_lines. rewrite length_map. apply distinct_length.
    - apply strict_nodup, sorted_strict, built_variables_nodup.
    - intros x. rewrite sorted_in. apply built_variables. }
  assert (Ll : length (literal_lines g)
               = length (nodup text_eq_dec (mentioned_literals atoms))).
  { unfold literal_lines. rewrite length_map. apply distinct_length.
    - apply strict_nodup, sorted_strict, built_literals_nodup.
    - intros x. rewrite sorted_in. apply built_literals. }
  assert (Lt : length (type_edge_lines g) = length (assertions atoms)).
  { unfold g. rewrite (Permutation_length (built_type_edges_perm atoms)).
    apply length_map. }
  assert (Lp : length (property_edge_lines g) = length (relations atoms)).
  { unfold g. rewrite built_property_edges. apply length_map. }
  pose proof (atoms_counted atoms) as Ha.
  split.
  - unfold dot_lines. rewrite !app_assoc. apply last_last.
  - unfold dot_lines. rewrite !length_app. simpl length. lia.
Qed.

Lemma X11_lines_of_text_witness :
  exists dot atoms,
    outcome (generate_dot quiet new_converter scenario_twice None) = Ok dot
    /\ rule_atoms scenario_twice = Ok atoms
    /\ hd [] (split dot [nl]) = lit "digraph SWRL_Rule {"
    /\ last (split dot [nl]) [] = lit "}"
    /\ length (split dot [nl])
       = 14 + length (nodup text_eq_dec (mentioned_classes atoms))
         + length (nodup text_eq_dec (mentioned_variables atoms))
         + length (nodup text_eq_dec (mentioned_literals atoms))
         + length atoms.
Proof.
  assert (H : exists dot,
             outcome (generate_dot quiet new_converter scenario_twice None)
             = Ok dot).
  { eexists. vm_compute. reflexivity. }
  destruct H as (dot & H).
  destruct (X11_lines_of_text quiet new_converter scenario_twice None dot H)
    as (atoms & Hr & H1 & H2 & H3).
  now exists dot, atoms.
Defined.

(** ** The splitter, from its results *)

Lemma startswith_longer p :
  forall s z, startswith s p = true -> startswith (s ++ z) p = true.
Proof.
  induction p as [|x p IH]; intros s z H; [reflexivity|].
  destruct s as [|c s]; [discriminate|].
  change ((c :: s) ++ z) with (c :: s ++ z).
  rewrite startswith_cons in *. apply andb_prop in H as [Hc H].
  now rewrite Hc, IH.
Qed.

Lemma count_sub_cons sep c s :
  count_sub sep (c :: s)
  = (if startswith (c :: s) sep then 1 else 0) + count_sub sep s.
Proof. reflexivity. Qed.

Lemma count_sub_right sep x : forall y, count_sub sep y <= count_sub sep (x ++ y).
Proof.
  induction x as [|c x IH]; intros y; [apply Nat.le_refl|].
  change ((c :: x) ++ y) with (c :: x ++ y). rewrite count_sub_cons.
  specialize (IH y). lia.
Qed.

Lemma count_sub_left sep y : forall z, count_sub sep y <= count_sub sep (y ++ z).
Proof.
  induction y as [|c y IH]; intros z; [apply Nat.le_0_l|].
  change ((c :: y) ++ z) with (c :: y ++ z). rewrite !count_sub_cons.
  specialize (IH z).
  destruct (startswith (c :: y) sep) eqn:E; [|lia].
  change (c :: y ++ z) with ((c :: y) ++ z).
  rewrite (startswith_longer sep (c :: y) z E). lia.
Qed.

Lemma count_sub_infix sep x y z :
  count_sub sep (x ++ y ++ z) = 0 -> count_sub sep y = 0.
Proof.
  intros H. pose proof (count_sub_right sep x (y ++ z)).
  pose proof (count_sub_left sep y z). lia.
Qed.

Lemma split_arrow_one_free :
  forall s cur,
    count_sub (lit "->") s = 1 ->
    exists a c,
      s = a ++ lit "->" ++ c
      /\ count_sub (lit "->") a = 0 /\ count_sub (lit "->") c = 0
      /\ split_from (lit "->") s 0 cur = [rev cur ++ a; c].
Proof.
  induction s as [|x t IH]; intros cur H; [discriminate|].
  rewrite split_arrow_cons. rewrite count_sub_cons in H.
  destruct (startswith (x :: t) (lit "->")) eqn:E.
  - apply startswith_arrow in E as (t' & E). injection E as -> ->.
    change (count_sub (lit "->") (">"%char :: t'))
      with (count_sub (lit "->") t') in H.
    assert (H0 : count_sub (lit "->") t' = 0) by lia.
    exists [], t'. repeat split; trivial.
    change (split_from (lit "->") (">"%char :: t') 1 [])
      with (split_from (lit "->") t' 0 []).
    rewrite (split_arrow_none _ _ H0). now rewrite app_nil_r.
  - destruct (IH (x :: cur) H) as (a & c & -> & Ha & Hc & Hs).
    exists (x :: a), c. repeat split; trivial.
    + rewrite count_sub_cons, Ha.
      destruct (startswith (x :: a) (lit "->")) eqn:E'; [|reflexivity].
      apply (startswith_longer _ _ (lit "->" ++ c)) in E'.
      simpl app in E, E'. congruence.
    + rewrite Hs. simpl. now rewrite <- app_assoc.
Qed.

Lemma split_arrow_two rule a c :
  split rule (lit "->") = [a; c] ->
  rule = a ++ lit "->" ++ c
  /\ count_sub (lit "->") a = 0 /\ count_sub (lit "->") c = 0.
Proof.
  intros H.
  assert (H1 : count_sub (lit "->") rule = 1).
  { pose proof (split_arrow_length _ rule [] (le_n _)) as L.
    unfold split in H. rewrite H in L. cbn [length] in L. lia. }
  destruct (split_arrow_one_free rule [] H1) as (a' & c' & E & Ha & Hc & Hs).
  unfold split in H. rewrite Hs in H. simpl in H. injection H as <- <-.
  auto.
Qed.

Lemma parse_swrl_rule_inv rule sa sc :
  parse_swrl_rule rule = Ok (sa, sc) ->
  exists a c,
    split rule (lit "->") = [a; c]
    /\ sa = map strip (split a (lit "^"))
    /\ sc = map strip (split c (lit "^")).
Proof.
  unfold parse_swrl_rule.
  destruct (split rule (lit "->")) as [|a [|c [|x l]]]; try discriminate.
  rewrite !caret_atoms. intros H. injection H as <- <-. now exists a, c.
Qed.

Lemma split_caret_count :
  forall s cur,
    length (split_from (lit "^") s 0 cur)
    = S (count_occ ascii_dec s "^"%char).
Proof.
  induction s as [|c s IH]; intros cur; [reflexivity|].
  rewrite split_caret_cons. simpl count_occ.
  destruct (Ascii.eqb_spec c "^") as [->|Hne].
  - destruct (ascii_dec "^" "^"); [|congruence]. simpl. now rewrite IH.
  - destruct (ascii_dec c "^"); [congruence|]. apply IH.
Qed.

(** X12.  The text of a rule that converts has one edge for each atom,
    that is, two more edges than the rule has carets. *)
Theorem X12_edges_and_carets :
  forall w self rule out dot,
    outcome (generate_dot w self rule out) = Ok dot ->
    length (filter (is_kind KTypeEdge) (split dot [nl]))
    + length (filter (is_kind KPropertyEdge) (split dot [nl]))
    = count_occ ascii_dec rule "^"%char + 2.
Proof.
  intros w self rule out dot H.
  destruct (converted _ _ _ _ _ H) as (atoms & Hr & Hwf & ->).
  destruct (dot_lines_by_kind _ (built_clean atoms Hwf))
    as (_ & _ & _ & -> & ->).
  rewrite (Permutation_length (built_type_edges_perm atoms)).
  rewrite built_property_edges, !length_map, atoms_counted.
  destruct (rule_atoms_inv _ _ Hr) as (sa & sc & ante & cons & Hp & Fa & Fc & ->).
  apply parse_swrl_rule_inv in Hp as (a & c & Hs & -> & ->).
  apply split_arrow_two in Hs as (-> & _ & _).
  rewrite length_app, <- (Forall2_length Fa), <- (Forall2_length Fc).
  rewrite !length_map. unfold split. rewrite !split_caret_count.
  rewrite !count_occ_app. simpl count_occ. lia.
Qed.

Lemma X12_edges_and_carets_witness :
  exists dot,
    outcome (generate_dot quiet new_converter scenario_twice None) = Ok dot
    /\ length (filter (is_kind KTypeEdge) (split dot [nl]))
       + length (filter (is_kind KPropertyEdge) (split dot [nl]))
       = 3.
Proof.
  assert (H : exists dot,
             outcome (generate_dot quiet new_converter scenario_twice None)
             = Ok dot).
  { eexists. vm_compute. reflexivity. }
  destruct H as (dot & H). exists dot. split; [exact H|].
  exact (X12_edges_and_carets quiet new_converter scenario_twice None dot H).
Defined.

Lemma split_caret_pieces_free :
  forall s cur,
    ~ In "^"%char cur ->
    Forall (fun x => ~ In "^"%char x) (split_from (lit "^") s 0 cur).
Proof.
  induction s as [|c s IH]; intros cur Hcur.
  - simpl. constructor; [|constructor]. now rewrite <- in_rev.
  - rewrite split_caret_cons. destruct (Ascii.eqb_spec c "^") as [->|Hne].
    + constructor; [now rewrite <- in_rev|]. apply IH. intros [].
    + apply IH. intros [E|H]; [congruence|contradiction].
Qed.

Lemma split_caret_infix :
  forall s cur piece,
    In piece (split_from (lit "^") s 0 cur) ->
    exists x z, rev cur ++ s = x ++ piece ++ z.
Proof.
  induction s as [|c s IH]; intros cur piece H.
  - destruct H as [<-|[]]. exists [], []. reflexivity.
  - rewrite split_caret_cons in H. destruct (Ascii.eqb c "^").
    + destruct H as [<-|H].
      * exists [], (c :: s). reflexivity.
      * destruct (IH [] piece H) as (x & z & E). simpl in E.
        exists (rev cur ++ c :: x), z. rewrite E.
        now rewrite <- app_assoc.
    + destruct (IH (c :: cur) piece H) as (x & z & E).
      exists x, z. rewrite <- E. simpl. now rewrite <- app_assoc.
Qed.

Lemma stripped_tidy side piece :
  count_sub (lit "->") side = 0 ->
  In piece (split side (lit "^")) -> tidy (strip piece).
Proof.
  intros Hside Hin.
  destruct (strip_split piece) as (v & u & _ & _ & Ep).
  repeat split.
  - apply strip_strip.
  - intros Hc.
    pose proof (split_caret_pieces_free side [] (fun H => H)) as F.
    rewrite Forall_forall in F. apply (F piece Hin).
    rewrite Ep. apply in_or_app. right. apply in_or_app. now left.
  - destruct (split_caret_infix side [] piece Hin) as (x & z & E).
    simpl in E. rewrite E, Ep in Hside.
    apply (count_sub_infix _ (x ++ v) _ (u ++ z)).
    now rewrite <- !app_assoc in *.
Qed.

Lemma parsed_tidy rule sa sc :
  parse_swrl_rule rule = Ok (sa, sc) ->
  sa <> [] /\ sc <> [] /\ Forall tidy (sa ++ sc).
Proof.
  intros H.
  apply parse_swrl_rule_inv in H as (a & c & Hs & -> & ->).
  apply split_arrow_two in Hs as (_ & Ha & Hc).
  assert (Hne : forall side, map strip (split side (lit "^")) <> []).
  { intros side E. apply (f_equal (@length text)) in E.
    rewrite length_map in E. unfold split in E.
    rewrite split_caret_count in E. discriminate. }
  repeat split; try apply Hne.
  apply Forall_app. split; apply Forall_forall; intros x Hx;
    apply in_map_iff in Hx as (piece & <- & Hin);
    refine (stripped_tidy _ piece _ Hin); assumption.
Qed.

(** X13.  Each side of a rule that the splitter accepts yields at least
    one atom, and every atom it yields is stripped and holds neither a
    caret nor an arrow. *)
Theorem X13_tidy_atoms :
  forall rule sa sc,
    parse_swrl_rule rule = Ok (sa, sc) ->
    sa <> [] /\ sc <> [] /\ Forall tidy (sa ++ sc).
Proof. exact parsed_tidy. Qed.

Lemma X13_tidy_atoms_witness :
  [lit "A:B(?x)"; lit "A:p(?x, 1)"] <> []
  /\ [lit "A:C(?x)"] <> []
  /\ Forall tidy ([lit "A:B(?x)"; lit "A:p(?x, 1)"] ++ [lit "A:C(?x)"]).
Proof.
  apply (X13_tidy_atoms (lit "  A:B(?x)^A:p(?x, 1)   ->  A:C(?x) ")).
  vm_compute. reflexivity.
Defined.

Lemma count_arrow_glue a c b :
  c <> ">"%char ->
  count_sub (lit "->") (a ++ c :: b)
  = count_sub (lit "->") a + count_sub (lit "->") (c :: b).
Proof.
  intros Hc. induction a as [|x a IH]; [reflexivity|].
  change ((x :: a) ++ c :: b) with (x :: a ++ c :: b).
  rewrite (count_sub_cons _ x (a ++ c :: b)), (count_sub_cons _ x a), IH.
  assert (E : startswith (x :: a ++ c :: b) (lit "->")
              = startswith (x :: a) (lit "->")).
  { change (lit "->") with ["-"%char; ">"%char].
    destruct a as [|y a]; simpl app; rewrite !startswith_cons.
    - destruct (Ascii.eqb_spec c ">"); [contradiction|].
      change (startswith [] [">"%char]) with false.
      cbn [andb]. now rewrite !andb_false_r.
    - reflexivity. }
  rewrite E. lia.
Qed.

Lemma count_arrow_join A :
  Forall (fun a => count_sub (lit "->") a = 0) A ->
  count_sub (lit "->") (join (lit " ^ ") A) = 0.
Proof.
  induction 1 as [|a A Ha HA IH]; [reflexivity|].
  destruct A as [|b A]; [exact Ha|].
  change (join (lit " ^ ") (a :: b :: A))
    with (a ++ " "%char :: "^"%char :: " "%char :: join (lit " ^ ") (b :: A)).
  rewrite count_arrow_glue by discriminate.
  rewrite Ha, !count_sub_cons, IH. reflexivity.
Qed.

Lemma split_arrow_free a c rest :
  count_sub (lit "->") a = 0 -> c <> ">"%char ->
  forall cur,
    split_from (lit "->") (a ++ c :: rest) 0 cur
    = split_from (lit "->") (c :: rest) 0 (rev a ++ cur).
Proof.
  intros Ha Hc. induction a as [|x a IH]; intros cur; [reflexivity|].
  change ((x :: a) ++ c :: rest) with (x :: a ++ c :: rest).
  pose proof (count_arrow_glue (x :: a) c rest Hc) as G.
  change ((x :: a) ++ c :: rest) with (x :: a ++ c :: rest) in G.
  rewrite count_sub_cons in Ha. rewrite split_arrow_cons.
  destruct (startswith (x :: a ++ c :: rest) (lit "->")) eqn:E.
  - exfalso.
    rewrite (count_sub_cons _ x (a ++ c :: rest)), E in G.
    rewrite (count_sub_cons _ x a), (count_arrow_glue a c rest Hc) in G.
    destruct (startswith (x :: a) (lit "->")); lia.
  - rewrite IH by (destruct (startswith (x :: a) (lit "->")); lia).
    simpl. now rewrite <- app_assoc.
Qed.

Lemma split_canonical ja jc :
  count_sub (lit "->") ja = 0 -> count_sub (lit "->") jc = 0 ->
  split (ja ++ lit " -> " ++ jc) (lit "->")
  = [ja ++ lit " "; " "%char :: jc].
Proof.
  intros Ha Hc. unfold split.
  change (ja ++ lit " -> " ++ jc)
    with (ja ++ " "%char :: "-"%char :: ">"%char :: " "%char :: jc).
  rewrite split_arrow_free by (trivial; discriminate).
  rewrite split_arrow_cons.
  change (startswith (" "%char :: "-"%char :: ">"%char :: " "%char :: jc)
                     (lit "->")) with false.
  cbv iota. rewrite split_arrow_cons.
  change (startswith ("-"%char :: ">"%char :: " "%char :: jc) (lit "->"))
    with true.
  cbv iota.
  change (split_from (lit "->") (">"%char :: " "%char :: jc) 1 [])
    with (split_from (lit "->") (" "%char :: jc) 0 []).
  rewrite split_arrow_none.
  - simpl. now rewrite app_nil_r, rev_involutive.
  - rewrite count_sub_cons. exact Hc.
Qed.

Lemma split_caret_free a :
  ~ In "^"%char a ->
  forall s cur,
    split_from (lit "^") (a ++ s) 0 cur
    = split_from (lit "^") s 0 (rev a ++ cur).
Proof.
  induction a as [|x a IH]; intros Ha s cur; [reflexivity|].
  change ((x :: a) ++ s) with (x :: a ++ s). rewrite split_caret_cons.
  destruct (Ascii.eqb_spec x "^") as [->|Hne]; [destruct Ha; now left|].
  rewrite IH by (intros H; apply Ha; now right).
  simpl. now rewrite <- app_assoc.
Qed.

Lemma split_join_caret u :
  blankb u = true ->
  forall A cur,
    A <> [] ->
    Forall (fun a => strip a = a /\ ~ In "^"%char a) A ->
    blankb cur = true ->
    map strip (split_from (lit "^") (join (lit " ^ ") A ++ u) 0 cur) = A.
Proof.
  intros Hu A. induction A as [|a A IH]; intros cur Hne HA Hcur;
    [congruence|].
  inversion HA as [|? ? [Hs Hc] HA']; subst.
  destruct A as [|b A].
  - simpl join. rewrite split_caret_free, split_caret_all_blank; trivial.
    simpl. rewrite rev_app_distr, rev_involutive, <- app_assoc.
    rewrite strip_blank_l, strip_blank_r, Hs; trivial.
    now rewrite blankb_rev.
  - change (join (lit " ^ ") (a :: b :: A) ++ u)
      with ((a ++ " "%char :: "^"%char :: " "%char
               :: join (lit " ^ ") (b :: A)) ++ u).
    rewrite <- app_assoc. simpl app.
    rewrite split_caret_free by exact Hc.
    rewrite split_caret_cons. simpl Ascii.eqb. cbv iota.
    rewrite split_caret_cons. simpl Ascii.eqb. cbv iota.
    rewrite split_caret_cons. simpl Ascii.eqb. cbv iota.
    simpl map. f_equal.
    + rewrite rev_app_distr, rev_involutive.
      change (rev cur ++ a) with (rev cur ++ a).
      rewrite <- app_assoc.
      rewrite strip_blank_l by (now rewrite blankb_rev).
      now rewrite strip_blank_r.
    + apply IH; trivial. discriminate.
Qed.

Lemma canonical_parses ante cons :
  ante <> [] -> cons <> [] -> Forall tidy (ante ++ cons) ->
  parse_swrl_rule (canonical ante cons) = Ok (ante, cons).
Proof.
  revert ante cons. intros A C HA HC Ht. apply Forall_app in Ht as [TA TC].
  assert (Ja : count_sub (lit "->") (join (lit " ^ ") A) = 0).
  { apply count_arrow_join. eapply Forall_impl; [|exact TA].
    now intros a (_ & _ & H). }
  assert (Jc : count_sub (lit "->") (join (lit " ^ ") C) = 0).
  { apply count_arrow_join. eapply Forall_impl; [|exact TC].
    now intros a (_ & _ & H). }
  unfold canonical.
  rewrite (parse_swrl_rule_sides _ _ _ (split_canonical _ _ Ja Jc)).
  unfold split. f_equal. f_equal.
  - apply split_join_caret; trivial.
    eapply Forall_impl; [|exact TA]. now intros a (H1 & H2 & _).
  - rewrite split_caret_cons. simpl Ascii.eqb. cbv iota.
    rewrite <- (app_nil_r (join (lit " ^ ") C)).
    apply split_join_caret; trivial.
    eapply Forall_impl; [|exact TC]. now intros a (H1 & H2 & _).
Qed.

(** X14.  Atoms put back together parse to themselves: for two lists,
    neither of them empty, of atoms that are stripped and hold neither a
    caret nor an arrow, the rule that joins the atoms of each list with a
    caret and the two lists with an arrow is split into these same
    lists. *)
Theorem X14_join_then_split :
  forall ante cons,
    ante <> [] -> cons <> [] -> Forall tidy (ante ++ cons) ->
    parse_swrl_rule (canonical ante cons) = Ok (ante, cons).
Proof. exact canonical_parses. Qed.

Lemma X14_join_then_split_witness :
  parse_swrl_rule (lit "A:B(?x) ^ A:p(?x, 1) -> A:C(?x)")
  = Ok ([lit "A:B(?x)"; lit "A:p(?x, 1)"], [lit "A:C(?x)"]).
Proof.
  apply (X14_join_then_split [lit "A:B(?x)"; lit "A:p(?x, 1)"]
           [lit "A:C(?x)"]); try discriminate.
  repeat constructor; try (vm_compute; intuition discriminate).
Defined.

(** X15.  Splitting comes to rest after one round: the atoms that the
    splitter gives for a rule, joined again with carets and an arrow,
    are split into the same atoms. *)
Theorem X15_split_twice :
  forall rule sa sc,
    parse_swrl_rule rule = Ok (sa, sc) ->
    parse_swrl_rule (canonical sa sc) = Ok (sa, sc).
Proof.
  intros rule sa sc H. apply parsed_tidy in H as (Ha & Hc & Ht).
  now apply canonical_parses.
Qed.

Lemma X15_split_twice_witness :
  parse_swrl_rule (lit "A:B(?x) ^ A:p(?x, 1) -> A:C(?x)")
  = Ok ([lit "A:B(?x)"; lit "A:p(?x, 1)"], [lit "A:C(?x)"]).
Proof.
  refine (X15_split_twice (lit "  A:B(?x)^A:p(?x, 1)   ->  A:C(?x) ")
            [lit "A:B(?x)"; lit "A:p(?x, 1)"] [lit "A:C(?x)"] _).
  vm_compute. reflexivity.
Defined.

(** ** The module's functions *)

(** X16.  [swrl_to_dot] called without a path writes to [output.dot]:
    for a rule that converts, when the file system lets that file be
    opened and written, it returns the DOT text and writes exactly that
    text there; for a rule that does not convert it raises the error and
    touches no file.  Called with [None] for a path it returns the
    outcome of the rule and writes nothing. *)
Theorem X16_default_output :
  forall w rule,
    (forall dot,
        dot_text rule = Ok dot ->
        open_ok w (lit "output.dot") = true ->
        write_ok w (lit "output.dot") dot = true ->
        swrl_to_dot w rule None
        = (Ok dot,
           [Open (lit "output.dot"); Write (lit "output.dot") dot;
            Close (lit "output.dot");
            Print (lit "DOT file saved to: output.dot")]))
    /\ (forall e, dot_text rule = Raise e ->
                  swrl_to_dot w rule None = (Raise e, []))
    /\ swrl_to_dot w rule (Some None) = (dot_text rule, []).
Proof.
  intros w rule. unfold swrl_to_dot.
  assert (E : forall out,
             generate_dot w new_converter rule out
             = (outcome (generate_dot w new_converter rule out),
                final (generate_dot w new_converter rule out),
                trace (generate_dot w new_converter rule out))).
  { intros out. now destruct (generate_dot w new_converter rule out) as [[? ?] ?]. }
  repeat split.
  - intros dot Hd Ho Hw. rewrite E.
    rewrite (proj1 (generate_dot_outcome w new_converter rule _)).
    rewrite (proj2 (generate_dot_outcome w new_converter rule _)).
    rewrite Hd. unfold save, truthy.
    change (lit "output.dot") with ("o"%char :: lit "utput.dot") at 1 2 3 4 5.
    cbv iota.
    change ("o"%char :: lit "utput.dot") with (lit "output.dot").
    now rewrite Ho, Hw.
  - intros e He. rewrite E.
    rewrite (proj1 (generate_dot_outcome w new_converter rule _)).
    rewrite (proj2 (generate_dot_outcome w new_converter rule _)).
    now rewrite He.
  - rewrite E.
    rewrite (proj1 (generate_dot_outcome w new_converter rule _)).
    rewrite (proj2 (generate_dot_outcome w new_converter rule _)).
    now destruct (dot_text rule).
Qed.

Lemma X16_default_output_witness :
  (exists dot,
      swrl_to_dot quiet scenario_value None
      = (Ok dot,
         [Open (lit "output.dot"); Write (lit "output.dot") dot;
          Close (lit "output.dot");
          Print (lit "DOT file saved to: output.dot")]))
  /\ swrl_to_dot quiet (lit "A:B(?x)") None = (Raise MalformedRuleError, []).
Proof.
  destruct (X16_default_output quiet scenario_value) as (H1 & _ & _).
  destruct (X16_default_output quiet (lit "A:B(?x)")) as (_ & H2 & _).
  split.
  - eexists. apply H1; [vm_compute; reflexivity|reflexivity|reflexivity].
  - apply H2. vm_compute. reflexivity.
Defined.

Lemma replace_split old :
  forall s skip cur,
    concat (split_from old s skip cur)
    = rev cur ++ replace_from old [] s skip.
Proof.
  induction s as [|c s IH]; intros skip cur.
  - simpl. now rewrite !app_nil_r.
  - cbn [split_from replace_from]. destruct skip as [|n]; [|apply IH].
    destruct (startswith (c :: s) old).
    + cbn [concat]. now rewrite IH.
    + rewrite IH. simpl. now rewrite <- app_assoc.
Qed.

Lemma replace_absent old new :
  forall s, count_sub old s = 0 -> replace_from old new s 0 = s.
Proof.
  induction s as [|c s IH]; intros H; [reflexivity|].
  rewrite count_sub_cons in H. cbn [replace_from].
  destruct (startswith (c :: s) old); [discriminate|].
  now rewrite IH.
Qed.

Lemma replace_suffix :
  forall base,
    count_sub (lit ".pdf") (base ++ lit ".pdf") = 1 ->
    replace_from (lit ".pdf") [] (base ++ lit ".pdf") 0 = base.
Proof.
  induction base as [|c base IH]; intros H; [reflexivity|].
  change ((c :: base) ++ lit ".pdf") with (c :: base ++ lit ".pdf") in *.
  rewrite count_sub_cons in H.
  pose proof (count_sub_right (lit ".pdf") base (lit ".pdf")) as G.
  change (count_sub (lit ".pdf") (lit ".pdf")) with 1 in G.
  cbn [replace_from].
  destruct (startswith (c :: base ++ lit ".pdf") (lit ".pdf")); [lia|].
  rewrite IH; [reflexivity|lia].
Qed.

(** X17.  For an output path that ends in [.pdf] and has these four
    characters nowhere else, the name that [swrl_to_pdf] hands to the
    renderer is the path without its extension. *)
Theorem X17_render_name_of_pdf :
  forall base,
    count_sub (lit ".pdf") (base ++ lit ".pdf") = 1 ->
    render_name (base ++ lit ".pdf") = base.
Proof. exact replace_suffix. Qed.

Lemma X17_render_name_of_pdf_witness :
  render_name (lit "my_rule.pdf") = lit "my_rule".
Proof.
  apply (X17_render_name_of_pdf (lit "my_rule")). vm_compute. reflexivity.
Defined.

(** X18.  The name handed to the renderer is the output path with every
    [.pdf] taken out of it, wherever it stands, not only an extension:
    it is the pieces of the path between the occurrences of [.pdf], put
    end to end; a path without [.pdf] is handed over as it is. *)
Theorem X18_render_name_everywhere :
  forall output_pdf,
    render_name output_pdf = concat (split output_pdf (lit ".pdf"))
    /\ (count_sub (lit ".pdf") output_pdf = 0 ->
        render_name output_pdf = output_pdf).
Proof.
  intros p. unfold render_name, replace, split. split.
  - now rewrite replace_split.
  - apply replace_absent.
Qed.

Lemma X18_render_name_everywhere_witness :
  render_name (lit "rules.pdf.d/out.pdf") = lit "rules.d/out"
  /\ render_name (lit "out") = lit "out".
Proof.
  split.
  - rewrite (proj1 (X18_render_name_everywhere (lit "rules.pdf.d/out.pdf"))).
    vm_compute. reflexivity.
  - apply (proj2 (X18_render_name_everywhere (lit "out"))).
    vm_compute. reflexivity.
Defined.

(** ** Names of more than one kind *)

Lemma clean_not_variable name :
  cleanb name = true -> startswith name (lit "?") = false.
Proof.
  destruct name as [|c name]; [reflexivity|]. intros H.
  change (lit "?") with ["?"%char]. rewrite startswith_cons, startswith_nil.
  simpl in H. apply andb_prop in H as [H _].
  destruct (Ascii.eqb_spec c "?") as [->|]; [discriminate H|reflexivity].
Qed.

(** X19.  Nodes are told apart by kind only: a name that a rule uses
    as a class and also as the object of a property is declared twice in
    the text, once as a class node and once as a literal node. *)
Theorem X19_class_and_literal :
  forall w self rule out dot atoms p n v pt q m sb pt',
    outcome (generate_dot w self rule out) = Ok dot ->
    rule_atoms rule = Ok atoms ->
    In (ClassAtom p n v, pt) atoms ->
    In (PropertyAtom q m sb (p ++ lit ":" ++ n), pt') atoms ->
    In (class_node (p ++ lit ":" ++ n)) (split dot [nl])
    /\ In (literal_node (p ++ lit ":" ++ n)) (split dot [nl]).
Proof.
  intros w self rule out dot atoms p n v pt q m sb pt' H Hr Hc Hp.
  destruct (converted _ _ _ _ _ H) as (atoms' & Hr' & Hwf & ->).
  rewrite Hr in Hr'. injection Hr' as <-.
  assert (Hclean : cleanb (p ++ lit ":" ++ n) = true).
  { rewrite Forall_forall in Hwf. now destruct (Hwf _ Hc). }
  split.
  - apply class_line_in_text, built_classes.
    unfold mentioned_classes, assertions. apply in_map_iff.
    exists (v, {| cls_class := p ++ lit ":" ++ n; cls_part := pt |}).
    split; [reflexivity|]. apply in_flat_map.
    exists (ClassAtom p n v, pt). split; [exact Hc|]. now left.
  - apply literal_line_in_text, built_literals.
    unfold mentioned_literals. apply in_flat_map.
    exists (PropertyAtom q m sb (p ++ lit ":" ++ n), pt').
    split; [exact Hp|]. cbn [literals_of].
    rewrite (clean_not_variable _ Hclean). now left.
Qed.

Lemma X19_class_and_literal_witness :
  exists dot,
    outcome (generate_dot quiet new_converter
               (lit "A:B(?x) -> A:p(?x, A:B)") None) = Ok dot
    /\ In (class_node (lit "A:B")) (split dot [nl])
    /\ In (literal_node (lit "A:B")) (split dot [nl]).
Proof.
  assert (H : exists dot,
             outcome (generate_dot quiet new_converter
                        (lit "A:B(?x) -> A:p(?x, A:B)") None) = Ok dot).
  { eexists. vm_compute. reflexivity. }
  destruct H as (dot & H). exists dot. split; [exact H|].
  apply (X19_class_and_literal quiet new_converter
           (lit "A:B(?x) -> A:p(?x, A:B)") None dot
           [(ClassAtom (lit "A") (lit "B") (lit "?x"), antecedent);
            (PropertyAtom (lit "A") (lit "p") (lit "?x") (lit "A:B"),
             consequent)]
           (lit "A") (lit "B") (lit "?x") antecedent
           (lit "A") (lit "p") (lit "?x") consequent H).
  - vm_compute. reflexivity.
  - now left.
  - right. now left.
Defined.

Lemma parsed_variables p l atoms :
  Forall2 (fun s a => parse_atom s = Ok (fst a) /\ snd a = p) l atoms ->
  forall x,
    In x (mentioned_variables atoms) -> startswith x (lit "?") = true.
Proof.
  induction 1 as [|s [a pt] l atoms [Hs _] _ IH]; intros x Hx;
    [destruct Hx|].
  unfold mentioned_variables in Hx. cbn [flat_map] in Hx.
  apply in_app_or in Hx as [Hx|Hx]; [|now apply IH].
  simpl in Hs. apply parse_atom_form in Hs
    as [(q & n & v & tail & _ & _ & _ & -> & _)
       |(q & n & v & ws & o & tail & _ & _ & _ & _ & _ & _ & -> & _)];
    simpl in Hx.
  - now destruct Hx as [<-|[]].
  - destruct Hx as [<-|Hx]; [reflexivity|].
    destruct (startswith (strip o) _) eqn:E; [|destruct Hx].
    now destruct Hx as [<-|[]].
Qed.

Lemma mentioned_variables_app a b :
  mentioned_variables (a ++ b)
  = mentioned_variables a ++ mentioned_variables b.
Proof. apply flat_map_app. Qed.

Lemma literal_not_variable atoms x :
  In x (mentioned_literals atoms) -> startswith x (lit "?") = false.
Proof.
  unfold mentioned_literals. rewrite in_flat_map.
  intros ([a pt] & _ & H). destruct a as [q c v|q n sb o]; [destruct H|].
  simpl in H. destruct (startswith o _) eqn:E; [destruct H|].
  now destruct H as [<-|[]].
Qed.

Lemma node_declared (f : text -> text) k (block : list text) l x :
  (forall a b, f a = f b -> a = b) ->
  kind (f x) = k ->
  filter (is_kind k) l = map f block ->
  In (f x) l -> In x block.
Proof.
  intros Hf Hk Hb Hin. apply (in_kind k) in Hin; [|exact Hk].
  rewrite Hb in Hin. apply in_map_iff in Hin as (y & E & Hy).
  apply Hf in E. now subst y.
Qed.

(** X20.  A name that the text of a rule declares as a variable node is
    declared neither as a literal node nor as a class node: variables
    open with a question mark, literals and classes do not. *)
Theorem X20_variables_apart :
  forall w self rule out dot,
    outcome (generate_dot w self rule out) = Ok dot ->
    forall x,
      In (variable_node x) (split dot [nl]) ->
      startswith x (lit "?") = true
      /\ ~ In (literal_node x) (split dot [nl])
      /\ ~ In (class_node x) (split dot [nl]).
Proof.
  intros w self rule out dot H x Hx.
  destruct (converted _ _ _ _ _ H) as (atoms & Hr & Hwf & Hl).
  rewrite Hl in *. set (g := build new_converter atoms) in *.
  destruct (dot_lines_by_kind g (built_clean atoms Hwf))
    as (Kc & Kv & Kl & _ & _).
  assert (Hv : startswith x (lit "?") = true).
  { apply (node_declared variable_node KVariable (sorted (variables g)))
      in Hx; [|apply variable_node_inj|apply kind_variable_node|exact Kv].
    apply sorted_in, built_variables in Hx.
    destruct (rule_atoms_inv _ _ Hr)
      as (sa & sc & ante & cons & _ & Fa & Fc & ->).
    rewrite mentioned_variables_app in Hx.
    apply in_app_or in Hx as [Hx|Hx];
      [exact (parsed_variables _ _ _ Fa x Hx)
      |exact (parsed_variables _ _ _ Fc x Hx)]. }
  split; [exact Hv|]. split; intros Hn.
  - apply (node_declared literal_node KLiteral (sorted (literals g)))
      in Hn; [|apply literal_node_inj|apply kind_literal_node|exact Kl].
    apply sorted_in, built_literals, literal_not_variable in Hn. congruence.
  - apply (node_declared class_node KClass (sorted (all_classes g)))
      in Hn; [|apply class_node_inj|apply kind_class_node|exact Kc].
    apply sorted_in, built_classes in Hn. unfold mentioned_classes in Hn.
    apply in_map_iff in Hn as (va & E & Hva).
    destruct (wf_assertions atoms Hwf va Hva) as [Hclean _].
    rewrite E in Hclean. apply clean_not_variable in Hclean. congruence.
Qed.

Lemma X20_variables_apart_witness :
  exists dot,
    outcome (generate_dot quiet new_converter scenario_value None) = Ok dot
    /\ startswith (lit "?x") (lit "?") = true
    /\ ~ In (literal_node (lit "?x")) (split dot [nl])
    /\ ~ In (class_node (lit "?x")) (split dot [nl]).
Proof.
  assert (H : exists dot,
             outcome (generate_dot quiet new_converter scenario_value None)
             = Ok dot
             /\ In (variable_node (lit "?x")) (split dot [nl])).
  { eexists. split; [vm_compute; reflexivity|]. vm_compute. tauto. }
  destruct H as (dot & H & Hx). exists dot. split; [exact H|].
  exact (X20_variables_apart quiet new_converter scenario_value None dot H
           (lit "?x") Hx).
Defined.

(** ** When a rule converts *)

Lemma parse_atoms_ok p l atoms :
  parse_atoms p l = Ok atoms ->
  Forall (fun s => exists x, parse_atom s = Ok x) l.
Proof.
  intros H. apply parse_atoms_inv in H.
  induction H as [|s a l atoms [Hs _] _ IH]; constructor; eauto.
Qed.

(** X21.  A rule converts exactly when it has one arrow and each piece
    of its two sides between carets, stripped, is a class atom or a
    property atom. *)
Theorem X21_rules_that_convert :
  forall rule,
    (exists dot, dot_text rule = Ok dot)
    <-> exists a c,
        split rule (lit "->") = [a; c]
        /\ Forall (fun s => exists x, parse_atom s = Ok x)
                  (map strip (split a (lit "^"))
                   ++ map strip (split c (lit "^"))).
Proof.
  intros rule. unfold dot_text. split.
  - intros (dot & H).
    destruct (rule_atoms rule) as [atoms|e] eqn:Hr; [|discriminate].
    unfold rule_atoms in Hr.
    destruct (parse_swrl_rule rule) as [[sa sc]|e] eqn:Hp; [|discriminate].
    cbn [bind fst snd] in Hr.
    destruct (parse_atoms antecedent sa) as [ante|e] eqn:Ha; [|discriminate].
    destruct (parse_atoms consequent sc) as [cons|e] eqn:Hc; [|discriminate].
    apply parse_swrl_rule_inv in Hp as (a & c & Hs & -> & ->).
    exists a, c. split; [exact Hs|]. apply Forall_app.
    split; eapply parse_atoms_ok; eassumption.
  - intros (a & c & Hs & F). apply Forall_app in F as [Fa Fc].
    rewrite (rule_atoms_sides _ _ _ (parse_swrl_rule_sides _ _ _ Hs)).
    destruct (parse_atoms_all antecedent _ Fa) as (ante & ->).
    destruct (parse_atoms_all consequent _ Fc) as (cons & ->).
    simpl. eauto.
Qed.

Lemma X21_rules_that_convert_witness :
  exists dot, dot_text (lit "A:B(?x)^A:p(?x, 1) -> A:C(?x)") = Ok dot.
Proof.
  apply (proj2 (X21_rules_that_convert (lit "A:B(?x)^A:p(?x, 1) -> A:C(?x)"))).
  exists (lit "A:B(?x)^A:p(?x, 1) "), (lit " A:C(?x)").
  split; [reflexivity|].
  repeat constructor; eexists; vm_compute; reflexivity.
Defined.
